(** * stac_pydantic.item: item schemas, the extension-model factory and its cache

    A shallow embedding of [src/stac_pydantic/item.py]:
    the declarations [ItemProperties], [Item] and [ItemCollection], their
    [to_dict] export, the memoised [_extension_model_factory] and
    [item_factory].  The pydantic machinery the module calls
    ([create_model], model validation, [dict]) and [functools.lru_cache]
    are embedded as far as the module uses them. *)

From Stdlib Require Import ZArith Ascii String DecimalString.
From stdpp Require Import prelude strings gmap sorting.

Set Warnings "-register-all".
Local Open Scope string_scope.
Local Open Scope list_scope.
Local Open Scope nat_scope.

(** ** Python data *)

(** Raw catalog data, as parsed from the wire format.  A Python [dict] keeps
    its insertion order, so an object is an association list.  Numbers are
    integers: floating point has no counterpart here. *)
Inductive json : Type :=
| JNull
| JBool (b : bool)
| JInt (z : Z)
| JStr (s : string)
| JList (l : list json)
| JDict (d : list (string * json)).

Abbreviation dict V := (list (string * V)).

Module Dict.
Section ops.
Context {V : Type}.

(** [d.get(k)] *)
Fixpoint get (k : string) (d : dict V) : option V :=
match d with
| [] => None
| (k', v) :: d' => if String.eqb k k' then Some v else get k d'
end.

(** [d[k] = v]: an existing key keeps its position, a new one goes last. *)
Fixpoint set (k : string) (v : V) (d : dict V) : dict V :=
match d with
| [] => [(k, v)]
| (k', v') :: d' =>
    if String.eqb k k' then (k, v) :: d' else (k', v') :: set k v d'
end.

(** [d.update(other)] *)
Definition update (d other : dict V) : dict V :=
fold_left (fun acc kv => set kv.1 kv.2 acc) other d.

Definition keys (d : dict V) : list string := map fst d.
End ops.
End Dict.

(** Python's [==] on plain data: [True == 1], and two dicts are equal when
    they bind the same keys to equal values, in any order. *)
Definition json_num (j : json) : option Z :=
  match j with
  | JBool b => Some (if b then 1 else 0)%Z
  | JInt z => Some z
  | _ => None
  end.

Fixpoint json_eqb (a b : json) {struct a} : bool :=
  match a, b with
  | JNull, JNull => true
  | JStr s, JStr s' => String.eqb s s'
  | JList l, JList l' =>
      (fix go (l : list json) (l' : list json) {struct l} : bool :=
         match l, l' with
         | [], [] => true
         | x :: l, y :: l' => json_eqb x y && go l l'
         | _, _ => false
         end) l l'
  | JDict d, JDict d' =>
      Nat.eqb (length d) (length d') &&
      (fix go (d : list (string * json)) {struct d} : bool :=
         match d with
         | [] => true
         | (k, x) :: d =>
             match Dict.get k d' with
             | Some y => json_eqb x y && go d
             | None => false
             end
         end) d
  | _, _ =>
      match json_num a, json_num b with
      | Some x, Some y => Z.eqb x y
      | _, _ => false
      end
  end.

(** [bool(v)] *)
Definition truthy (v : json) : bool :=
  match v with
  | JNull => false
  | JBool b => b
  | JInt z => negb (Z.eqb z 0)
  | JStr s => negb (String.eqb s "")
  | JList l => negb (Nat.eqb (length l) 0)
  | JDict d => negb (Nat.eqb (length d) 0)
  end.

(** [str(z)] for an [int] *)
Definition str_of_int (z : Z) : string := NilZero.string_of_int (Z.to_int z).

(** ** pydantic models as data *)

(** [Config.extra] *)
Inductive Extra : Type := ExtraIgnore | ExtraAllow | ExtraForbid.

(** The default slot of a [FieldInfo]: nothing given, [...] (required), or a
    value. *)
Inductive FieldDefault : Type :=
| Undefined
| Ellipsis
| Value (v : json).

(** [Field(default, const=..., alias=...)] *)
Record FieldInfo : Type := mkFieldInfo {
  fi_default : FieldDefault;
  fi_const : bool;
  fi_alias : option string
}.

(** Type annotations.  The annotations the module itself interprets are
    [str], [Optional], [List] and model classes; the types of the
    collaborators ([Asset], [Link], [BBox], geometry, datetime unions, ...)
    are named by their source text and validated by the collaborator. *)
Inductive PyType : Type :=
| TStr
| TOptional (t : PyType)
| TList (t : PyType)
| TModel (m : Model)
| TOther (sig : string)
with Model : Type :=
| mkModel (id : nat)                        (* object identity of the class *)
          (name : string)
          (extra : Extra)
          (fields : list (string * ModelField))   (* [__fields__], by name *)
with ModelField : Type :=
| mkModelField (alias : string) (type_ : PyType) (required : bool)
               (default : json) (const : bool).

Definition cls_id (m : Model) : nat := let 'mkModel i _ _ _ := m in i.
Definition cls_name (m : Model) : string := let 'mkModel _ n _ _ := m in n.
Definition cls_extra (m : Model) : Extra := let 'mkModel _ _ e _ := m in e.
Definition cls_fields (m : Model) : list (string * ModelField) :=
  let 'mkModel _ _ _ fs := m in fs.

Definition mf_alias (f : ModelField) : string :=
  let 'mkModelField a _ _ _ _ := f in a.
Definition mf_type (f : ModelField) : PyType :=
  let 'mkModelField _ t _ _ _ := f in t.
Definition mf_required (f : ModelField) : bool :=
  let 'mkModelField _ _ r _ _ := f in r.
Definition mf_default (f : ModelField) : json :=
  let 'mkModelField _ _ _ d _ := f in d.
Definition mf_const (f : ModelField) : bool :=
  let 'mkModelField _ _ _ _ c := f in c.

(** A field definition as [create_model] takes it: [(annotation, FieldInfo)]. *)
Definition FieldDef : Type := PyType * FieldInfo.

(** Validated values; a model instance carries its class, its [__dict__] and
    its [__fields_set__]. *)
Inductive pyval : Type :=
| PNone
| PBool (b : bool)
| PInt (z : Z)
| PStr (s : string)
| PList (l : list pyval)
| PDict (d : list (string * pyval))
| PInst (cls : Model) (d : list (string * pyval)) (fields_set : gset string).

Fixpoint of_json (j : json) : pyval :=
  match j with
  | JNull => PNone
  | JBool b => PBool b
  | JInt z => PInt z
  | JStr s => PStr s
  | JList l => PList (map of_json l)
  | JDict d => PDict (map (fun kv => (kv.1, of_json kv.2)) d)
  end.

Record instance : Type := mkInstance {
  inst_cls : Model;
  inst_dict : dict pyval;           (* [__dict__], by field name *)
  inst_fields_set : gset string     (* [__fields_set__] *)
}.

Definition inst_val (i : instance) : pyval :=
  PInst (inst_cls i) (inst_dict i) (inst_fields_set i).

(** Exceptions the module can surface. *)
Inductive FieldError : Type :=
| MissingError        (* a required field is absent *)
| NoneIsNotAllowedError   (* [None] for a field that does not allow it *)
| InvalidError        (* the value does not fit the annotation *)
| ConstError          (* a [const] field differs from its default *)
| ExtraError.         (* an unknown key where extras are forbidden *)

Inductive PyError : Type :=
| UnknownExtensionError (ext : string)
| ValidationError (errors : list (string * FieldError))
| TypeError (msg : string).

Inductive result (A : Type) : Type :=
| Ok (a : A)
| Raise (e : PyError).
Arguments Ok {A} a.
Arguments Raise {A} e.

(** *** Class construction *)

Definition is_optional (t : PyType) : bool :=
  match t with TOptional _ => true | _ => false end.

(** [ModelField.infer]: the field a class gets from one definition.  The
    alias falls back to the name; a field is required when its default is
    [...], or when no default is given and the annotation is not
    [Optional]. *)
Definition infer (name : string) (fd : FieldDef) : ModelField :=
  mkModelField
    (default name (fi_alias fd.2))
    fd.1
    (match fi_default fd.2 with
     | Ellipsis => true
     | Value _ => false
     | Undefined => negb (is_optional fd.1)
     end)
    (match fi_default fd.2 with Value v => v | _ => JNull end)
    (fi_const fd.2).

(** What the model metaclass builds for [class name(base)] with the given
    field definitions: the base's fields, each definition written over
    them in order, and the base's [Config] unless the body overrides it. *)
Definition new_model (id : nat) (name : string) (base : Model)
    (config : option Extra) (defs : dict FieldDef) : Model :=
  mkModel id name
    (default (cls_extra base) config)
    (Dict.update (cls_fields base) (map (fun nd => (nd.1, infer nd.1 nd.2)) defs)).

(** [Field(...)] spelled as in the source. *)
Definition annotation_only : FieldInfo := mkFieldInfo Undefined false None.
Definition Field (d : FieldDefault) (const : bool) (alias : option string) : FieldInfo :=
  mkFieldInfo d const alias.

(** Modelled from the spec: [decompose_model] of [stac_pydantic/utils.py],
    absent from the sources.  The Schema Decomposer "extracts a flat
    field-definition mapping from any schema", one entry per field in
    order, and "must preserve alias, default, and required-ness exactly". *)
Definition decompose_field (f : ModelField) : FieldDef :=
  (mf_type f,
   Field (if mf_required f then Ellipsis else Value (mf_default f))
         (mf_const f) (Some (mf_alias f))).

Definition decompose_model (m : Model) : dict FieldDef :=
  map (fun nf => (nf.1, decompose_field nf.2)) (cls_fields m).

(** *** Export: [BaseModel.dict] *)

(** The key a [__dict__] entry is emitted under. *)
Definition dict_key (by_alias : bool) (cls : Model) (k : string) : string :=
  if by_alias then
    match Dict.get k (cls_fields cls) with
    | Some f => mf_alias f
    | None => k
    end
  else k.

(** [dict(pairs)] *)
Definition dict_of_pairs {V : Type} (pairs : list (string * V)) : dict V :=
  Dict.update [] pairs.

(** [BaseModel._iter] with [to_dict=True]: the entries of [__dict__], only
    those in [__fields_set__] under [exclude_unset], re-keyed under
    [by_alias], each value exported by [get_value]. *)
Definition iter_with (get_value : pyval -> json) (by_alias exclude_unset : bool)
    (cls : Model) (d : dict pyval) (fields_set : gset string) : list (string * json) :=
  omap (fun kv =>
          if exclude_unset && negb (bool_decide (kv.1 ∈ fields_set)) then None
          else Some (dict_key by_alias cls kv.1, get_value kv.2)) d.

(** [BaseModel._get_value] *)
Fixpoint get_value (by_alias exclude_unset : bool) (v : pyval) : json :=
  match v with
  | PNone => JNull
  | PBool b => JBool b
  | PInt z => JInt z
  | PStr s => JStr s
  | PList l => JList (map (get_value by_alias exclude_unset) l)
  | PDict d => JDict (map (fun kv => (kv.1, get_value by_alias exclude_unset kv.2)) d)
  | PInst cls d fs =>
      JDict (dict_of_pairs
               (iter_with (get_value by_alias exclude_unset) by_alias exclude_unset cls d fs))
  end.

(** [self.dict(by_alias=..., exclude_unset=...)] *)
Definition model_dict (by_alias exclude_unset : bool) (self : instance) : dict json :=
  dict_of_pairs
    (iter_with (get_value by_alias exclude_unset) by_alias exclude_unset
       (inst_cls self) (inst_dict self) (inst_fields_set self)).

(** [Item.to_dict] and [ItemCollection.to_dict] (lines 51-52 and 69-70). *)
Definition to_dict (self : instance) : dict json :=
  model_dict true true self.

(** [a == b] for a validated value and plain data: an instance compares as
    its [dict()]. *)
Definition py_eqb (a : pyval) (b : json) : bool :=
  json_eqb (get_value false false a) b.

(** *** Validation *)

(** pydantic's [str_validator]: a [str] is kept, an [int] (and so a [bool])
    is converted with [str()], anything else is rejected. *)
Definition str_validator (v : json) : option pyval :=
  match v with
  | JStr s => Some (PStr s)
  | JInt z => Some (PStr (str_of_int z))
  | JBool b => Some (PStr (if b then "True" else "False"))
  | _ => None
  end.

(** The running state of [validate_model]. *)
Record validation : Type := mkValidation {
  values : dict pyval;
  fields_set : gset string;
  names_used : gset string;
  errors : list (string * FieldError)
}.

Section validation.
(** The collaborators' validators, by the source text of the annotation. *)
Variable validate_other : string -> json -> option pyval.

Section model.
Variable validate_type : PyType -> json -> option pyval.

(** A field takes [None] when its annotation is [Optional], or when it is
    not required and its default is [None]. *)
Definition allow_none (f : ModelField) : bool :=
  is_optional (mf_type f) ||
  (negb (mf_required f) && match mf_default f with JNull => true | _ => false end).

(** The validator a [const] field runs last: the value must equal the
    default. *)
Definition constant_validator (f : ModelField) (x : pyval) : FieldError + pyval :=
  if mf_const f && negb (py_eqb x (mf_default f)) then inl ConstError else inr x.

(** [ModelField.validate]: [None] is settled first, any other value goes
    through the annotation's validators; the [const] comparison comes
    last. *)
Definition validate_field (f : ModelField) (v : json) : FieldError + pyval :=
  match v with
  | JNull =>
      if allow_none f then constant_validator f PNone
      else inl NoneIsNotAllowedError
  | _ =>
      match validate_type (mf_type f) v with
      | None => inl InvalidError
      | Some x => constant_validator f x
      end
  end.

(** One turn of the loop over [model.__fields__]. *)
Definition validate_step (check_extra : bool) (input_data : dict json)
    (st : validation) (nf : string * ModelField) : validation :=
  let name := nf.1 in
  let field := nf.2 in
  match Dict.get (mf_alias field) input_data with
  | None =>
      if mf_required field then
        mkValidation (values st) (fields_set st) (names_used st)
          (errors st ++ [(mf_alias field, MissingError)])
      else
        mkValidation (Dict.set name (of_json (mf_default field)) (values st))
          (fields_set st) (names_used st) (errors st)
  | Some value =>
      let fs := {[name]} ∪ fields_set st in
      let used := if check_extra then {[mf_alias field]} ∪ names_used st
                  else names_used st in
      match validate_field field value with
      | inl e => mkValidation (values st) fs used (errors st ++ [(mf_alias field, e)])
      | inr v_ => mkValidation (Dict.set name v_ (values st)) fs used (errors st)
      end
  end.

(** The keys of the input that no field consumed. *)
Definition extra_keys (input_data : dict json) (used : gset string) : list string :=
  filter (fun k => k ∉ used) (Dict.keys input_data).

(** The tail of [validate_model]: extras are kept under [allow] (in the
    order of the input here, where Python iterates over a set), reported in
    sorted order under [forbid], and never looked at under [ignore]. *)
Definition validate_extra (extra : Extra) (input_data : dict json)
    (st : validation) : validation :=
  match extra with
  | ExtraIgnore => st
  | ExtraAllow =>
      let ks := extra_keys input_data (names_used st) in
      mkValidation
        (fold_left (fun vals f =>
                      match Dict.get f input_data with
                      | Some x => Dict.set f (of_json x) vals
                      | None => vals
                      end) ks (values st))
        (list_to_set ks ∪ fields_set st) (names_used st) (errors st)
  | ExtraForbid =>
      let ks := extra_keys input_data (names_used st) in
      mkValidation (values st) (list_to_set ks ∪ fields_set st) (names_used st)
        (errors st ++
         map (fun f => (f, ExtraError)) (merge_sort (fun a b => String.leb a b) ks))
  end.

Definition validate_model (model : Model) (input_data : dict json) : validation :=
  let check_extra :=
    match cls_extra model with ExtraIgnore => false | _ => true end in
  validate_extra (cls_extra model) input_data
    (fold_left (validate_step check_extra input_data) (cls_fields model)
       (mkValidation [] ∅ ∅ [])).

(** Instantiating the class on the raw mapping ([BaseModel.__init__]). *)
Definition construct (model : Model) (input_data : dict json) : result instance :=
  let r := validate_model model input_data in
  match errors r with
  | [] => Ok (mkInstance model (values r) (fields_set r))
  | es => Raise (ValidationError es)
  end.
End model.

(** The validators of an annotation.  [None] fits [Optional] alone; a model
    class instantiates a mapping and rejects what is not one. *)
Fixpoint validate_type (t : PyType) (v : json) {struct t} : option pyval :=
  match t with
  | TStr => str_validator v
  | TOptional t' =>
      match v with
      | JNull => Some PNone
      | _ => validate_type t' v
      end
  | TList t' =>
      match v with
      | JList l => PList <$> mapM (validate_type t') l
      | _ => None
      end
  | TModel m =>
      match v with
      | JDict d =>
          match construct validate_type m d with
          | Ok i => Some (inst_val i)
          | Raise _ => None
          end
      | _ => None
      end
  | TOther sig =>
      match v with
      | JNull => None
      | _ => validate_other sig v
      end
  end.

(** Validation of a raw document against a model class. *)
Definition validate (model : Model) (raw : dict json) : result instance :=
  construct validate_type model raw.
End validation.

(** ** [functools.lru_cache] *)

(** The bare decorator [@lru_cache] (line 76) is [lru_cache(maxsize=128)]. *)
Definition maxsize : nat := 128.

Section lru_cache.
Context {K V S L : Type} `{EqDecision K}.

(** The circular list of links, oldest first, and the [full] flag.  The
    wrapper's dictionary is the lookup in this list. *)
Record lru_state : Type := mkLru {
  lru_links : list (K * V);
  lru_full : bool
}.

Fixpoint cache_get (key : K) (links : list (K * V)) : option V :=
  match links with
  | [] => None
  | (k, v) :: rest => if decide (key = k) then Some v else cache_get key rest
  end.

Fixpoint unlink (key : K) (links : list (K * V)) : list (K * V) :=
  match links with
  | [] => []
  | (k, v) :: rest => if decide (key = k) then rest else (k, v) :: unlink key rest
  end.

(** The size-limited wrapper.  A hit moves the link to the newest end and
    calls nothing.  A miss calls the function; an exception passes through
    and stores nothing; a result is stored, in place of the oldest link
    when the cache is full.  The function gets the state [S] but not the
    cache, so the key cannot appear in the cache during the call. *)
Definition lru_cache_wrapper
    (user_function : K -> S -> list L * result V * S)
    (key : K) (c : lru_state) (s : S) : list L * result V * lru_state * S :=
  match cache_get key (lru_links c) with
  | Some res =>
      ([], Ok res, mkLru (unlink key (lru_links c) ++ [(key, res)]) (lru_full c), s)
  | None =>
      match user_function key s with
      | (log, Raise e, s') => (log, Raise e, c, s')
      | (log, Ok res, s') =>
          if lru_full c then
            (log, Ok res, mkLru (tail (lru_links c) ++ [(key, res)]) true, s')
          else
            let links := lru_links c ++ [(key, res)] in
            (log, Ok res, mkLru links (bool_decide (maxsize ≤ length links)), s')
      end
  end.
End lru_cache.
Arguments lru_state : clear implicits.

(** ** The module *)

(** What the module imports from its collaborators. *)
Class Collaborators : Type := {
  (** [.version.STAC_VERSION] *)
  STAC_VERSION : string;
  (** [geojson_pydantic.features] *)
  Feature : Model;
  FeatureCollection : Model;
  (** [.extensions.Extensions.get]; [None] when the registry raises. *)
  Extensions_get : string -> option Model;
  (** the validators of the collaborators' types *)
  validate_other : string -> json -> option pyval
}.

(** The process state the module touches: the supply of class identities and
    the cache of [_extension_model_factory]. *)
Record World : Type := mkWorld {
  next_cls : nat;
  factory_cache : lru_state (list string) (Model * FieldInfo)
}.

Definition BaseModel : Model := mkModel 0 "BaseModel" ExtraIgnore [].

(** [create_model(name, __base__=base, **fields)]: a new class object. *)
Definition create_model (name : string) (base : Model) (fields : dict FieldDef)
    (next : nat) : Model * nat :=
  (new_model next name base None fields, S next).

(** Lines 17-34. *)
Definition ItemProperties : Model :=
  new_model 1 "ItemProperties" BaseModel (Some ExtraAllow)
    [ ("datetime", (TOther "Union[str, dt]", Field Ellipsis false (Some "datetime")));
      ("title", (TOptional TStr, Field (Value JNull) false (Some "title")));
      ("description", (TOptional TStr, Field (Value JNull) false (Some "description")));
      ("start_datetime",
        (TOptional (TOther "Union[str, dt]"), Field (Value JNull) false (Some "start_datetime")));
      ("end_datetime",
        (TOptional (TOther "Union[str, dt]"), Field (Value JNull) false (Some "end_datetime")));
      ("platform", (TOptional TStr, Field (Value JNull) false (Some "platform")));
      ("instruments",
        (TOptional (TList TStr), Field (Value JNull) false (Some "instruments")));
      ("constellation", (TOptional TStr, Field (Value JNull) false (Some "constellation")));
      ("mission", (TOptional TStr, Field (Value JNull) false (Some "mission"))) ].

Section item.
Context `{Collaborators}.

(** Lines 37-49. *)
Definition Item : Model :=
  new_model 2 "Item" Feature None
    [ ("id", (TStr, annotation_only));
      ("stac_version", (TStr, Field (Value (JStr STAC_VERSION)) true None));
      ("properties", (TModel ItemProperties, annotation_only));
      ("assets", (TOther "Dict[str, Asset]", annotation_only));
      ("links", (TList (TOther "Link"), annotation_only));
      ("bbox", (TOther "BBox", annotation_only));
      ("stac_extensions",
        (TOptional (TList (TOther "Union[str, ExtensionTypes]")), annotation_only));
      ("collection", (TOptional TStr, annotation_only)) ].

(** Lines 58-67. *)
Definition ItemCollection : Model :=
  new_model 3 "ItemCollection" FeatureCollection None
    [ ("stac_version", (TStr, Field (Value (JStr STAC_VERSION)) true None));
      ("features", (TList (TModel Item), annotation_only));
      ("stac_extensions", (TOptional (TList (TOther "ExtensionTypes")), annotation_only));
      ("links", (TList (TOther "Union[PaginationLink, Link]"), annotation_only));
      ("context", (TOptional (TOther "ContextExtension"), annotation_only)) ].

(** The loop of lines 81-85, with the registry lookups it performs. *)
Fixpoint extension_fields (stac_extensions : list string) (fields : dict FieldDef)
    : list string * result (dict FieldDef) :=
  match stac_extensions with
  | [] => ([], Ok fields)
  | ext :: rest =>
      if String.eqb ext "checksum" then extension_fields rest fields
      else
        match Extensions_get ext with
        | None => ([ext], Raise (UnknownExtensionError ext))
        | Some m =>
            let out := extension_fields rest (Dict.update fields (decompose_model m)) in
            (ext :: out.1, out.2)
        end
  end.

(** The body of [_extension_model_factory] (lines 81-89). *)
Definition extension_model (stac_extensions : list string) (next : nat)
    : list string * result (Model * FieldInfo) * nat :=
  match extension_fields stac_extensions [] with
  | (log, Raise e) => (log, Raise e, next)
  | (log, Ok fields) =>
      let mn := create_model "CustomItemProperties" ItemProperties fields next in
      (log, Ok (mn.1, Field Ellipsis false None), mn.2)
  end.

(** [_extension_model_factory] as decorated (lines 76-89): the result, the
    registry lookups of the call, and the world after it. *)
Definition _extension_model_factory (stac_extensions : list string) (w : World)
    : list string * result (Model * FieldInfo) * World :=
  let '(log, r, c, n) :=
    lru_cache_wrapper extension_model stac_extensions (factory_cache w) (next_cls w) in
  (log, r, mkWorld n c).

(** [tuple(stac_extensions)] as a cache key of type [Tuple[str]]: the
    elements of a list, the characters of a string, the keys of a dict.
    A list holding anything but strings is outside the annotated key type
    and is reported as a [TypeError]. *)
Definition tuple_of (v : json) : result (list string) :=
  match v with
  | JList l =>
      match mapM (fun x => match x with JStr s => Some s | _ => None end) l with
      | Some key => Ok key
      | None => Raise (TypeError "extension identifiers must be str")
      end
  | JStr s => Ok (map (fun c => String c "") (String.list_ascii_of_string s))
  | JDict d => Ok (Dict.keys d)
  | _ => Raise (TypeError "object is not iterable")
  end.

(** Lines 92-99. *)
Definition item_factory (item : dict json) (w : World)
    : list string * result Model * World :=
  let item_fields := decompose_model Item in
  let stac_extensions := default JNull (Dict.get "stac_extensions" item) in
  if truthy stac_extensions then
    match tuple_of stac_extensions with
    | Raise e => ([], Raise e, w)
    | Ok key =>
        match _extension_model_factory key w with
        | (log, Raise e, w') => (log, Raise e, w')
        | (log, Ok props, w') =>
            let mn := create_model "CustomStacItem" Item
                        (Dict.set "properties" (TModel props.1, props.2) item_fields)
                        (next_cls w') in
            (log, Ok mn.1, mkWorld mn.2 (factory_cache w'))
        end
    end
  else
    let mn := create_model "CustomStacItem" Item item_fields (next_cls w) in
    ([], Ok mn.1, mkWorld mn.2 (factory_cache w)).

(** The world at import time: four classes exist, the cache is empty. *)
Definition init : World := mkWorld 4 (mkLru [] false).

(** The calls a client can make that touch the world. *)
Inductive call : Type :=
| CallExtensionModelFactory (stac_extensions : list string)
| CallItemFactory (item : dict json).

Definition exec (w : World) (c : call) : World :=
  match c with
  | CallExtensionModelFactory key => (_extension_model_factory key w).2
  | CallItemFactory item => (item_factory item w).2
  end.

Definition run (calls : list call) (w : World) : World := fold_left exec calls w.

(** The worlds a process can be in. *)
Definition reachable (w : World) : Prop := exists calls, w = run calls init.
End item.

(** ** Vocabulary of the statements *)

Section lru_vocab.
Context {K V : Type}.

Definition lru_keys (c : lru_state K V) : list K := map fst (lru_links c).

(** The shape the wrapper keeps: one link per key, at most [maxsize]
    links, and [full] set exactly when the limit is reached. *)
Definition lru_wf (c : lru_state K V) : Prop :=
  NoDup (lru_keys c) ∧
  length (lru_links c) ≤ maxsize ∧
  lru_full c = bool_decide (maxsize ≤ length (lru_links c)).
End lru_vocab.

(** Equality of two composed schemas up to the identity of the class
    object. *)
Definition same_schema (a b : Model * FieldInfo) : Prop :=
  cls_name a.1 = cls_name b.1 ∧
  cls_extra a.1 = cls_extra b.1 ∧
  cls_fields a.1 = cls_fields b.1 ∧
  a.2 = b.2.

Definition same_outcome (a b : result (Model * FieldInfo)) : Prop :=
  match a, b with
  | Ok x, Ok y => same_schema x y
  | Raise e, Raise e' => e = e'
  | _, _ => False
  end.

(** A class whose [__fields__] binds each name once, as a dict does. *)
Definition wf_model (m : Model) : Prop := NoDup (Dict.keys (cls_fields m)).

(** The aliases a class reads from its input. *)
Definition aliases (m : Model) : list string := map (fun nf => mf_alias nf.2) (cls_fields m).

(** A version string with a dot in it, as [major.minor.patch] has. *)
Definition dotted (s : string) : Prop := "."%char ∈ String.list_ascii_of_string s.

(** [item.get("stac_extensions")] *)
Definition declared_extensions (item : dict json) : json :=
  default JNull (Dict.get "stac_extensions" item).

(** The cache key a call asks for, if it gets as far as the cache. *)
Definition requested_key (c : call) : option (list string) :=
  match c with
  | CallExtensionModelFactory key => Some key
  | CallItemFactory item =>
      if truthy (declared_extensions item) then
        match tuple_of (declared_extensions item) with
        | Ok key => Some key
        | Raise _ => None
        end
      else None
  end.

Section inv.
Context `{Collaborators}.

(** What a cache entry is: the schema composed for its key, under an
    identity handed out after import time. *)
Definition entry_sound (next : nat) (kv : list string * (Model * FieldInfo)) : Prop :=
  exists fields id,
    (extension_fields kv.1 []).2 = Ok fields ∧
    kv.2 = (new_model id "CustomItemProperties" ItemProperties None fields,
            Field Ellipsis false None) ∧
    4 ≤ id < next.

Definition world_inv (w : World) : Prop :=
  lru_wf (factory_cache w) ∧
  Forall (entry_sound (next_cls w)) (lru_links (factory_cache w)) ∧
  4 ≤ next_cls w.

(** The two record classes, each with the collaborator class it extends. *)
Definition record_class (m base : Model) : Prop :=
  (m = Item ∧ base = Feature) ∨ (m = ItemCollection ∧ base = FeatureCollection).

(** A sequence of direct calls to [_extension_model_factory]. *)
Definition compose_calls (keys : list (list string)) : list call :=
  map CallExtensionModelFactory keys.

Definition cached (key : list string) (w : World) : option (Model * FieldInfo) :=
  cache_get key (lru_links (factory_cache w)).
End inv.

(** A base class that is a proper class and leaves the key [stac_version]
    to its subclasses. *)
Definition base_without_version (base : Model) : Prop :=
  wf_model base ∧ Forall (λ nf, mf_alias nf.2 ≠ "stac_version") (cls_fields base).

(** The field both record classes declare at lines 43 and 63. *)
Definition version_field (version : string) : ModelField :=
  mkModelField "stac_version" TStr false (JStr version) true.

(** The [properties] field of a full-item class whose properties schema is
    [m]: required, under its own name. *)
Definition properties_field (m : Model) : ModelField :=
  mkModelField "properties" (TModel m) true JNull false.

(** ** A concrete set of collaborators

    A geometry-feature library with the shape GeoJSON gives its classes, a
    registry of two extensions that both define a field [x], and permissive
    validators for the collaborators' types. *)

Definition sample_Feature : Model :=
  new_model 10 "Feature" BaseModel None
    [ ("type", (TStr, Field (Value (JStr "Feature")) true None));
      ("geometry", (TOther "Geometry", annotation_only));
      ("properties", (TOptional (TOther "Dict[Any, Any]"), annotation_only));
      ("id", (TOptional TStr, annotation_only));
      ("bbox", (TOptional (TOther "BBox"), annotation_only)) ].

Definition sample_FeatureCollection : Model :=
  new_model 11 "FeatureCollection" BaseModel None
    [ ("type", (TStr, Field (Value (JStr "FeatureCollection")) true None));
      ("features", (TList (TModel sample_Feature), annotation_only));
      ("bbox", (TOptional (TOther "BBox"), annotation_only)) ].

Definition ext_a : Model :=
  new_model 20 "ExtA" BaseModel None
    [ ("x", (TStr, Field Ellipsis false (Some "a:x"))) ].

Definition ext_b : Model :=
  new_model 21 "ExtB" BaseModel None
    [ ("x", (TOptional TStr, Field (Value JNull) false (Some "b:x"))) ].

Definition sample_registry (k : string) : option Model :=
  if String.eqb k "a" then Some ext_a
  else if String.eqb k "b" then Some ext_b
  else None.

Definition sample : Collaborators := {|
  STAC_VERSION := "0.9.0";
  Feature := sample_Feature;
  FeatureCollection := sample_FeatureCollection;
  Extensions_get := sample_registry;
  validate_other := fun _ v => Some (of_json v)
|}.

(** A raw item that supplies the required fields and nothing else. *)
Definition minimal_item : dict json :=
  [ ("geometry",
      JDict [("type", JStr "Point"); ("coordinates", JList [JInt 0; JInt 0])]);
    ("properties", JDict [("datetime", JStr "2020-01-01T00:00:00Z")]);
    ("id", JStr "a");
    ("bbox", JList [JInt 0; JInt 0; JInt 1; JInt 1]);
    ("assets", JDict []);
    ("links", JList []) ].

(** A raw item collection that supplies the required fields only. *)
Definition minimal_collection : dict json :=
  [ ("features", JList []); ("links", JList []) ].

(** 128 cache keys, none of which needs the registry: the reserved
    identifier repeated 2, 3, ..., 129 times. *)
Definition checksum_keys : list (list string) :=
  map (fun n => repeat "checksum" (2 + n)) (seq 0 128).

(** The minimal item with its version given, with another version, and
    with an extension list. *)
Definition versioned_item : dict json :=
  ("stac_version", JStr "0.9.0") :: minimal_item.

Definition mismatched_item : dict json :=
  ("stac_version", JStr "1.0.0") :: minimal_item.

Definition extended_item : dict json :=
  ("stac_extensions", JList [JStr "a"]) :: minimal_item.

(** A properties object for the schema composed for ["a"], and the same
    object with an undeclared key. *)
Definition sample_properties : dict json :=
  [ ("datetime", JStr "2020-01-01T00:00:00Z"); ("a:x", JStr "v") ].

Definition sample_properties_extra : dict json :=
  sample_properties ++ [ ("unknown:key", JInt 1) ].

(** ** Vocabulary of the further statements *)

Section composition_vocab.
Context `{Collaborators}.

(** [e] is an identifier of the sequence that the loop looks up, and the
    registry answers with [m]. *)
Definition registered (exts : list string) (e : string) (m : Model) : Prop :=
  e ∈ exts ∧ e ≠ "checksum" ∧ Extensions_get e = Some m.

(** The registry answers the sequence with proper classes. *)
Definition registry_wf (exts : list string) : Prop :=
  ∀ e m, registered exts e m → wf_model m.

(** No two different identifiers of the sequence define a field of one
    name. *)
Definition collision_free (exts : list string) : Prop :=
  ∀ e e' m m' x,
    registered exts e m → registered exts e' m' → e ≠ e' →
    x ∈ Dict.keys (cls_fields m) → x ∉ Dict.keys (cls_fields m').

(** The identifiers the loop looks up, in order. *)
Definition lookups (exts : list string) : list string :=
  filter (λ e, e ≠ "checksum") exts.

(** The identities of the classes the cache holds. *)
Definition cached_ids (w : World) : list nat :=
  map (λ kv : list string * (Model * FieldInfo), cls_id kv.2.1)
      (lru_links (factory_cache w)).

(** The fields each class declares without a default, by the key the
    document gives them under (lines 22, 42-47, 64-66). *)
Definition required_key (m : Model) (k : string) : Prop :=
  (m = ItemProperties ∧ k = "datetime") ∨
  (m = Item ∧ k ∈ ["id"; "properties"; "assets"; "links"; "bbox"]) ∨
  (m = ItemCollection ∧ k ∈ ["features"; "links"]).

(** The fields each class declares as [Optional] without a default. *)
Definition optional_key (m : Model) (k : string) : Prop :=
  (m = Item ∧ k ∈ ["stac_extensions"; "collection"]) ∨
  (m = ItemCollection ∧ k ∈ ["stac_extensions"; "context"]).
End composition_vocab.

(** A field as the metaclass leaves it: a required field has no default. *)
Definition canonical (f : ModelField) : Prop :=
  mf_required f = true → mf_default f = JNull.

(** A collaborator class as GeoJSON declares them: each name bound once,
    no aliases, required fields without a default. *)
Definition plain_class (base : Model) : Prop :=
  wf_model base ∧
  Forall (λ nf, mf_alias nf.2 = nf.1 ∧ canonical nf.2) (cls_fields base).

Section eviction_vocab.
Context {K V : Type}.

(** [key] has a link, and every key of [ks] has a link newer than it. *)
Definition newer_than (c : lru_state K V) (key : K) (ks : list K) : Prop :=
  exists before r after,
    lru_links c = before ++ (key, r) :: after ∧
    ∀ x, x ∈ ks → x ∈ map fst after.
End eviction_vocab.

(** The state of the link of [key] in a world: gone, or older than the
    link of every key of [ks]. *)
Definition pushed (w : World) (key : list string) (ks : list (list string)) : Prop :=
  cache_get key (lru_links (factory_cache w)) = None ∨
  newer_than (factory_cache w) key ks.

Section eviction_vocab_module.
Context `{Collaborators}.

(** The loop accepts the sequence: it names no identifier the registry
    does not know. *)
Definition composes (k : list string) : bool :=
  match (extension_fields k []).2 with
  | Ok _ => true
  | Raise _ => false
  end.

(** The sequences among the requests of [calls] that the loop accepts. *)
Definition composed_requests (calls : list call) : list (list string) :=
  filter (λ k, composes k = true) (omap requested_key calls).
End eviction_vocab_module.

(** ** Further concrete data *)

(** A third extension, whose field no other sample extension defines, and
    a registry that knows it beside [ExtA]. *)
Definition ext_c : Model :=
  new_model 22 "ExtC" BaseModel None
    [ ("y", (TOptional TStr, Field (Value JNull) false (Some "c:y"))) ].

Definition disjoint_registry (k : string) : option Model :=
  if String.eqb k "a" then Some ext_a
  else if String.eqb k "c" then Some ext_c
  else None.

Definition sample_disjoint : Collaborators := {|
  STAC_VERSION := "0.9.0";
  Feature := sample_Feature;
  FeatureCollection := sample_FeatureCollection;
  Extensions_get := disjoint_registry;
  validate_other := fun _ v => Some (of_json v)
|}.

(** The minimal item with a number for its identifier, and with an
    explicit [None] for its collection. *)
Definition numbered_item : dict json := Dict.set "id" (JInt 7) minimal_item.

Definition orphan_item : dict json := minimal_item ++ [ ("collection", JNull) ].

(** An item that declares an extension no registry here knows. *)
Definition unknown_item : dict json :=
  ("stac_extensions", JList [JStr "a"; JStr "not-a-real-extension"]) :: minimal_item.

(** A collection of one minimal item, and one whose only feature is an
    empty object. *)
Definition one_item_collection : dict json :=
  [ ("features", JList [JDict minimal_item]); ("links", JList []) ].

Definition bad_collection : dict json :=
  [ ("features", JList [JDict []]); ("links", JList []) ].

(** * Properties *)

(** ** Ordered dictionaries *)

Module DictFacts.
Section facts.
Context {V : Type}.
Implicit Types (d : dict V) (k : string) (v : V).

Lemma eqb_refl k : String.eqb k k = true.
Proof. apply String.eqb_refl. Qed.

Lemma eqb_ne k k' : k ≠ k' → String.eqb k k' = false.
Proof. intros. by apply String.eqb_neq. Qed.

Lemma get_set_eq k v d : Dict.get k (Dict.set k v d) = Some v.
Proof.
induction d as [|[k' v'] d IH]; simpl.
- by rewrite eqb_refl.
- destruct (String.eqb_spec k k') as [->|Hne]; simpl.
  + by rewrite eqb_refl.
  + by rewrite eqb_ne.
Qed.

Lemma get_set_ne k k' v d : k ≠ k' → Dict.get k' (Dict.set k v d) = Dict.get k' d.
Proof.
intros Hne. induction d as [|[k0 v0] d IH]; simpl.
- rewrite eqb_ne; [done | congruence].
- destruct (String.eqb_spec k k0) as [->|Hne0]; simpl.
  + rewrite !eqb_ne; [done | congruence ..].
  + by rewrite IH.
Qed.

Lemma get_None k d : Dict.get k d = None ↔ k ∉ Dict.keys d.
Proof.
induction d as [|[k' v'] d IH]; simpl.
- split; [intros _; apply not_elem_of_nil | done].
- rewrite not_elem_of_cons. destruct (String.eqb_spec k k') as [->|Hne].
  + split; [done | by intros [? _]].
  + rewrite IH. tauto.
Qed.

Lemma get_Some_elem k v d : Dict.get k d = Some v → (k, v) ∈ d.
Proof.
induction d as [|[k' v'] d IH]; simpl; [done|].
destruct (String.eqb_spec k k') as [->|Hne].
- intros [= ->]. apply elem_of_cons; by left.
- intros. apply elem_of_cons; right; auto.
Qed.

Lemma get_is_Some k d : is_Some (Dict.get k d) ↔ k ∈ Dict.keys d.
Proof.
destruct (Dict.get k d) eqn:E.
- split; [intros _ | by eauto].
  apply get_Some_elem in E. apply list_elem_of_fmap. by exists (k, v).
- split; [by intros [? ?] | intros Hin]. by apply get_None in E.
Qed.

Lemma elem_get k v d : NoDup (Dict.keys d) → (k, v) ∈ d → Dict.get k d = Some v.
Proof.
induction d as [|[k' v'] d IH]; simpl.
- intros _ Hin. by apply elem_of_nil in Hin.
- intros [Hk Hd]%NoDup_cons [Heq|Hin]%elem_of_cons.
  + injection Heq as -> ->. by rewrite eqb_refl.
  + rewrite eqb_ne; [by apply IH|].
    intros ->. apply Hk. apply list_elem_of_fmap. by exists (k', v).
Qed.

Lemma keys_set k v d k' : k' ∈ Dict.keys (Dict.set k v d) ↔ k' = k ∨ k' ∈ Dict.keys d.
Proof.
induction d as [|[k0 v0] d IH]; simpl.
- rewrite elem_of_cons. tauto.
- destruct (String.eqb_spec k k0) as [->|Hne]; simpl.
  + rewrite !elem_of_cons. tauto.
  + rewrite !elem_of_cons, IH. tauto.
Qed.

Lemma NoDup_set k v d : NoDup (Dict.keys d) → NoDup (Dict.keys (Dict.set k v d)).
Proof.
induction d as [|[k0 v0] d IH]; simpl.
- intros _. apply NoDup_singleton.
- intros [Hk Hd]%NoDup_cons. destruct (String.eqb_spec k k0) as [->|Hne]; simpl.
  + by apply NoDup_cons.
  + apply NoDup_cons. split; [|by apply IH].
    rewrite keys_set. intros [->|?]; [done | by apply Hk].
Qed.

Lemma update_cons d k v other :
Dict.update d ((k, v) :: other) = Dict.update (Dict.set k v d) other.
Proof. done. Qed.

Lemma NoDup_update d other :
NoDup (Dict.keys d) → NoDup (Dict.keys (Dict.update d other)).
Proof.
revert d. induction other as [|[k v] other IH]; intros d Hd; [done|].
rewrite update_cons. apply IH. by apply NoDup_set.
Qed.

Lemma keys_update d other k :
k ∈ Dict.keys (Dict.update d other) ↔ k ∈ Dict.keys d ∨ k ∈ Dict.keys other.
Proof.
revert d. induction other as [|[k0 v0] other IH]; intros d.
- cbn. rewrite elem_of_nil. tauto.
- rewrite update_cons, IH, keys_set. cbn [Dict.keys map fst].
  rewrite elem_of_cons. tauto.
Qed.

(** A key the update does not mention keeps its binding. *)
Lemma get_update_None d other k :
Dict.get k other = None → Dict.get k (Dict.update d other) = Dict.get k d.
Proof.
revert d. induction other as [|[k0 v0] other IH]; intros d; cbn [Dict.get]; [done|].
destruct (String.eqb_spec k k0) as [->|Hne]; [done|].
intros Hn. rewrite update_cons, IH by done. apply get_set_ne. congruence.
Qed.

(** A key the update mentions once gets the update's binding. *)
Lemma get_update_Some d other k v :
NoDup (Dict.keys other) → Dict.get k other = Some v →
Dict.get k (Dict.update d other) = Some v.
Proof.
revert d. induction other as [|[k0 v0] other IH]; intros d; cbn [Dict.get Dict.keys map fst];
  [done|].
intros [Hk Hd]%NoDup_cons. destruct (String.eqb_spec k k0) as [->|Hne].
- intros [= ->]. rewrite update_cons, get_update_None.
  + apply get_set_eq.
  + by apply get_None.
- intros Hg. rewrite update_cons. by apply IH.
Qed.

Lemma keys_dict_of_pairs (pairs : list (string * V)) k :
k ∈ Dict.keys (dict_of_pairs pairs) ↔ k ∈ Dict.keys pairs.
Proof.
unfold dict_of_pairs. rewrite keys_update. simpl. rewrite elem_of_nil. tauto.
Qed.
End facts.

Lemma get_map {V W : Type} (g : string → V → W) k (d : dict V) :
Dict.get k (map (fun nf => (nf.1, g nf.1 nf.2)) d) = g k <$> Dict.get k d.
Proof.
induction d as [|[k' v'] d IH]; simpl; [done|].
destruct (String.eqb_spec k k') as [->|Hne]; done.
Qed.

Lemma keys_map {V W : Type} (g : string → V → W) (d : dict V) :
Dict.keys (map (fun nf => (nf.1, g nf.1 nf.2)) d) = Dict.keys d.
Proof. unfold Dict.keys. rewrite map_map. done. Qed.
End DictFacts.

(** ** The LRU wrapper *)

Section lru_facts.
Context {K V S L : Type} `{EqDecision K}.
Implicit Types (l : list (K * V)) (c : lru_state K V) (k key : K).

Lemma cache_get_None key l : cache_get key l = None ↔ key ∉ map fst l.
Proof.
  induction l as [|[k v] l IH]; simpl.
  - split; [intros _; apply not_elem_of_nil | done].
  - rewrite not_elem_of_cons. destruct (decide (key = k)) as [->|Hne].
    + split; [done | by intros [? _]].
    + rewrite IH. tauto.
Qed.

Lemma cache_get_elem key v l : cache_get key l = Some v → (key, v) ∈ l.
Proof.
  induction l as [|[k v'] l IH]; simpl; [done|].
  destruct (decide (key = k)) as [->|Hne].
  - intros [= ->]. apply elem_of_cons; by left.
  - intros. apply elem_of_cons; right; auto.
Qed.

Lemma cache_get_app key l1 l2 :
  cache_get key (l1 ++ l2) =
  match cache_get key l1 with Some v => Some v | None => cache_get key l2 end.
Proof.
  induction l1 as [|[k v] l1 IH]; simpl; [done|].
  by destruct (decide (key = k)).
Qed.

Lemma cache_get_app_r key l1 l2 :
  key ∉ map fst l1 → cache_get key (l1 ++ l2) = cache_get key l2.
Proof. intros Hn. rewrite cache_get_app. by apply cache_get_None in Hn as ->. Qed.

Lemma cache_get_here key v l : cache_get key ((key, v) :: l) = Some v.
Proof. simpl. by rewrite decide_True. Qed.

Lemma unlink_app_r key l1 l2 :
  key ∉ map fst l1 → unlink key (l1 ++ l2) = l1 ++ unlink key l2.
Proof.
  induction l1 as [|[k v] l1 IH]; simpl; [done|].
  rewrite not_elem_of_cons. intros [Hne Hn].
  rewrite decide_False by done. by rewrite IH.
Qed.

Lemma unlink_app_l key l1 l2 :
  key ∈ map fst l1 → unlink key (l1 ++ l2) = unlink key l1 ++ l2.
Proof.
  induction l1 as [|[k v] l1 IH]; simpl.
  - intros Hin. by apply elem_of_nil in Hin.
  - destruct (decide (key = k)) as [->|Hne]; [done|].
    rewrite elem_of_cons. intros [?|Hin]; [done|]. by rewrite IH.
Qed.

Lemma unlink_here key v l : unlink key ((key, v) :: l) = l.
Proof. simpl. by rewrite decide_True. Qed.

Lemma unlink_subseteq key l : unlink key l ⊆ l.
Proof.
  induction l as [|[k v] l IH]; simpl; [done|].
  destruct (decide (key = k)).
  - by apply list_subseteq_cons.
  - intros x [->|Hx]%elem_of_cons; apply elem_of_cons; [by left | right; by apply IH].
Qed.

(** Splitting the list at the link of a cached key. *)
Lemma cache_get_split key v l :
  cache_get key l = Some v →
  exists l1 l2, l = l1 ++ (key, v) :: l2 ∧ key ∉ map fst l1.
Proof.
  induction l as [|[k v'] l IH]; simpl; [done|].
  destruct (decide (key = k)) as [->|Hne].
  - intros [= ->]. exists [], l. split; [done | apply not_elem_of_nil].
  - intros (l1 & l2 & -> & Hn)%IH. exists ((k, v') :: l1), l2. split; [done|].
    simpl. rewrite not_elem_of_cons. done.
Qed.

(** A hit reorders the links and keeps them all. *)
Lemma hit_links_perm key v l :
  cache_get key l = Some v → unlink key l ++ [(key, v)] ≡ₚ l.
Proof.
  intros (l1 & l2 & -> & Hn)%cache_get_split.
  rewrite unlink_app_r, unlink_here by done.
  rewrite <- app_assoc. apply Permutation_app_head.
  symmetry. apply Permutation_cons_append.
Qed.

Section wrapper.
Variable user_function : K → S → list L * result V * S.

Lemma wrapper_hit key c s res :
  cache_get key (lru_links c) = Some res →
  lru_cache_wrapper user_function key c s =
  ([], Ok res, mkLru (unlink key (lru_links c) ++ [(key, res)]) (lru_full c), s).
Proof. intros Hg. unfold lru_cache_wrapper. by rewrite Hg. Qed.

Lemma wrapper_raise key c s log e s' :
  cache_get key (lru_links c) = None →
  user_function key s = (log, Raise e, s') →
  lru_cache_wrapper user_function key c s = (log, Raise e, c, s').
Proof. intros Hg Hf. unfold lru_cache_wrapper. by rewrite Hg, Hf. Qed.

Lemma wrapper_store key c s log res s' :
  cache_get key (lru_links c) = None →
  user_function key s = (log, Ok res, s') →
  lru_cache_wrapper user_function key c s =
  (log, Ok res,
   if lru_full c then mkLru (tail (lru_links c) ++ [(key, res)]) true
   else mkLru (lru_links c ++ [(key, res)])
          (bool_decide (maxsize ≤ length (lru_links c ++ [(key, res)]))),
   s').
Proof.
  intros Hg Hf. unfold lru_cache_wrapper. rewrite Hg, Hf. by destruct (lru_full c).
Qed.

(** The three ways a call can go. *)
Lemma wrapper_cases key c s :
  (exists res, cache_get key (lru_links c) = Some res ∧
     lru_cache_wrapper user_function key c s =
     ([], Ok res, mkLru (unlink key (lru_links c) ++ [(key, res)]) (lru_full c), s)) ∨
  (exists log e s', cache_get key (lru_links c) = None ∧
     user_function key s = (log, Raise e, s') ∧
     lru_cache_wrapper user_function key c s = (log, Raise e, c, s')) ∨
  (exists log res s', cache_get key (lru_links c) = None ∧
     user_function key s = (log, Ok res, s') ∧
     lru_cache_wrapper user_function key c s =
     (log, Ok res,
      if lru_full c then mkLru (tail (lru_links c) ++ [(key, res)]) true
      else mkLru (lru_links c ++ [(key, res)])
             (bool_decide (maxsize ≤ length (lru_links c ++ [(key, res)]))),
      s')).
Proof.
  destruct (cache_get key (lru_links c)) as [res|] eqn:Hg.
  - left. exists res. split; [done|]. by apply wrapper_hit.
  - right. destruct (user_function key s) as [[log [res|e]] s'] eqn:Hf.
    + right. exists log, res, s'. split_and!; [done..|]. by apply wrapper_store.
    + left. exists log, e, s'. split_and!; [done..|]. by apply wrapper_raise.
Qed.
End wrapper.
End lru_facts.

(** Case analysis on a call of the wrapper: a hit, an exception of the
    function, or a new link. *)
Ltac wrapper_inv Hcall res Hg Hf :=
  lazymatch type of Hcall with
  | lru_cache_wrapper ?f ?key ?c ?s = _ =>
      let Heq := fresh "Heq" in
      destruct (wrapper_cases f key c s) as
        [(res & Hg & Heq)|[(? & ? & ? & Hg & Hf & Heq)|(? & res & ? & Hg & Hf & Heq)]];
      rewrite Heq in Hcall; simplify_eq
  end.

Section lru_invariants.
Context {K V S L : Type} `{EqDecision K}.
Implicit Types (l : list (K * V)) (c : lru_state K V) (k key : K).
Variable user_function : K → S → list L * result V * S.

Lemma wrapper_wf key c s log r c' s' :
  lru_wf c →
  lru_cache_wrapper user_function key c s = (log, r, c', s') →
  lru_wf c'.
Proof.
  intros (Hnd & Hlen & Hfull) Hcall.
  wrapper_inv Hcall res Hg Hf.
  - pose proof (hit_links_perm _ _ _ Hg) as Hp.
    pose proof (Permutation_length Hp) as Hpl.
    unfold lru_wf, lru_keys in *; simpl. rewrite Hpl. split_and!; [|done..].
    revert Hnd.
    change (NoDup (fst <$> lru_links c) →
            NoDup (fst <$> (unlink key (lru_links c) ++ [(key, res)]))).
    by rewrite Hp.
  - done.
  - apply cache_get_None in Hg. destruct (lru_full c) eqn:Hf'.
    + symmetry in Hfull. apply bool_decide_eq_true in Hfull.
      destruct (lru_links c) as [|[k0 v0] l] eqn:Hl; [unfold maxsize in Hfull; simpl in Hfull; lia|].
      unfold lru_wf, lru_keys in *; simpl in *. rewrite Hl in *. simpl in *.
      apply NoDup_cons in Hnd as [Hk0 Hnd]. apply not_elem_of_cons in Hg as [Hne Hg].
      rewrite map_app, length_app. simpl. split_and!.
      * apply NoDup_app. split_and!; [done | | apply NoDup_singleton].
        intros x Hx ->%list_elem_of_singleton. done.
      * lia.
      * symmetry. apply bool_decide_eq_true. lia.
    + symmetry in Hfull. apply bool_decide_eq_false in Hfull.
      unfold lru_wf, lru_keys in *; simpl in *.
      rewrite map_app, length_app. simpl. split_and!.
      * apply NoDup_app. split_and!; [done | | apply NoDup_singleton].
        intros x Hx ->%list_elem_of_singleton. done.
      * lia.
      * done.
Qed.

(** Right after a call that returned, the result is cached under the
    key. *)
Lemma wrapper_cached key c s log res c' s' :
  lru_wf c →
  lru_cache_wrapper user_function key c s = (log, Ok res, c', s') →
  cache_get key (lru_links c') = Some res.
Proof.
  intros (Hnd & Hlen & Hfull) Hcall.
  wrapper_inv Hcall r Hg Hf.
  - simpl. destruct (cache_get_split _ _ _ Hg) as (l1 & l2 & Hl & Hn).
    unfold lru_keys in Hnd. rewrite Hl in *.
    rewrite unlink_app_r, unlink_here by done.
    rewrite map_app in Hnd. simpl in Hnd.
    apply NoDup_app in Hnd as (_ & Hdis & [Hk _]%NoDup_cons).
    rewrite cache_get_app_r; [apply cache_get_here|].
    rewrite map_app, not_elem_of_app. done.
  - apply cache_get_None in Hg.
    destruct (lru_full c); simpl.
    + rewrite cache_get_app_r; [apply cache_get_here|].
      intros Hin. apply Hg. destruct (lru_links c); [done|].
      simpl. apply elem_of_cons. by right.
    + rewrite cache_get_app_r; [apply cache_get_here | done].
Qed.

(** Every link after a call was there before, or is the new one. *)
Lemma wrapper_links key c s log r c' s' :
  lru_cache_wrapper user_function key c s = (log, r, c', s') →
  ∀ kv, kv ∈ lru_links c' →
    kv ∈ lru_links c ∨
    (exists res, kv = (key, res) ∧ r = Ok res ∧
       cache_get key (lru_links c) = None ∧
       user_function key s = (log, Ok res, s')).
Proof.
  intros Hcall kv Hin.
  wrapper_inv Hcall res Hg Hf.
  - left. simpl in Hin. apply elem_of_app in Hin as [Hin|Hin].
    + by apply (unlink_subseteq key).
    + apply list_elem_of_singleton in Hin as ->. by apply cache_get_elem.
  - by left.
  - assert (kv ∈ lru_links c ∨ kv = (key, res)) as [? | ->].
    { destruct (lru_full c); simpl in Hin;
        apply elem_of_app in Hin as [Hin|Hin%list_elem_of_singleton]; auto.
      left. destruct (lru_links c); [done|]. apply elem_of_cons. by right. }
    + by left.
    + right. by exists res.
Qed.

(** A call never caches anything under another key. *)
Lemma wrapper_other_key key key' c s log r c' s' :
  key' ≠ key →
  lru_cache_wrapper user_function key c s = (log, r, c', s') →
  cache_get key' (lru_links c) = None →
  cache_get key' (lru_links c') = None.
Proof.
  intros Hne Hcall Hg. apply cache_get_None. intros Hin.
  apply list_elem_of_fmap in Hin as ([k v] & Hk & Hin). simpl in Hk. subst k.
  destruct (wrapper_links _ _ _ _ _ _ _ Hcall _ Hin) as [Hold|(res & Heq & _)].
  - apply cache_get_None in Hg. apply Hg. apply list_elem_of_fmap. by exists (key', v).
  - congruence.
Qed.

(** The link of the key just asked for is the newest. *)
Lemma wrapper_newest key c s log res c' s' :
  lru_cache_wrapper user_function key c s = (log, Ok res, c', s') →
  exists l, lru_links c' = l ++ [(key, res)].
Proof.
  intros Hcall.
  wrapper_inv Hcall v Hg Hf; simpl; [eauto|].
  destruct (lru_full c); simpl; eauto.
Qed.
End lru_invariants.

(** *** How long a link survives *)

Section lru_survival.
Context {K V S L : Type} `{Countable K}.
Variable user_function : K → S → list L * result V * S.
Implicit Types (l before after : list (K * V)) (c : lru_state K V) (T : gset K).

Lemma size_ge_length (ks : list K) T :
  NoDup ks → (∀ x, x ∈ ks → x ∈ T) → length ks ≤ size T.
Proof.
  intros Hnd Hsub. rewrite <- (size_list_to_set (C := gset K) ks) by done.
  apply subseteq_size. intros x Hx. apply Hsub. by apply elem_of_list_to_set in Hx.
Qed.

(** One call keeps the link of [key] as long as every key that was asked
    for after it, this one included, lies in a set of fewer than
    [maxsize] keys. *)
Lemma wrapper_keeps T key r k' c s log res c' s' before after :
  lru_wf c →
  lru_links c = before ++ (key, r) :: after →
  (∀ x, x ∈ map fst after → x ∈ T) →
  k' = key ∨ k' ∈ T →
  size T < maxsize →
  lru_cache_wrapper user_function k' c s = (log, res, c', s') →
  exists before' after',
    lru_links c' = before' ++ (key, r) :: after' ∧
    (∀ x, x ∈ map fst after' → x ∈ T).
Proof.
  intros (Hnd & Hlen & Hfull) Hl Hafter Hk' HT Hcall.
  unfold lru_keys in Hnd. rewrite Hl in Hnd.
  rewrite map_app in Hnd. simpl in Hnd.
  apply NoDup_app in Hnd as (Hndb & Hdis & [Hka Hnda]%NoDup_cons).
  assert (Hkb : key ∉ map fst before).
  { intros Hin. apply (Hdis _ Hin). apply elem_of_cons. by left. }
  wrapper_inv Hcall v Hg Hf; simpl.
  - (* hit *)
    rewrite Hl in Hg |- *. destruct (decide (k' = key)) as [->|Hne].
    + rewrite cache_get_app_r, cache_get_here in Hg by done. simplify_eq.
      rewrite unlink_app_r, unlink_here by done.
      exists (before ++ after), []. split; [done|].
      intros x Hx. by apply elem_of_nil in Hx.
    + destruct Hk' as [?|Hk']; [done|].
      destruct (decide (k' ∈ map fst before)) as [Hin|Hnin].
      * rewrite unlink_app_l by done.
        exists (unlink k' before), (after ++ [(k', v)]).
        split; [by rewrite <- !app_assoc|].
        intros x. rewrite map_app, elem_of_app. simpl.
        intros [? | ->%list_elem_of_singleton]; auto.
      * rewrite unlink_app_r by done. simpl. rewrite decide_False by done.
        exists before, (unlink k' after ++ [(k', v)]).
        split; [by rewrite <- !app_assoc|].
        intros x. rewrite map_app, elem_of_app. simpl.
        intros [Hx | ->%list_elem_of_singleton]; [|done].
        apply Hafter. apply list_elem_of_fmap in Hx as (kv & -> & Hkv).
        apply list_elem_of_fmap. exists kv. split; [done|].
        by apply (unlink_subseteq k').
  - (* the function raised *)
    eauto.
  - (* a new link *)
    apply cache_get_None in Hg. rewrite Hl in Hg.
    rewrite map_app, not_elem_of_app in Hg. simpl in Hg.
    destruct Hg as [Hgb [Hne Hga]%not_elem_of_cons].
    destruct Hk' as [?|Hk']; [done|].
    assert (Hnew : ∀ x, x ∈ map fst (after ++ [(k', v)]) → x ∈ T).
    { intros x. rewrite map_app, elem_of_app. simpl.
      intros [? | ->%list_elem_of_singleton]; auto. }
    destruct (lru_full c) eqn:Hf'; simpl; rewrite Hl.
    + destruct before as [|b before].
      * exfalso. symmetry in Hfull. apply bool_decide_eq_true in Hfull.
        rewrite Hl in Hfull. simpl in Hfull.
        assert (length (k' :: map fst after) ≤ size T) as Hsz.
        { apply size_ge_length.
          - by apply NoDup_cons.
          - intros x [-> | Hx]%elem_of_cons; auto. }
        simpl in Hsz. rewrite length_map in Hsz. lia.
      * simpl. exists before, (after ++ [(k', v)]).
        split; [by rewrite <- !app_assoc|done].
    + exists before, (after ++ [(k', v)]).
      split; [by rewrite <- !app_assoc|done].
Qed.
End lru_survival.

(** ** The composition loop *)

Section composition.
Context `{Collaborators}.
Implicit Types (exts key : list string) (fields : dict FieldDef) (w : World).

Lemma keys_decompose_model m : Dict.keys (decompose_model m) = Dict.keys (cls_fields m).
Proof. unfold decompose_model. apply (DictFacts.keys_map (fun _ => decompose_field)). Qed.

Lemma get_decompose_model x m :
  Dict.get x (decompose_model m) = decompose_field <$> Dict.get x (cls_fields m).
Proof. unfold decompose_model. apply (DictFacts.get_map (fun _ => decompose_field)). Qed.

Lemma extension_fields_known ext m exts fields :
  ext ≠ "checksum" → Extensions_get ext = Some m →
  extension_fields (ext :: exts) fields =
  (ext :: (extension_fields exts (Dict.update fields (decompose_model m))).1,
   (extension_fields exts (Dict.update fields (decompose_model m))).2).
Proof.
  intros Hne Hm. cbn [extension_fields].
  rewrite DictFacts.eqb_ne by done. by rewrite Hm.
Qed.

Lemma extension_fields_unknown ext exts fields :
  ext ≠ "checksum" → Extensions_get ext = None →
  extension_fields (ext :: exts) fields = ([ext], Raise (UnknownExtensionError ext)).
Proof.
  intros Hne Hm. cbn [extension_fields].
  rewrite DictFacts.eqb_ne by done. by rewrite Hm.
Qed.

(** The three ways the head of the sequence is treated. *)
Lemma extension_fields_head ext exts fields :
  (ext = "checksum" ∧
     extension_fields (ext :: exts) fields = extension_fields exts fields) ∨
  (ext ≠ "checksum" ∧ Extensions_get ext = None ∧
     extension_fields (ext :: exts) fields = ([ext], Raise (UnknownExtensionError ext))) ∨
  (exists m, ext ≠ "checksum" ∧ Extensions_get ext = Some m ∧
     extension_fields (ext :: exts) fields =
     (ext :: (extension_fields exts (Dict.update fields (decompose_model m))).1,
      (extension_fields exts (Dict.update fields (decompose_model m))).2)).
Proof.
  destruct (decide (ext = "checksum")) as [->|Hne]; [by left|right].
  destruct (Extensions_get ext) as [m|] eqn:Hm.
  - right. exists m. split_and!; [done..|]. by apply extension_fields_known.
  - left. split_and!; [done..|]. by apply extension_fields_unknown.
Qed.

(** Case analysis on the head of the sequence, rewriting the loop. *)
Ltac head_cases ext exts fields m Hne Hm :=
  let Heq := fresh "Heq" in
  destruct (extension_fields_head ext exts fields)
    as [(-> & Heq)|[(Hne & Hm & Heq)|(m & Hne & Hm & Heq)]]; rewrite Heq; simpl.

(** Dropping the reserved identifier changes neither the fields nor the
    lookups. *)
Lemma extension_fields_filter exts fields :
  extension_fields (filter (λ e, e ≠ "checksum") exts) fields =
  extension_fields exts fields.
Proof.
  revert fields. induction exts as [|ext exts IH]; intros fields; [done|].
  destruct (extension_fields_head ext exts fields)
    as [(-> & Heq)|[(Hne & Hm & Heq)|(m & Hne & Hm & Heq)]]; rewrite Heq.
  - rewrite filter_cons_False by (intros Hc; by apply Hc). apply IH.
  - rewrite filter_cons_True by done. by apply extension_fields_unknown.
  - rewrite filter_cons_True by done.
    rewrite (extension_fields_known _ m) by done. by rewrite IH.
Qed.

(** Every lookup is for an identifier of the sequence other than the
    reserved one. *)
Lemma extension_fields_log exts fields e :
  e ∈ (extension_fields exts fields).1 → e ∈ exts ∧ e ≠ "checksum".
Proof.
  revert fields. induction exts as [|ext exts IH]; intros fields.
  - simpl. intros Hin. by apply elem_of_nil in Hin.
  - head_cases ext exts fields m Hne Hm.
    + intros [? ?]%IH. split; [by apply elem_of_cons; right | done].
    + intros ->%list_elem_of_singleton. split; [by apply elem_of_cons; left | done].
    + intros [->|[? ?]%IH]%elem_of_cons.
      * split; [by apply elem_of_cons; left | done].
      * split; [by apply elem_of_cons; right | done].
Qed.

(** An identifier the registry does not know makes the loop raise. *)
Lemma extension_fields_raise exts fields e :
  e ∈ exts → e ≠ "checksum" → Extensions_get e = None →
  exists e', (extension_fields exts fields).2 = Raise (UnknownExtensionError e') ∧
             e' ∈ exts ∧ e' ≠ "checksum" ∧ Extensions_get e' = None.
Proof.
  intros Hin Hne Hnone. revert fields.
  induction exts as [|ext exts IH]; intros fields; [by apply elem_of_nil in Hin|].
  head_cases ext exts fields m Hne' Hm.
  - apply elem_of_cons in Hin as [->|Hin]; [done|].
    destruct (IH Hin fields) as (e' & ? & ? & ? & ?).
    exists e'. split_and!; [done | by apply elem_of_cons; right | done..].
  - exists ext. split_and!; [done | by apply elem_of_cons; left | done..].
  - apply elem_of_cons in Hin as [->|Hin]; [congruence|].
    destruct (IH Hin (Dict.update fields (decompose_model m))) as (e' & ? & ? & ? & ?).
    exists e'. split_and!; [done | by apply elem_of_cons; right | done..].
Qed.

(** The only exception of the loop is the registry's. *)
Lemma extension_fields_raise_inv exts fields err :
  (extension_fields exts fields).2 = Raise err →
  exists e, err = UnknownExtensionError e ∧ e ∈ exts ∧ e ≠ "checksum" ∧
            Extensions_get e = None.
Proof.
  revert fields. induction exts as [|ext exts IH]; intros fields; [done|].
  head_cases ext exts fields m Hne' Hm.
  - intros (e & ? & ? & ? & ?)%IH.
    exists e. split_and!; [done | by apply elem_of_cons; right | done..].
  - intros [= <-]. exists ext. split_and!; [done | by apply elem_of_cons; left | done..].
  - intros (e & ? & ? & ? & ?)%IH.
    exists e. split_and!; [done | by apply elem_of_cons; right | done..].
Qed.

(** Extensions that do not define [x] leave its definition alone. *)
Lemma extension_fields_untouched x exts fields out :
  (∀ e m, e ∈ exts → e ≠ "checksum" → Extensions_get e = Some m →
          Dict.get x (decompose_model m) = None) →
  (extension_fields exts fields).2 = Ok out →
  Dict.get x out = Dict.get x fields.
Proof.
  revert fields. induction exts as [|ext exts IH]; intros fields Hpost.
  - simpl. by intros [= ->].
  - assert (Hpost' : ∀ e m, e ∈ exts → e ≠ "checksum" → Extensions_get e = Some m →
                            Dict.get x (decompose_model m) = None).
    { intros e m Hin. apply Hpost. by apply elem_of_cons; right. }
    head_cases ext exts fields m Hne' Hm.
    + by apply IH.
    + done.
    + intros Hout. rewrite (IH _ Hpost' Hout).
      apply DictFacts.get_update_None. apply (Hpost ext m); [|done..].
      by apply elem_of_cons; left.
Qed.

(** The definition of [x] in the result is that of the last extension of
    the sequence that defines [x]. *)
Lemma extension_fields_last x pre e post m fd fields out :
  e ≠ "checksum" → Extensions_get e = Some m → wf_model m →
  Dict.get x (decompose_model m) = Some fd →
  (∀ e' m', e' ∈ post → e' ≠ "checksum" → Extensions_get e' = Some m' →
            Dict.get x (decompose_model m') = None) →
  (extension_fields (pre ++ e :: post) fields).2 = Ok out →
  Dict.get x out = Some fd.
Proof.
  intros Hne Hm Hwf Hx Hpost. revert fields.
  induction pre as [|ext pre IH]; intros fields.
  - simpl app. rewrite (extension_fields_known _ m) by done. simpl.
    intros Hout. rewrite (extension_fields_untouched _ _ _ _ Hpost Hout).
    apply DictFacts.get_update_Some; [|done].
    rewrite keys_decompose_model. exact Hwf.
  - rewrite <- app_comm_cons.
    head_cases ext (pre ++ e :: post) fields m' Hne' Hm'.
    + apply IH.
    + done.
    + apply IH.
Qed.
(** The loop keeps the names of the mapping distinct. *)
Lemma extension_fields_NoDup exts fields out :
  NoDup (Dict.keys fields) → (extension_fields exts fields).2 = Ok out →
  NoDup (Dict.keys out).
Proof.
  revert fields. induction exts as [|ext exts IH]; intros fields Hnd.
  - simpl. by intros [= <-].
  - head_cases ext exts fields m Hne' Hm.
    + by apply IH.
    + done.
    + apply IH. by apply DictFacts.NoDup_update.
Qed.
End composition.

(** ** The memoised factory and the worlds it runs in *)

Section factory.
Context `{Collaborators}.
Implicit Types (exts key : list string) (w : World) (res : Model * FieldInfo).

Lemma factory_unfold exts w :
  _extension_model_factory exts w =
  let out := lru_cache_wrapper extension_model exts (factory_cache w) (next_cls w) in
  (out.1.1.1, out.1.1.2, mkWorld out.2 out.1.2).
Proof.
  unfold _extension_model_factory.
  by destruct (lru_cache_wrapper _ _ _ _) as [[[? ?] ?] ?].
Qed.

Lemma factory_wrapper exts w log r w' :
  _extension_model_factory exts w = (log, r, w') ↔
  lru_cache_wrapper extension_model exts (factory_cache w) (next_cls w) =
  (log, r, factory_cache w', next_cls w').
Proof.
  rewrite factory_unfold.
  destruct (lru_cache_wrapper _ _ _ _) as [[[l0 r0] c0] n0]. destruct w' as [n' c']. simpl.
  split; intros; simplify_eq; done.
Qed.

(** The body either raises what the loop raised, or builds one new class
    from the fields the loop collected. *)
Lemma extension_model_cases exts n :
  (exists e, (extension_fields exts []).2 = Raise e ∧
     extension_model exts n = ((extension_fields exts []).1, Raise e, n)) ∨
  (exists fields, (extension_fields exts []).2 = Ok fields ∧
     extension_model exts n =
     ((extension_fields exts []).1,
      Ok (new_model n "CustomItemProperties" ItemProperties None fields,
          Field Ellipsis false None),
      S n)).
Proof.
  unfold extension_model.
  destruct (extension_fields exts []) as [log [fields|e]]; simpl.
  - right. by exists fields.
  - left. by exists e.
Qed.

Lemma entry_sound_mono n n' kv : n ≤ n' → entry_sound n kv → entry_sound n' kv.
Proof.
  intros Hle (fields & id & ? & ? & ?). exists fields, id. split_and!; try done; lia.
Qed.

Lemma extension_model_sound exts n log res n' :
  4 ≤ n → extension_model exts n = (log, Ok res, n') →
  entry_sound n' (exts, res) ∧ n' = S n.
Proof.
  intros Hn Hcall.
  destruct (extension_model_cases exts n) as [(e & _ & Heq)|(fields & Hf & Heq)];
    rewrite Heq in Hcall; simplify_eq.
  split; [|done]. exists fields, n. split_and!; try done; lia.
Qed.

Lemma extension_model_next exts n log r n' :
  extension_model exts n = (log, r, n') → n ≤ n'.
Proof.
  intros Hcall.
  destruct (extension_model_cases exts n) as [(e & _ & Heq)|(fields & Hf & Heq)];
    rewrite Heq in Hcall; simplify_eq; lia.
Qed.

(** Identities are only ever handed out, never taken back. *)
Lemma factory_next exts w log r w' :
  _extension_model_factory exts w = (log, r, w') → next_cls w ≤ next_cls w'.
Proof.
  intros Hcall%factory_wrapper.
  wrapper_inv Hcall v Hg Hf.
  - lia.
  - by eapply extension_model_next.
  - by eapply extension_model_next.
Qed.

Lemma factory_inv exts w log r w' :
  world_inv w → _extension_model_factory exts w = (log, r, w') → world_inv w'.
Proof.
  intros (Hwf & Hsound & Hn) Hcall.
  pose proof (factory_next _ _ _ _ _ Hcall) as Hnext.
  apply factory_wrapper in Hcall. split_and!.
  - by eapply wrapper_wf.
  - apply Forall_forall. intros kv Hin.
    destruct (wrapper_links _ _ _ _ _ _ _ _ Hcall _ Hin) as [Hold|(res & -> & -> & _ & Hf)].
    + eapply entry_sound_mono; [done|]. rewrite Forall_forall in Hsound. by apply Hsound.
    + by apply extension_model_sound in Hf as [? _].
  - lia.
Qed.

(** What a returned result is, and that it is now cached. *)
Lemma factory_ok exts w log res w' :
  world_inv w → _extension_model_factory exts w = (log, Ok res, w') →
  entry_sound (next_cls w') (exts, res) ∧ cached exts w' = Some res.
Proof.
  intros Hinv Hcall.
  pose proof (factory_inv _ _ _ _ _ Hinv Hcall) as (_ & Hsound & _).
  destruct Hinv as (Hwf & _ & _).
  apply factory_wrapper in Hcall.
  pose proof (wrapper_cached _ _ _ _ _ _ _ _ Hwf Hcall) as Hc.
  split; [|done]. rewrite Forall_forall in Hsound. apply Hsound.
  by apply cache_get_elem.
Qed.

(** A cached key is answered from the cache: no lookup, no new class. *)
Lemma factory_hit exts w res :
  cached exts w = Some res →
  exists w', _extension_model_factory exts w = ([], Ok res, w') ∧
             next_cls w' = next_cls w.
Proof.
  intros Hc. rewrite factory_unfold.
  rewrite (wrapper_hit _ _ _ _ _ Hc). simpl. eauto.
Qed.

(** A sequence the loop rejects is never cached, so the call raises and
    the world stays as it was. *)
Lemma factory_raise exts w e :
  world_inv w → (extension_fields exts []).2 = Raise e →
  _extension_model_factory exts w = ((extension_fields exts []).1, Raise e, w).
Proof.
  intros (Hwf & Hsound & Hn) Hraise.
  assert (Hmiss : cache_get exts (lru_links (factory_cache w)) = None).
  { destruct (cache_get exts (lru_links (factory_cache w))) as [res|] eqn:Hg; [|done].
    apply cache_get_elem in Hg. rewrite Forall_forall in Hsound.
    destruct (Hsound _ Hg) as (fields & id & Hok & _). simpl in Hok. congruence. }
  rewrite factory_unfold.
  destruct (extension_model_cases exts (next_cls w)) as [(e' & He' & Heq)|(fields & Hf & _)];
    [|congruence].
  rewrite (wrapper_raise _ _ _ _ _ _ _ Hmiss Heq). simpl.
  replace e' with e by congruence. by destruct w.
Qed.

(** A sequence the loop accepts always gets a schema with the fields the
    loop collected. *)
Lemma factory_returns exts w fields :
  world_inv w → (extension_fields exts []).2 = Ok fields →
  exists log id w',
    _extension_model_factory exts w =
    (log,
     Ok (new_model id "CustomItemProperties" ItemProperties None fields,
         Field Ellipsis false None),
     w') ∧
    (log = [] ∨ log = (extension_fields exts []).1).
Proof.
  intros Hinv Hok.
  destruct (_extension_model_factory exts w) as [[log r] w'] eqn:Hcall.
  pose proof Hcall as Hw%factory_wrapper.
  assert (Hlog : log = [] ∨ log = (extension_fields exts []).1).
  { pose proof Hw as Hw'. wrapper_inv Hw' v Hg Hf; [by left|right..];
      destruct (extension_model_cases exts (next_cls w)) as [(? & _ & Heq')|(? & _ & Heq')];
      rewrite Heq' in Hf; by simplify_eq. }
  destruct r as [res|e].
  - destruct (factory_ok _ _ _ _ _ Hinv Hcall) as [(fields' & id & Hok' & Hres & _) _].
    simpl in Hok', Hres. exists log, id, w'. split; [|done].
    rewrite Hres. do 4 f_equal. congruence.
  - exfalso.
    wrapper_inv Hw v Hg Hf.
    destruct (extension_model_cases exts (next_cls w)) as [(? & ? & Heq')|(? & _ & Heq')];
      rewrite Heq' in Hf; simplify_eq. congruence.
Qed.

(** *** [item_factory] *)

(** The two ways through [item_factory]. *)
Lemma item_factory_base item w :
  truthy (default JNull (Dict.get "stac_extensions" item)) = false →
  item_factory item w =
  ([], Ok (new_model (next_cls w) "CustomStacItem" Item None (decompose_model Item)),
   mkWorld (S (next_cls w)) (factory_cache w)).
Proof. intros Hf. unfold item_factory. by rewrite Hf. Qed.

Lemma item_factory_extended item w key :
  truthy (default JNull (Dict.get "stac_extensions" item)) = true →
  tuple_of (default JNull (Dict.get "stac_extensions" item)) = Ok key →
  item_factory item w =
  match _extension_model_factory key w with
  | (log, Raise e, w') => (log, Raise e, w')
  | (log, Ok props, w') =>
      (log,
       Ok (new_model (next_cls w') "CustomStacItem" Item None
             (Dict.set "properties" (TModel props.1, props.2) (decompose_model Item))),
       mkWorld (S (next_cls w')) (factory_cache w'))
  end.
Proof.
  intros Ht Hk. unfold item_factory. rewrite Ht, Hk.
  by destruct (_extension_model_factory key w) as [[log [props|e]] w'].
Qed.

Lemma world_inv_alloc w :
  world_inv w → world_inv (mkWorld (S (next_cls w)) (factory_cache w)).
Proof.
  intros (Hwf & Hsound & Hn). split_and!; simpl; [done| |lia].
  eapply Forall_impl; [exact Hsound|]. intros kv. apply entry_sound_mono. lia.
Qed.

Lemma item_factory_inv item w :
  world_inv w → world_inv (item_factory item w).2.
Proof.
  intros Hinv. unfold item_factory.
  destruct (truthy _); [|by apply world_inv_alloc].
  destruct (tuple_of _) as [key|e]; [|done].
  destruct (_extension_model_factory key w) as [[log [props|e]] w'] eqn:Hcall;
    pose proof (factory_inv _ _ _ _ _ Hinv Hcall) as Hinv'; simpl; [|done].
  by apply world_inv_alloc.
Qed.

Lemma exec_inv w c : world_inv w → world_inv (exec w c).
Proof.
  intros Hinv. destruct c as [key|item]; simpl.
  - destruct (_extension_model_factory key w) as [[log r] w'] eqn:Hcall.
    by eapply factory_inv.
  - by apply item_factory_inv.
Qed.

Lemma run_inv calls w : world_inv w → world_inv (run calls w).
Proof.
  revert w. induction calls as [|c calls IH]; intros w Hinv; [done|].
  simpl. apply IH. by apply exec_inv.
Qed.

Lemma init_inv : world_inv init.
Proof.
  split_and!; simpl; [|by apply Forall_nil|done].
  split_and!; simpl; [apply NoDup_nil_2 | unfold maxsize; lia | done].
Qed.

Lemma reachable_inv w : reachable w → world_inv w.
Proof. intros [calls ->]. apply run_inv, init_inv. Qed.

Lemma reachable_init : reachable init.
Proof. by exists []. Qed.

End factory.

(** ** Composition and its cache: the statements *)

Section memoisation.
Context `{Collaborators}.
Implicit Types (exts key : list string) (w : World) (res : Model * FieldInfo).

(** C1. For a fixed extension sequence, composing twice gives the same
    cached schema: once a call has returned, the next call with the same
    sequence returns the very same class object without a registry lookup
    and without building a class, and any later call with that sequence,
    whatever was called in between, returns a schema equal to it. *)
Theorem extension_model_factory_memoized w exts log res w1 :
  reachable w →
  _extension_model_factory exts w = (log, Ok res, w1) →
  (exists w2, _extension_model_factory exts w1 = ([], Ok res, w2) ∧
              next_cls w2 = next_cls w1) ∧
  (∀ calls, exists log' res' w',
      _extension_model_factory exts (run calls w1) = (log', Ok res', w') ∧
      same_schema res res').
Proof.
  intros Hinv%reachable_inv Hcall.
  destruct (factory_ok _ _ _ _ _ Hinv Hcall) as [(fields & id & Hok & Hres & _) Hc].
  simpl in Hok, Hres. split.
  - by apply factory_hit.
  - intros calls.
    assert (Hinv' : world_inv (run calls w1)).
    { apply run_inv. by eapply factory_inv. }
    destruct (factory_returns _ _ _ Hinv' Hok) as (log' & id' & w' & Heq & _).
    eexists _, _, _. split; [exact Heq|]. by rewrite Hres.
Qed.

(** C5. The reserved identifier "checksum" is a no-op: composing a
    sequence and composing it with every "checksum" removed give the same
    outcome (equal schemas, or the same exception), and no call ever looks
    "checksum" up in the registry. *)
Theorem checksum_is_noop w exts :
  reachable w →
  same_outcome
    (_extension_model_factory exts w).1.2
    (_extension_model_factory (filter (λ e, e ≠ "checksum") exts) w).1.2 ∧
  "checksum" ∉ (_extension_model_factory exts w).1.1.
Proof.
  intros Hinv%reachable_inv.
  pose proof (extension_fields_filter exts []) as Hfilter.
  split.
  - destruct (extension_fields exts []) as [lg [fields|e]] eqn:Hloop.
    + destruct (factory_returns exts w fields Hinv) as (log & id & w' & -> & _);
        [by rewrite Hloop|].
      destruct (factory_returns (filter (λ e, e ≠ "checksum") exts) w fields Hinv)
        as (log' & id' & w'' & -> & _); [by rewrite Hfilter|].
      done.
    + rewrite (factory_raise exts w e Hinv) by (by rewrite Hloop).
      rewrite (factory_raise _ w e Hinv) by (by rewrite Hfilter).
      done.
  - destruct (_extension_model_factory exts w) as [[log r] w'] eqn:Hcall. simpl.
    assert (Hlog : log = [] ∨ log = (extension_fields exts []).1).
    { destruct (extension_fields exts []) as [lg [fields|e]] eqn:Hloop.
      - destruct (factory_returns exts w fields Hinv) as (log' & id & w'' & Heq & Hl);
          [by rewrite Hloop|].
        rewrite Hloop in Hl. congruence.
      - rewrite (factory_raise exts w e Hinv) in Hcall by (by rewrite Hloop).
        right. rewrite Hloop in Hcall. by simplify_eq. }
    destruct Hlog as [->| ->]; [apply not_elem_of_nil|].
    intros [_ Hne]%extension_fields_log. done.
Qed.

(** C6. A sequence with an identifier the registry does not know (other
    than "checksum") makes composition fail with UnknownExtensionError for
    an unregistered identifier of the sequence, and leaves the world, the
    cache included, exactly as it was; so every later request gets what it
    would have got had the failed one not been made. *)
Theorem unknown_extension_raises w exts e :
  reachable w →
  e ∈ exts → e ≠ "checksum" → Extensions_get e = None →
  exists log e',
    _extension_model_factory exts w = (log, Raise (UnknownExtensionError e'), w) ∧
    e' ∈ exts ∧ Extensions_get e' = None ∧
    ∀ exts', _extension_model_factory exts' (_extension_model_factory exts w).2 =
             _extension_model_factory exts' w.
Proof.
  intros Hinv%reachable_inv Hin Hne Hnone.
  destruct (extension_fields_raise exts [] e Hin Hne Hnone) as (e' & Hraise & Hin' & _ & Hnone').
  pose proof (factory_raise exts w _ Hinv Hraise) as Hcall.
  exists (extension_fields exts []).1, e'. split_and!; [done..|].
  intros exts'. by rewrite Hcall.
Qed.
End memoisation.

Section collisions_and_eviction.
Context `{Collaborators}.
Implicit Types (exts key : list string) (w : World) (res : Model * FieldInfo).

Lemma new_model_fields id name base config defs :
  cls_fields (new_model id name base config defs) =
  Dict.update (cls_fields base) (map (fun nd => (nd.1, infer nd.1 nd.2)) defs).
Proof. done. Qed.

(** A field a class body defines once is the class's field of that name. *)
Lemma new_model_get id name base config defs x fd :
  NoDup (Dict.keys defs) → Dict.get x defs = Some fd →
  Dict.get x (cls_fields (new_model id name base config defs)) = Some (infer x fd).
Proof.
  intros Hnd Hx. rewrite new_model_fields.
  apply DictFacts.get_update_Some.
  - by rewrite (DictFacts.keys_map infer).
  - by rewrite (DictFacts.get_map infer), Hx.
Qed.

(** Whatever the registry, the field [x] of the composed schema is the
    definition of the last extension of the sequence that has one. *)
Lemma last_extension_wins w pre e post m f x log res w' :
  reachable w →
  e ≠ "checksum" → Extensions_get e = Some m → wf_model m →
  Dict.get x (cls_fields m) = Some f →
  (∀ e' m', e' ∈ post → e' ≠ "checksum" → Extensions_get e' = Some m' →
            Dict.get x (cls_fields m') = None) →
  _extension_model_factory (pre ++ e :: post) w = (log, Ok res, w') →
  Dict.get x (cls_fields res.1) = Some (infer x (decompose_field f)).
Proof.
  intros Hinv%reachable_inv Hne Hm Hwf Hx Hpost Hcall.
  destruct (factory_ok _ _ _ _ _ Hinv Hcall) as [(fields & id & Hok & Hres & _) _].
  simpl in Hok, Hres. rewrite Hres. simpl fst.
  apply new_model_get.
  - eapply extension_fields_NoDup; [|exact Hok]. apply NoDup_nil_2.
  - eapply extension_fields_last; [exact Hne | exact Hm | exact Hwf | | | exact Hok].
    + by rewrite get_decompose_model, Hx.
    + intros e' m' Hin Hne' Hm'. rewrite get_decompose_model.
      by rewrite (Hpost e' m' Hin Hne' Hm').
Qed.

(** The cache is keyed by the literal sequence: a call never fills the
    entry of another sequence. *)
Lemma other_sequence_not_cached w key key' log r w' :
  key' ≠ key →
  _extension_model_factory key w = (log, r, w') →
  cached key' w = None → cached key' w' = None.
Proof.
  intros Hne Hcall%factory_wrapper Hc.
  by eapply wrapper_other_key.
Qed.

(** One call keeps the link of [key] while the keys asked for stay within
    fewer than [maxsize] others. *)
Lemma exec_keeps (T : gset (list string)) key res c w before after :
  size T < maxsize →
  (∀ k, requested_key c = Some k → k = key ∨ k ∈ T) →
  world_inv w →
  lru_links (factory_cache w) = before ++ (key, res) :: after →
  (∀ x, x ∈ map fst after → x ∈ T) →
  exists before' after',
    lru_links (factory_cache (exec w c)) = before' ++ (key, res) :: after' ∧
    (∀ x, x ∈ map fst after' → x ∈ T).
Proof.
  intros HT Hreq Hinv Hl Hafter.
  assert (Hstep : ∀ k, k = key ∨ k ∈ T →
    exists before' after',
      lru_links (factory_cache (_extension_model_factory k w).2) =
      before' ++ (key, res) :: after' ∧
      (∀ x, x ∈ map fst after' → x ∈ T)).
  { intros k Hk.
    destruct (_extension_model_factory k w) as [[log r] w'] eqn:Hcall. simpl.
    apply factory_wrapper in Hcall. destruct Hinv as (Hwf & _ & _).
    by eapply (wrapper_keeps extension_model T key res k). }
  destruct c as [k|item]; simpl.
  - apply Hstep. by apply Hreq.
  - simpl in Hreq. unfold declared_extensions in Hreq. unfold item_factory.
    destruct (truthy _); [|simpl; eauto].
    destruct (tuple_of _) as [k|e]; [|simpl; eauto].
    destruct (Hstep k (Hreq k eq_refl)) as (before' & after' & Hl' & Hafter').
    destruct (_extension_model_factory k w) as [[log [props|e]] w']; simpl in *; eauto.
Qed.

Lemma cached_survives (T : gset (list string)) key res calls :
  size T < maxsize →
  (∀ c k, c ∈ calls → requested_key c = Some k → k = key ∨ k ∈ T) →
  ∀ w before after,
    world_inv w →
    lru_links (factory_cache w) = before ++ (key, res) :: after →
    (∀ x, x ∈ map fst after → x ∈ T) →
    cached key (run calls w) = Some res.
Proof.
  intros HT. induction calls as [|c calls IH]; intros Hkeys w before after Hinv Hl Hafter.
  - simpl. unfold cached. rewrite Hl.
    destruct Hinv as ((Hnd & _ & _) & _ & _).
    unfold lru_keys in Hnd. rewrite Hl, map_app in Hnd.
    apply NoDup_app in Hnd as (_ & Hdis & _).
    rewrite cache_get_app_r; [apply cache_get_here|].
    intros Hin. apply (Hdis _ Hin). simpl. apply elem_of_cons. by left.
  - simpl.
    destruct (exec_keeps T key res c w before after HT) as (before' & after' & Hl' & Hafter');
      [|done..|].
    { intros k. apply Hkeys. apply elem_of_cons. by left. }
    eapply IH; [| by apply exec_inv | exact Hl' | exact Hafter'].
    intros c' k Hc'. apply Hkeys. apply elem_of_cons. by right.
Qed.

(** C3, as the code has it.  The cache is a least-recently-used cache of
    128 entries: a schema returned for a sequence stays cached as long as
    the calls that follow ask for fewer than 128 distinct other
    sequences, and the cache never holds more than 128 entries. *)
Theorem cache_entry_survives w key log res w1 calls :
  reachable w →
  _extension_model_factory key w = (log, Ok res, w1) →
  size (list_to_set (filter (λ k, k ≠ key) (omap requested_key calls))
        : gset (list string)) < maxsize →
  cached key (run calls w1) = Some res ∧
  length (lru_links (factory_cache (run calls w1))) ≤ maxsize.
Proof.
  intros Hinv%reachable_inv Hcall Hsize.
  pose proof (factory_inv _ _ _ _ _ Hinv Hcall) as Hinv1.
  split.
  - pose proof Hcall as Hw%factory_wrapper.
    destruct (wrapper_newest _ _ _ _ _ _ _ _ Hw) as (l & Hl).
    eapply (cached_survives _ key res calls Hsize); [| exact Hinv1 | exact Hl |].
    + intros c k Hc Hk. destruct (decide (k = key)) as [->|Hne]; [by left|right].
      apply elem_of_list_to_set. apply list_elem_of_filter. split; [done|].
      apply list_elem_of_omap. by exists c.
    + intros x Hx. by apply elem_of_nil in Hx.
  - pose proof (run_inv calls _ Hinv1) as ((_ & Hlen & _) & _ & _). done.
Qed.
End collisions_and_eviction.

(** C2. When two extensions of the sequence define a field of the same
    name, the composed schema has the definition of the last one applied,
    whatever the registry; the cache is keyed by the literal sequence, so a
    call fills no entry but that of its own sequence; and the order can
    decide the winner: with two extensions "a" and "b" that both define
    [x], composing ["a"; "b"] and then ["b"; "a"] in one process composes
    twice and gives two schemas whose [x] differ. *)
Theorem collision_last_write_wins :
  (∀ (C : Collaborators) w pre e post m f x log res w',
      reachable w →
      e ≠ "checksum" → Extensions_get e = Some m → wf_model m →
      Dict.get x (cls_fields m) = Some f →
      (∀ e' m', e' ∈ post → e' ≠ "checksum" → Extensions_get e' = Some m' →
                Dict.get x (cls_fields m') = None) →
      _extension_model_factory (pre ++ e :: post) w = (log, Ok res, w') →
      Dict.get x (cls_fields res.1) = Some (infer x (decompose_field f))) ∧
  (∀ (C : Collaborators) w key key' log r w',
      key' ≠ key →
      _extension_model_factory key w = (log, r, w') →
      cached key' w = None → cached key' w' = None) ∧
  (exists (C : Collaborators) ab ba w1 w2,
      _extension_model_factory ["a"; "b"] init = (["a"; "b"], Ok ab, w1) ∧
      _extension_model_factory ["b"; "a"] w1 = (["b"; "a"], Ok ba, w2) ∧
      Dict.get "x" (cls_fields ab.1) = Dict.get "x" (cls_fields ext_b) ∧
      Dict.get "x" (cls_fields ba.1) = Dict.get "x" (cls_fields ext_a) ∧
      Dict.get "x" (cls_fields ab.1) ≠ Dict.get "x" (cls_fields ba.1)).
Proof.
  split_and!.
  - intros C. apply @last_extension_wins.
  - intros C. apply @other_sequence_not_cached.
  - exists sample. eexists _, _, _, _.
    split_and!; [vm_compute; reflexivity | vm_compute; reflexivity | done | done | done].
Qed.

(** ** Validation *)

(** [str()] of a number never has a dot in it, so a dotted version string
    is not the text of a number. *)
Lemma string_of_uint_no_dot d :
  "."%char ∉ String.list_ascii_of_string (NilEmpty.string_of_uint d).
Proof.
  induction d; simpl; rewrite ?not_elem_of_cons;
    first [apply not_elem_of_nil | split; [discriminate | assumption]].
Qed.

Lemma str_of_int_no_dot z : ¬ dotted (str_of_int z).
Proof.
  unfold dotted, str_of_int, NilZero.string_of_int, NilZero.string_of_uint.
  destruct (Z.to_int z) as [d|d]; destruct d; simpl; rewrite ?not_elem_of_cons;
    repeat first [apply not_elem_of_nil | apply string_of_uint_no_dot
                 | split; [discriminate|]].
Qed.

Lemma str_validator_dotted v s version :
  dotted version → v ≠ JStr version → str_validator v = Some (PStr s) → s ≠ version.
Proof.
  intros Hdot Hne Hv ->. destruct v as [|b|z|s| |]; simpl in Hv; simplify_eq.
  - destruct b; vm_compute in Hdot;
      repeat (apply elem_of_cons in Hdot as [Hdot|Hdot]; [discriminate|]);
      by apply elem_of_nil in Hdot.
  - by apply (str_of_int_no_dot z).
Qed.

Lemma str_validator_str v x : str_validator v = Some x → exists s, x = PStr s.
Proof. destruct v; simpl; intros; simplify_eq; eauto. Qed.

Section validation_facts.
Variable validate_type : PyType → json → option pyval.
Variable check_extra : bool.
Variable input_data : dict json.
Implicit Types (st : validation) (nf : string * ModelField)
  (l : list (string * ModelField)) (x n : string).

Local Abbreviation step := (validate_step validate_type check_extra input_data).

(** What one turn does, by the three ways it can go. *)
Lemma step_cases st nf :
  (Dict.get (mf_alias nf.2) input_data = None ∧ mf_required nf.2 = true ∧
     step st nf = mkValidation (values st) (fields_set st) (names_used st)
                    (errors st ++ [(mf_alias nf.2, MissingError)])) ∨
  (Dict.get (mf_alias nf.2) input_data = None ∧ mf_required nf.2 = false ∧
     step st nf = mkValidation (Dict.set nf.1 (of_json (mf_default nf.2)) (values st))
                    (fields_set st) (names_used st) (errors st)) ∨
  (exists value e, Dict.get (mf_alias nf.2) input_data = Some value ∧
     validate_field validate_type nf.2 value = inl e ∧
     step st nf = mkValidation (values st) ({[nf.1]} ∪ fields_set st)
                    (if check_extra then {[mf_alias nf.2]} ∪ names_used st
                     else names_used st)
                    (errors st ++ [(mf_alias nf.2, e)])) ∨
  (exists value v_, Dict.get (mf_alias nf.2) input_data = Some value ∧
     validate_field validate_type nf.2 value = inr v_ ∧
     step st nf = mkValidation (Dict.set nf.1 v_ (values st)) ({[nf.1]} ∪ fields_set st)
                    (if check_extra then {[mf_alias nf.2]} ∪ names_used st
                     else names_used st)
                    (errors st)).
Proof.
  unfold validate_step.
  destruct (Dict.get (mf_alias nf.2) input_data) as [value|] eqn:Hg.
  - right; right. destruct (validate_field validate_type nf.2 value) as [e|v_] eqn:Hv.
    + left. by exists value, e.
    + right. by exists value, v_.
  - destruct (mf_required nf.2); [by left | right; by left].
Qed.

(** Case analysis on one turn, rewriting the state it gives; the second
    form keeps the lookup of the alias. *)
Ltac step_rewrite_with st nf Hg :=
  destruct (step_cases st nf) as
    [(Hg & _ & ->)|[(Hg & _ & ->)|[(? & ? & Hg & _ & ->)|(? & ? & Hg & _ & ->)]]]; simpl.

Ltac step_rewrite st nf :=
  let Hg := fresh in step_rewrite_with st nf Hg; clear Hg.

Lemma step_errors st nf : exists es, errors (step st nf) = errors st ++ es.
Proof.
  step_rewrite st nf;
    eauto using app_nil_r.
  all: exists []; by rewrite app_nil_r.
Qed.

Lemma fold_errors l st : exists es, errors (fold_left step l st) = errors st ++ es.
Proof.
  revert st. induction l as [|nf l IH]; intros st; simpl.
  - exists []. by rewrite app_nil_r.
  - destruct (IH (step st nf)) as (es & ->). destruct (step_errors st nf) as (es' & ->).
    exists (es' ++ es). by rewrite app_assoc.
Qed.

Lemma fold_errors_nil l st : errors (fold_left step l st) = [] → errors st = [].
Proof.
  destruct (fold_errors l st) as (es & ->). by intros [? _]%app_eq_nil.
Qed.

Lemma step_fields_set st nf x :
  x ∈ fields_set (step st nf) ↔
  x ∈ fields_set st ∨ (x = nf.1 ∧ is_Some (Dict.get (mf_alias nf.2) input_data)).
Proof.
  step_rewrite_with st nf Hg;
    rewrite Hg; rewrite ?elem_of_union, ?elem_of_singleton;
    split; try tauto; try (intros [?|[_ [? ?]]]; [done|discriminate]).
  all: intros [?|?]; [right; split; [done|eauto] | by left].
Qed.

Lemma fold_fields_set l st x :
  x ∈ fields_set (fold_left step l st) ↔
  x ∈ fields_set st ∨
  (exists f, (x, f) ∈ l ∧ is_Some (Dict.get (mf_alias f) input_data)).
Proof.
  revert st. induction l as [|[n f] l IH]; intros st; simpl.
  - split; [by left|]. intros [?|(f & Hin & _)]; [done|]. by apply elem_of_nil in Hin.
  - rewrite IH, step_fields_set. simpl. split.
    + intros [[?|[-> ?]]|(f' & Hin & ?)]; [by left | right..].
      * exists f. split; [by apply elem_of_cons; left | done].
      * exists f'. split; [by apply elem_of_cons; right | done].
    + intros [?|(f' & [Heq|Hin]%elem_of_cons & ?)].
      * by left; left.
      * simplify_eq. by left; right.
      * right. by exists f'.
Qed.

Lemma step_names_used st nf x :
  x ∈ names_used (step st nf) ↔
  x ∈ names_used st ∨
  (check_extra = true ∧ x = mf_alias nf.2 ∧ is_Some (Dict.get x input_data)).
Proof.
  step_rewrite_with st nf Hg.
  1,2: split; [by left|]; intros [?|(_ & -> & [? ?])]; [done|congruence].
  all: destruct check_extra; rewrite ?elem_of_union, ?elem_of_singleton; split;
    [ intros [->|?]; [right; rewrite Hg; eauto | by left]
    | intros [?|(_ & -> & _)]; [by right | by left]
    | by left
    | intros [?|(? & _)]; [done | discriminate] ].
Qed.

Lemma fold_names_used l st x :
  x ∈ names_used (fold_left step l st) ↔
  x ∈ names_used st ∨
  (check_extra = true ∧ x ∈ map (λ nf, mf_alias nf.2) l ∧
   is_Some (Dict.get x input_data)).
Proof.
  revert st. induction l as [|nf l IH]; intros st; simpl.
  - split; [by left|]. intros [?|(_ & Hin & _)]; [done|]. by apply elem_of_nil in Hin.
  - rewrite IH, step_names_used, elem_of_cons. tauto.
Qed.


Lemma step_values_NoDup st nf :
  NoDup (Dict.keys (values st)) → NoDup (Dict.keys (values (step st nf))).
Proof.
  step_rewrite st nf;
    auto using DictFacts.NoDup_set.
Qed.



Lemma fold_values_NoDup l st :
  NoDup (Dict.keys (values st)) → NoDup (Dict.keys (values (fold_left step l st))).
Proof.
  revert st. induction l as [|nf l IH]; intros st; simpl; [done|].
  intros. by apply IH, step_values_NoDup.
Qed.

End validation_facts.

(** *** The whole of [validate_model], and the export that follows it *)

Lemma get_update_unique {V : Type} k (v : V) (d other : dict V) :
  (∀ v', (k, v') ∈ other → v' = v) → k ∈ Dict.keys other →
  Dict.get k (Dict.update d other) = Some v.
Proof.
  revert d. induction other as [|[k0 v0] other IH]; intros d Hall Hin.
  - by apply elem_of_nil in Hin.
  - rewrite DictFacts.update_cons.
    destruct (decide (k ∈ Dict.keys other)) as [Hk|Hk].
    + apply IH; [|done]. intros v' Hv'. apply Hall. by apply elem_of_cons; right.
    + apply elem_of_cons in Hin as [Heq|?]; [|done]. simpl in Heq. subst k0.
      rewrite DictFacts.get_update_None by (by apply DictFacts.get_None).
      rewrite DictFacts.get_set_eq. f_equal. apply Hall.
      by apply elem_of_cons; left.
Qed.

Lemma extra_keys_elem (input_data : dict json) (used : gset string) x :
  x ∈ extra_keys input_data used ↔ x ∈ Dict.keys input_data ∧ x ∉ used.
Proof. unfold extra_keys. rewrite list_elem_of_filter. tauto. Qed.

Section extras.
Variable input_data : dict json.
Implicit Types (st : validation) (ks : list string) (vals : dict pyval).

Local Abbreviation keep :=
  (λ vals f, match Dict.get f input_data with
             | Some x => Dict.set f (of_json x) vals
             | None => vals
             end).

Lemma keep_get ks vals n :
  n ∉ ks → Dict.get n (fold_left keep ks vals) = Dict.get n vals.
Proof.
  revert vals. induction ks as [|k ks IH]; intros vals; simpl; [done|].
  intros [Hne Hn]%not_elem_of_cons. rewrite IH by done.
  destruct (Dict.get k input_data); [|done]. apply DictFacts.get_set_ne. congruence.
Qed.

Lemma keep_NoDup ks vals :
  NoDup (Dict.keys vals) → NoDup (Dict.keys (fold_left keep ks vals)).
Proof.
  revert vals. induction ks as [|k ks IH]; intros vals; simpl; [done|].
  intros Hnd. apply IH. destruct (Dict.get k input_data); [|done].
  by apply DictFacts.NoDup_set.
Qed.

Lemma extra_errors_nil extra st :
  errors (validate_extra extra input_data st) = [] → errors st = [].
Proof. destruct extra; simpl; [done..|]. by intros [? _]%app_eq_nil. Qed.

Lemma extra_errors_grow extra st :
  exists es, errors (validate_extra extra input_data st) = errors st ++ es.
Proof. destruct extra; simpl; eauto; exists []; by rewrite app_nil_r. Qed.

Lemma extra_errors_lenient extra st :
  extra ≠ ExtraForbid → errors (validate_extra extra input_data st) = errors st.
Proof. by destruct extra. Qed.

Lemma extra_fields_set extra st x :
  x ∈ fields_set (validate_extra extra input_data st) →
  x ∈ fields_set st ∨ (x ∈ Dict.keys input_data ∧ x ∉ names_used st).
Proof.
  destruct extra; simpl; [by left|..];
    rewrite elem_of_union, elem_of_list_to_set, extra_keys_elem; tauto.
Qed.

Lemma extra_fields_set_mono extra st x :
  x ∈ fields_set st → x ∈ fields_set (validate_extra extra input_data st).
Proof. destruct extra; simpl; [done|..]; rewrite elem_of_union; tauto. Qed.

Lemma extra_values_get extra st n :
  n ∈ names_used st ∨ n ∉ Dict.keys input_data →
  Dict.get n (values (validate_extra extra input_data st)) = Dict.get n (values st).
Proof.
  intros Hn. destruct extra; simpl; [done| |done].
  apply keep_get. rewrite extra_keys_elem. tauto.
Qed.

Lemma extra_values_NoDup extra st :
  NoDup (Dict.keys (values st)) →
  NoDup (Dict.keys (values (validate_extra extra input_data st))).
Proof. destruct extra; simpl; [done| |done]. apply keep_NoDup. Qed.

End extras.

Section model_facts.
Variable validate_type : PyType → json → option pyval.
Implicit Types (m : Model) (raw : dict json) (i : instance).

Local Abbreviation check_extra m :=
  (match cls_extra m with ExtraIgnore => false | _ => true end).

Lemma construct_Ok m raw i :
  construct validate_type m raw = Ok i ↔
  errors (validate_model validate_type m raw) = [] ∧
  i = mkInstance m (values (validate_model validate_type m raw))
        (fields_set (validate_model validate_type m raw)).
Proof.
  unfold construct. destruct (errors _); split; [by intros [= <-] | by intros [_ ->] |
    done | by intros [? _]].
Qed.

Lemma construct_Raise m raw :
  errors (validate_model validate_type m raw) ≠ [] →
  construct validate_type m raw =
  Raise (ValidationError (errors (validate_model validate_type m raw))).
Proof. unfold construct. by destruct (errors _). Qed.

(** One rejected field rejects the document. *)
Lemma validate_model_rejects m raw n f value e :
  Dict.get n (cls_fields m) = Some f →
  Dict.get (mf_alias f) raw = Some value →
  validate_field validate_type f value = inl e →
  (mf_alias f, e) ∈ errors (validate_model validate_type m raw).
Proof.
  intros Hf Hraw Hv. apply DictFacts.get_Some_elem in Hf.
  apply list_elem_of_split in Hf as (l1 & l2 & Hl).
  unfold validate_model. rewrite Hl, fold_left_app.
  set (st := fold_left _ l1 _).
  change (fold_left ?s ((n, f) :: l2) st) with (fold_left s l2 (s st (n, f))).
  destruct (extra_errors_grow raw (cls_extra m)
              (fold_left (validate_step validate_type (check_extra m) raw) l2
                 (validate_step validate_type (check_extra m) raw st (n, f))))
    as (es2 & ->).
  destruct (fold_errors validate_type (check_extra m) raw l2
              (validate_step validate_type (check_extra m) raw st (n, f)))
    as (es1 & ->).
  destruct (step_cases validate_type (check_extra m) raw st (n, f)) as
    [(Hg & _)|[(Hg & _)|[(? & e' & Hg & Hv' & Heq)|(? & ? & Hg & Hv' & _)]]];
    simpl in *; simplify_eq; [|congruence].
  assert (e' = e) as -> by congruence.
  rewrite Heq. simpl. rewrite !elem_of_app, list_elem_of_singleton. tauto.
Qed.

(** The value a supplied field ends up with. *)
Lemma fold_value_get ce raw l st n f value :
  NoDup (Dict.keys l) → (n, f) ∈ l →
  Dict.get (mf_alias f) raw = Some value →
  errors (fold_left (validate_step validate_type ce raw) l st) = [] →
  exists v_, validate_field validate_type f value = inr v_ ∧
             Dict.get n (values (fold_left (validate_step validate_type ce raw) l st)) =
             Some v_.
Proof.
  revert st. induction l as [|[n0 f0] l IH]; intros st Hnd Hin Hraw Herr.
  - by apply elem_of_nil in Hin.
  - simpl in Hnd. apply NoDup_cons in Hnd as [Hn0 Hnd].
    apply elem_of_cons in Hin as [Heq|Hin]; [|by eapply IH].
    injection Heq as <- <-. simpl in Herr |- *.
    pose proof (fold_errors_nil _ _ _ _ _ Herr) as Herr0.
    destruct (step_cases validate_type ce raw st (n, f)) as
      [(Hg & _)|[(Hg & _)|[(? & e' & Hg & Hv' & Heq)|(? & v_ & Hg & Hv' & Heq)]]];
      simpl in *; simplify_eq.
    + rewrite Heq in Herr0. simpl in Herr0. by apply app_eq_nil in Herr0 as [_ ?].
    + exists v_. split; [done|].
      assert (Hfold : ∀ l' st', n ∉ Dict.keys l' →
        Dict.get n (values (fold_left (validate_step validate_type ce raw) l' st')) =
        Dict.get n (values st')).
      { clear. induction l' as [|nf l' IH]; intros st'; simpl; [done|].
        intros [Hne Hn]%not_elem_of_cons. rewrite IH by done.
        destruct (step_cases validate_type ce raw st' nf) as
          [(_ & _ & ->)|[(_ & _ & ->)|[(? & ? & _ & _ & ->)|(? & ? & _ & _ & ->)]]];
          simpl; rewrite ?DictFacts.get_set_ne by congruence; done. }
      rewrite Hfold by done. rewrite Heq. simpl. apply DictFacts.get_set_eq.
Qed.

(** The keys of an export under [by_alias] and [exclude_unset]. *)
Lemma to_dict_keys i k :
  k ∈ Dict.keys (to_dict i) ↔
  exists n, n ∈ Dict.keys (inst_dict i) ∧ n ∈ inst_fields_set i ∧
            dict_key true (inst_cls i) n = k.
Proof.
  unfold to_dict, model_dict. rewrite DictFacts.keys_dict_of_pairs.
  unfold Dict.keys, iter_with. rewrite list_elem_of_fmap. split.
  - intros ([k' y] & -> & Hin). apply list_elem_of_omap in Hin as ([n x] & Hin & Hf).
    simpl in Hf. destruct (bool_decide (n ∈ inst_fields_set i)) eqn:Hb; simpl in Hf;
      [|done]. apply bool_decide_eq_true in Hb. simplify_eq.
    exists n. split_and!; [|done..]. apply list_elem_of_fmap. by exists (n, x).
  - intros (n & Hn & Hset & <-). apply list_elem_of_fmap in Hn as ([n' x] & -> & Hin).
    eexists (_, _). split; [done|]. apply list_elem_of_omap.
    exists (n', x). split; [done|]. simpl. by rewrite bool_decide_eq_true_2.
Qed.

(** The value an export gives a key that one entry alone is emitted
    under. *)
Lemma to_dict_get i n x k :
  NoDup (Dict.keys (inst_dict i)) →
  Dict.get n (inst_dict i) = Some x → n ∈ inst_fields_set i →
  dict_key true (inst_cls i) n = k →
  (∀ n', n' ∈ Dict.keys (inst_dict i) → dict_key true (inst_cls i) n' = k → n' = n) →
  Dict.get k (to_dict i) = Some (get_value true true x).
Proof.
  intros Hnd Hx Hset Hk Huniq. unfold to_dict, model_dict, dict_of_pairs.
  apply get_update_unique.
  - intros v' Hin. unfold iter_with in Hin.
    apply list_elem_of_omap in Hin as ([n' x'] & Hin & Hf). simpl in Hf.
    destruct (bool_decide (n' ∈ inst_fields_set i)); simpl in Hf; [|done].
    simplify_eq. assert (n' = n) as ->.
    { apply Huniq; [|done]. apply list_elem_of_fmap. by exists (n', x'). }
    apply (DictFacts.elem_get _ _ _ Hnd) in Hin. congruence.
  - rewrite <- DictFacts.keys_dict_of_pairs. apply (to_dict_keys i k).
    exists n. split_and!; [|done..].
    by apply DictFacts.get_is_Some.
Qed.
End model_facts.

(** Two inputs that agree on every alias get the same reports from the
    loop. *)
Lemma fold_errors_agree vt ce ce' raw raw' l st st' :
  (∀ a, a ∈ map (λ nf : string * ModelField, mf_alias nf.2) l →
        Dict.get a raw' = Dict.get a raw) →
  errors st' = errors st →
  errors (fold_left (validate_step vt ce' raw') l st') =
  errors (fold_left (validate_step vt ce raw) l st).
Proof.
  revert st st'. induction l as [|nf l IH]; intros st st' Hagree Herr; simpl; [done|].
  apply IH.
  - intros a Ha. apply Hagree. simpl. by apply elem_of_cons; right.
  - assert (Dict.get (mf_alias nf.2) raw' = Dict.get (mf_alias nf.2) raw) as Hg.
    { apply Hagree. simpl. by apply elem_of_cons; left. }
    unfold validate_step. rewrite Hg.
    destruct (Dict.get (mf_alias nf.2) raw); [|destruct (mf_required nf.2)]; simpl;
      [destruct (validate_field vt nf.2 j)|..]; simpl; congruence.
Qed.

(** ** The record classes: the statements *)

Lemma elem_set {V : Type} k (v : V) d kv :
  kv ∈ Dict.set k v d → kv ∈ d ∨ kv = (k, v).
Proof.
  induction d as [|[k' v'] d IH]; simpl.
  - intros ->%list_elem_of_singleton. by right.
  - destruct (String.eqb k k').
    + rewrite !elem_of_cons. tauto.
    + rewrite !elem_of_cons. intros [?|?%IH]; tauto.
Qed.

Lemma elem_update {V : Type} (d other : dict V) kv :
  kv ∈ Dict.update d other → kv ∈ d ∨ kv ∈ other.
Proof.
  revert d. induction other as [|[k v] other IH]; intros d; [by left|].
  rewrite DictFacts.update_cons, elem_of_cons. intros [[?|?]%elem_set|?]%IH; tauto.
Qed.

Section version_constant.
Variable validate_other : string → json → option pyval.

(** A value that is not the version string is never accepted for it: a
    string fails the comparison, a number is converted to a text without a
    dot and then fails it, anything else is no [str]. *)
Lemma version_field_rejects version v :
  dotted version → v ≠ JStr version →
  exists e, validate_field (validate_type validate_other) (version_field version) v = inl e.
Proof.
  intros Hdot Hne. unfold validate_field, version_field.
  destruct (str_validator v) as [x|] eqn:Hv.
  - destruct (str_validator_str _ _ Hv) as (s & ->).
    pose proof (str_validator_dotted _ _ _ Hdot Hne Hv) as Hs.
    exists ConstError. destruct v; try done; simpl in Hv |- *; simplify_eq;
      unfold constant_validator, py_eqb; simpl; by rewrite DictFacts.eqb_ne.
  - destruct v; try done; simpl in Hv |- *; eauto.
Qed.

Lemma version_field_accepts version v x :
  validate_field (validate_type validate_other) (version_field version) v = inr x →
  x = PStr version.
Proof.
  unfold validate_field, version_field.
  destruct v as [|b|z|s|l|d]; simpl; try done.
  all: unfold constant_validator, py_eqb; simpl.
  all: match goal with
       | |- context [String.eqb ?s ?ver] =>
           destruct (String.eqb_spec s ver) as [->|]; simpl; [|done];
           by intros [= <-]
       end.
Qed.

(** What a class with the version field exports under [stac_version]. *)
Lemma version_export m version raw i :
  wf_model m →
  Dict.get "stac_version" (cls_fields m) = Some (version_field version) →
  (∀ n f, (n, f) ∈ cls_fields m → mf_alias f = "stac_version" → n = "stac_version") →
  validate validate_other m raw = Ok i →
  Dict.get "stac_version" (to_dict i) =
  match Dict.get "stac_version" raw with
  | Some _ => Some (JStr version)
  | None => None
  end.
Proof.
  intros Hwf Hfld Halias [Herr ->]%construct_Ok.
  set (vt := validate_type validate_other) in *.
  set (ce := match cls_extra m with ExtraIgnore => false | _ => true end).
  unfold validate_model in *. fold ce in Herr |- *.
  set (st1 := fold_left (validate_step vt ce raw) (cls_fields m)
                (mkValidation [] ∅ ∅ [])) in *.
  pose proof (extra_errors_nil _ _ _ Herr) as Herr1.
  pose proof (DictFacts.get_Some_elem _ _ _ Hfld) as Hin.
  assert (Hkey : ∀ n', dict_key true m n' = "stac_version" → n' = "stac_version").
  { intros n'. unfold dict_key.
    destruct (Dict.get n' (cls_fields m)) as [f'|] eqn:Hf'; [|done].
    intros Ha. eapply Halias; [|exact Ha]. by apply DictFacts.get_Some_elem. }
  destruct (Dict.get "stac_version" raw) as [v|] eqn:Hraw.
  - destruct (fold_value_get vt ce raw (cls_fields m) (mkValidation [] ∅ ∅ [])
                "stac_version" (version_field version) v Hwf Hin Hraw Herr1)
      as (x & Hx & Hget).
    apply version_field_accepts in Hx as ->. fold st1 in Hget.
    apply (to_dict_get _ "stac_version" (PStr version)); simpl.
    + apply extra_values_NoDup, fold_values_NoDup. simpl. apply NoDup_nil_2.
    + rewrite <- Hget. destruct (cls_extra m) eqn:Hex; [done| |done].
      apply extra_values_get. left. apply fold_names_used. right.
      split_and!; [done | | by rewrite Hraw].
      apply list_elem_of_fmap. by exists ("stac_version", version_field version).
    + apply extra_fields_set_mono, fold_fields_set. right.
      exists (version_field version). split; [done|]. simpl. by rewrite Hraw.
    + unfold dict_key. by rewrite Hfld.
    + intros n' _. apply Hkey.
  - apply DictFacts.get_None. intros (n & Hn & Hset & Hk)%to_dict_keys.
    simpl in Hn, Hset, Hk. apply Hkey in Hk as ->.
    apply extra_fields_set in Hset as [Hset|[Hset _]].
    + apply fold_fields_set in Hset as [Hset|(f & Hf & Hsome)]; [set_solver|].
      apply (DictFacts.elem_get _ _ _ Hwf) in Hf. simplify_eq. simpl in Hsome.
      rewrite Hraw in Hsome. by destruct Hsome.
    + by apply DictFacts.get_None in Hraw.
Qed.


(** Under [extra = allow] or [ignore], what is reported depends on the
    declared keys alone. *)
Lemma lenient_errors_agree m raw raw' :
  cls_extra m ≠ ExtraForbid →
  (∀ a, a ∈ aliases m → Dict.get a raw' = Dict.get a raw) →
  errors (validate_model (validate_type validate_other) m raw') =
  errors (validate_model (validate_type validate_other) m raw).
Proof.
  intros Hex Hagree. unfold validate_model.
  rewrite !extra_errors_lenient by done. by apply fold_errors_agree.
Qed.
End version_constant.

Section records.
Context `{Collaborators}.
Implicit Types (m : Model) (raw : dict json) (i : instance) (w : World).

Lemma NoDup_keys_decide {V : Type} (d : dict V) :
  bool_decide (NoDup (Dict.keys d)) = true → NoDup (Dict.keys d).
Proof. apply bool_decide_eq_true. Qed.

Lemma Item_version :
  Dict.get "stac_version" (cls_fields Item) = Some (version_field STAC_VERSION).
Proof.
  change (version_field STAC_VERSION) with
    (infer "stac_version" (TStr, Field (Value (JStr STAC_VERSION)) true None)).
  apply new_model_get; [by apply NoDup_keys_decide | done].
Qed.

Lemma ItemCollection_version :
  Dict.get "stac_version" (cls_fields ItemCollection) = Some (version_field STAC_VERSION).
Proof.
  change (version_field STAC_VERSION) with
    (infer "stac_version" (TStr, Field (Value (JStr STAC_VERSION)) true None)).
  apply new_model_get; [by apply NoDup_keys_decide | done].
Qed.

Lemma new_model_wf id name base config defs :
  wf_model base → wf_model (new_model id name base config defs).
Proof. intros Hwf. unfold wf_model. rewrite new_model_fields. by apply DictFacts.NoDup_update. Qed.

(** A subclass whose own fields go by their names emits [stac_version]
    for no field but the one of that name. *)
Lemma new_model_version_alias id name base config defs n f :
  Forall (λ nf, mf_alias nf.2 ≠ "stac_version") (cls_fields base) →
  Forall (λ nd, fi_alias nd.2.2 = None) defs →
  (n, f) ∈ cls_fields (new_model id name base config defs) →
  mf_alias f = "stac_version" → n = "stac_version".
Proof.
  intros Hbase Hdefs Hin Ha. rewrite new_model_fields in Hin.
  apply elem_update in Hin as [Hin|Hin].
  - rewrite Forall_forall in Hbase. by destruct (Hbase _ Hin).
  - apply list_elem_of_fmap in Hin as ([n' fd] & Heq & Hin). simplify_eq.
    rewrite Forall_forall in Hdefs. specialize (Hdefs _ Hin). simpl in *.
    unfold infer in Ha. simpl in Ha. by rewrite Hdefs in Ha.
Qed.

Lemma record_class_version m :
  m = Item ∨ m = ItemCollection →
  Dict.get "stac_version" (cls_fields m) = Some (version_field STAC_VERSION).
Proof. intros [-> | ->]; [apply Item_version | apply ItemCollection_version]. Qed.

Lemma record_class_wf m base : record_class m base → wf_model base → wf_model m.
Proof. intros [[-> ->] | [-> ->]] ?; by apply new_model_wf. Qed.

Lemma record_class_cases m base :
  record_class m base → m = Item ∨ m = ItemCollection.
Proof. intros [[-> _] | [-> _]]; auto. Qed.

(** C7. A document whose [stac_version] is anything but the version
    constant is rejected with a ValidationError that reports the field,
    by [Item] and by [ItemCollection], whatever else the document holds:
    no value is converted into the constant. *)
Theorem stac_version_mismatch_rejected m raw v :
  m = Item ∨ m = ItemCollection →
  dotted STAC_VERSION →
  Dict.get "stac_version" raw = Some v →
  v ≠ JStr STAC_VERSION →
  exists es e,
    validate validate_other m raw = Raise (ValidationError es) ∧
    ("stac_version", e) ∈ es.
Proof.
  intros Hm Hdot Hraw Hne.
  destruct (version_field_rejects validate_other _ _ Hdot Hne) as (e & He).
  pose proof (validate_model_rejects (validate_type validate_other) m raw
                "stac_version" (version_field STAC_VERSION) v e
                (record_class_version m Hm) Hraw He) as Hin.
  exists (errors (validate_model (validate_type validate_other) m raw)), e.
  split; [|exact Hin]. apply construct_Raise. intros Hnil. rewrite Hnil in Hin.
  by apply elem_of_nil in Hin.
Qed.

(** C4, as the code has it.  A validated [Item] or [ItemCollection]
    exports [stac_version], with the constant as its value, exactly when
    the raw document supplied it; a record built from a document without
    it leaves it out like any other unset field. *)
Theorem version_emitted_when_supplied m base raw i :
  record_class m base → base_without_version base →
  validate validate_other m raw = Ok i →
  Dict.get "stac_version" (to_dict i) =
  match Dict.get "stac_version" raw with
  | Some _ => Some (JStr STAC_VERSION)
  | None => None
  end.
Proof.
  intros Hm [Hwf Hal] Hv.
  apply (version_export validate_other m STAC_VERSION raw i); [| | |exact Hv].
  - by apply (record_class_wf m base).
  - by eapply record_class_version, record_class_cases.
  - intros n f. destruct Hm as [[-> ->] | [-> ->]].
    + apply new_model_version_alias; [done|]. repeat constructor.
    + apply new_model_version_alias; [done|]. repeat constructor.
Qed.


(** C10. The properties schemas allow extra keys: [ItemProperties] and
    every schema the factory composes have [extra = allow], and whether a
    properties object validates depends on its declared keys alone, so
    unknown keys never make a valid object invalid. *)
Theorem properties_accept_extra_keys w exts log res w' m raw raw' i :
  reachable w →
  _extension_model_factory exts w = (log, Ok res, w') →
  m = ItemProperties ∨ m = res.1 →
  (∀ a, a ∈ aliases m → Dict.get a raw' = Dict.get a raw) →
  validate validate_other m raw = Ok i →
  cls_extra m = ExtraAllow ∧ exists i', validate validate_other m raw' = Ok i'.
Proof.
  intros Hinv%reachable_inv Hcall Hm Hagree [Herr _]%construct_Ok.
  assert (Hex : cls_extra m = ExtraAllow).
  { destruct Hm as [-> | ->]; [done|].
    destruct (factory_ok _ _ _ _ _ Hinv Hcall) as [(fields & id & _ & Hres & _) _].
    simpl in Hres. by rewrite Hres. }
  split; [done|]. eexists. apply construct_Ok. split; [|done].
  rewrite (lenient_errors_agree validate_other m raw raw'); [done | | done].
  by rewrite Hex.
Qed.
End records.

(** ** [item_factory]: the statement *)

Section item_schema_factory.
Context `{Collaborators}.
Implicit Types (item : dict json) (w : World) (exts : list string).

Lemma Item_properties :
  Dict.get "properties" (cls_fields Item) = Some (properties_field ItemProperties).
Proof.
  change (properties_field ItemProperties) with
    (infer "properties" (TModel ItemProperties, annotation_only)).
  apply new_model_get; [by apply NoDup_keys_decide | done].
Qed.

Lemma decompose_Item_NoDup : wf_model Feature → NoDup (Dict.keys (decompose_model Item)).
Proof. intros Hwf. rewrite keys_decompose_model. by apply new_model_wf. Qed.

Lemma tuple_of_list exts : tuple_of (JList (map JStr exts)) = Ok exts.
Proof.
  unfold tuple_of.
  assert (mapM (λ x, match x with JStr s => Some s | _ => None end) (map JStr exts)
          = Some exts) as ->; [|done].
  induction exts as [|e exts IH]; [done|]. simpl. by rewrite IH.
Qed.

Lemma truthy_list exts : exts ≠ [] → truthy (JList (map JStr exts)) = true.
Proof. by destruct exts. Qed.

(** The class built around a properties definition. *)
Lemma custom_item_properties id fd :
  wf_model Feature →
  Dict.get "properties"
    (cls_fields (new_model id "CustomStacItem" Item None
                   (Dict.set "properties" fd (decompose_model Item)))) =
  Some (infer "properties" fd).
Proof.
  intros Hwf. apply new_model_get.
  - by apply DictFacts.NoDup_set, decompose_Item_NoDup.
  - apply DictFacts.get_set_eq.
Qed.

Lemma base_item_properties id :
  wf_model Feature →
  Dict.get "properties"
    (cls_fields (new_model id "CustomStacItem" Item None (decompose_model Item))) =
  Some (properties_field ItemProperties).
Proof.
  intros Hwf.
  change (properties_field ItemProperties) with
    (infer "properties" (decompose_field (properties_field ItemProperties))).
  apply new_model_get; [by apply decompose_Item_NoDup|].
  by rewrite get_decompose_model, Item_properties.
Qed.

(** C9. [item_factory] puts the composed schema of the item's own
    extension list, as a required field, in the place of the properties
    schema exactly when the item declares a non-empty list: with no list,
    [None] or an empty list the field stays that of [Item]. The full-item
    class is a new class object on every call, while the properties
    schema of a repeated call is the cached one. *)
Theorem item_factory_properties item w :
  reachable w → wf_model Feature →
  (declared_extensions item = JNull ∨ declared_extensions item = JList [] →
     exists cls,
       item_factory item w =
       ([], Ok cls, mkWorld (S (next_cls w)) (factory_cache w)) ∧
       cls_id cls = next_cls w ∧
       Dict.get "properties" (cls_fields cls) = Some (properties_field ItemProperties)) ∧
  (∀ exts, exts ≠ [] → declared_extensions item = JList (map JStr exts) →
     match _extension_model_factory exts w with
     | (log, Ok (m, fi), w') =>
         exists cls,
           item_factory item w =
           (log, Ok cls, mkWorld (S (next_cls w')) (factory_cache w')) ∧
           cls_id cls = next_cls w' ∧
           Dict.get "properties" (cls_fields cls) = Some (properties_field m) ∧
           m ≠ ItemProperties
     | (log, Raise e, w') => item_factory item w = (log, Raise e, w')
     end) ∧
  (∀ log cls w1, item_factory item w = (log, Ok cls, w1) →
     exists cls' w2,
       item_factory item w1 = ([], Ok cls', w2) ∧
       cls_id cls' ≠ cls_id cls ∧
       Dict.get "properties" (cls_fields cls') = Dict.get "properties" (cls_fields cls)).
Proof.
  intros Hinv%reachable_inv Hwf. unfold declared_extensions. split_and!.
  - intros Hnone.
    assert (Hf : truthy (default JNull (Dict.get "stac_extensions" item)) = false)
      by (by destruct Hnone as [-> | ->]).
    rewrite (item_factory_base _ _ Hf). eexists. split_and!; [done..|].
    by apply base_item_properties.
  - intros exts Hne Hdecl.
    rewrite (item_factory_extended item w exts)
      by (rewrite Hdecl; first [by apply truthy_list | apply tuple_of_list]).
    destruct (_extension_model_factory exts w) as [[log [[m fi]|e]] w'] eqn:Hcall; [|done].
    destruct (factory_ok _ _ _ _ _ Hinv Hcall) as [(fields & id & _ & Hres & Hid) _].
    simpl in Hres. injection Hres as -> ->.
    eexists. split_and!; [done..| |].
    + by rewrite custom_item_properties.
    + intros Heq. apply (f_equal cls_id) in Heq. simpl in Heq. lia.
  - intros log cls w1 Hcall. unfold item_factory, create_model in Hcall |- *.
    cbn [fst snd] in Hcall |- *.
    destruct (truthy (default JNull (Dict.get "stac_extensions" item))) eqn:Ht.
    + destruct (tuple_of _) as [key|e]; [|done].
      destruct (_extension_model_factory key w) as [[lg [props|e]] w'] eqn:Hf; [|done].
      injection Hcall as <- <- <-.
      destruct (factory_ok _ _ _ _ _ Hinv Hf) as [_ Hc].
      destruct (factory_hit key (mkWorld (S (next_cls w')) (factory_cache w')) props Hc)
        as (w2 & -> & Hn). cbn [fst snd next_cls factory_cache] in Hn |- *.
      eexists _, _. split_and!; [done | cbn [cls_id new_model]; rewrite Hn; lia |].
      by rewrite !custom_item_properties.
    + injection Hcall as <- <- <-. cbn [next_cls factory_cache].
      eexists _, _. split_and!; [done | cbn [cls_id new_model]; lia |].
      by rewrite !base_item_properties.
Qed.
End item_schema_factory.

(** ** Composition: names, order and lookups *)

Section composition_names.
Context `{Collaborators}.
Implicit Types (exts key : list string) (w : World) (res : Model * FieldInfo).

Lemma registered_cons exts ext e m :
  registered (ext :: exts) e m ↔
  (e = ext ∧ ext ≠ "checksum" ∧ Extensions_get ext = Some m) ∨ registered exts e m.
Proof.
  unfold registered. rewrite elem_of_cons. split.
  - intros ([->|?] & ? & ?); [by left | by right].
  - intros [(-> & ? & ?)|(? & ? & ?)]; split_and!; auto.
Qed.

Lemma registered_nil e m : ¬ registered [] e m.
Proof. intros (Hin & _). by apply elem_of_nil in Hin. Qed.

(** The names the loop collects are those it started with and those of the
    extensions it looked up. *)
Lemma extension_fields_keys exts fields out x :
  (extension_fields exts fields).2 = Ok out →
  x ∈ Dict.keys out ↔
  x ∈ Dict.keys fields ∨
  exists e m, registered exts e m ∧ x ∈ Dict.keys (cls_fields m).
Proof.
  revert fields. induction exts as [|ext exts IH]; intros fields.
  - simpl. intros [= <-]. split; [by left|].
    intros [?|(e & m & []%registered_nil & _)]. done.
  - destruct (extension_fields_head ext exts fields)
      as [(-> & Heq)|[(Hne & Hm & Heq)|(m0 & Hne & Hm & Heq)]]; rewrite Heq; simpl.
    + intros Hout. rewrite (IH _ Hout). apply or_iff_compat_l.
      split; intros (e & m & Hr & Hx); exists e, m; (split; [|done]).
      * apply registered_cons. by right.
      * apply registered_cons in Hr as [(_ & ? & _)|?]; done.
    + done.
    + intros Hout. rewrite (IH _ Hout).
      rewrite DictFacts.keys_update, keys_decompose_model. split.
      * intros [[?|?]|(e & m & Hr & Hx)]; [by left|right..].
        -- exists ext, m0. split; [|done]. apply registered_cons. by left.
        -- exists e, m. split; [|done]. apply registered_cons. by right.
      * intros [?|(e & m & Hr & Hx)]; [by left; left|].
        apply registered_cons in Hr as [(-> & _ & Hm')|Hr].
        -- left. right. congruence.
        -- right. by exists e, m.
Qed.

(** What the composed class holds under a name: the definition the loop
    collected, or else the field of [ItemProperties]. *)
Lemma composed_get id name base fields x :
  NoDup (Dict.keys fields) →
  Dict.get x (cls_fields (new_model id name base None fields)) =
  match Dict.get x fields with
  | Some fd => Some (infer x fd)
  | None => Dict.get x (cls_fields base)
  end.
Proof.
  intros Hnd. destruct (Dict.get x fields) as [fd|] eqn:Hx.
  - by apply new_model_get.
  - rewrite new_model_fields. apply DictFacts.get_update_None.
    by rewrite (DictFacts.get_map infer), Hx.
Qed.

Lemma composed_keys id name base fields x :
  x ∈ Dict.keys (cls_fields (new_model id name base None fields)) ↔
  x ∈ Dict.keys (cls_fields base) ∨ x ∈ Dict.keys fields.
Proof.
  rewrite new_model_fields, DictFacts.keys_update.
  by rewrite (DictFacts.keys_map infer).
Qed.

(** A returned schema is the class composed from the fields of the loop. *)
Lemma factory_result exts w log res w' :
  reachable w → _extension_model_factory exts w = (log, Ok res, w') →
  exists fields id,
    (extension_fields exts []).2 = Ok fields ∧ NoDup (Dict.keys fields) ∧
    res = (new_model id "CustomItemProperties" ItemProperties None fields,
           Field Ellipsis false None) ∧
    4 ≤ id < next_cls w'.
Proof.
  intros Hw%reachable_inv Hcall.
  destruct (factory_ok _ _ _ _ _ Hw Hcall) as [(fields & id & Hok & Hres & Hid) _].
  simpl in Hok, Hres. exists fields, id. split_and!; try done; try lia.
  eapply extension_fields_NoDup; [|exact Hok]. apply NoDup_nil_2.
Qed.

End composition_names.

Section composition_laws.
Context `{Collaborators}.
Implicit Types (exts key : list string) (w : World) (res : Model * FieldInfo).

Lemma extension_fields_reserved exts fields :
  Forall (λ e, e = "checksum") exts → extension_fields exts fields = ([], Ok fields).
Proof.
  induction 1 as [|e exts -> _ IH]; [done|]. simpl. exact IH.
Qed.

(** On success the loop has looked up every identifier but the reserved
    one, once each, in order. *)
Lemma extension_fields_lookups exts fields out :
  (extension_fields exts fields).2 = Ok out →
  (extension_fields exts fields).1 = lookups exts.
Proof.
  unfold lookups. revert fields. induction exts as [|ext exts IH]; intros fields; [done|].
  destruct (extension_fields_head ext exts fields)
    as [(-> & Heq)|[(Hne & Hm & Heq)|(m0 & Hne & Hm & Heq)]]; rewrite Heq; simpl.
  - intros Hout. rewrite filter_cons_False by (intros Hc; by apply Hc). by eapply IH.
  - done.
  - intros Hout. rewrite filter_cons_True by done. f_equal. by eapply IH.
Qed.

(** The loop stops at the first identifier the registry does not know. *)
Lemma extension_fields_first_unknown pre e post fields :
  e ≠ "checksum" → Extensions_get e = None →
  (∀ e', e' ∈ pre → e' ≠ "checksum" → is_Some (Extensions_get e')) →
  extension_fields (pre ++ e :: post) fields =
  (lookups pre ++ [e], Raise (UnknownExtensionError e)).
Proof.
  intros Hne Hnone. unfold lookups. revert fields.
  induction pre as [|ext pre IH]; intros fields Hpre.
  - simpl app. by apply extension_fields_unknown.
  - assert (Hpre' : ∀ e', e' ∈ pre → e' ≠ "checksum" → is_Some (Extensions_get e')).
    { intros e' Hin. apply Hpre. by apply elem_of_cons; right. }
    rewrite <- app_comm_cons.
    destruct (extension_fields_head ext (pre ++ e :: post) fields)
      as [(-> & Heq)|[(Hne' & Hm & Heq)|(m0 & Hne' & Hm & Heq)]]; rewrite Heq.
    + rewrite filter_cons_False by (intros Hc; by apply Hc). by apply IH.
    + destruct (Hpre ext) as [m Hm']; [by apply elem_of_cons; left | done | congruence].
    + rewrite filter_cons_True by done. by rewrite IH.
Qed.

(** X1. Composing a sequence that holds nothing but the reserved
    identifier, the empty sequence included, gives a schema with exactly
    the fields of [ItemProperties], in their order, under its [Config],
    and looks nothing up. *)
Theorem compose_reserved_only w exts :
  reachable w → Forall (λ e, e = "checksum") exts →
  exists res w',
    _extension_model_factory exts w = ([], Ok res, w') ∧
    cls_fields res.1 = cls_fields ItemProperties ∧
    cls_extra res.1 = cls_extra ItemProperties ∧
    res.2 = Field Ellipsis false None.
Proof.
  intros Hw Hall.
  pose proof (extension_fields_reserved exts [] Hall) as Hloop.
  destruct (factory_returns exts w [] (reachable_inv _ Hw)) as (log & id & w' & Hcall & Hlog).
  { by rewrite Hloop. }
  rewrite Hloop in Hlog. simpl in Hlog.
  assert (log = []) as -> by (by destruct Hlog).
  eexists _, w'. split; [exact Hcall|]. done.
Qed.

(** X2. The field names of a composed schema are those of
    [ItemProperties] together with those of every extension of the
    sequence that the registry knows, and no others. *)
Theorem composed_field_names w exts log res w' x :
  reachable w →
  _extension_model_factory exts w = (log, Ok res, w') →
  x ∈ Dict.keys (cls_fields res.1) ↔
  x ∈ Dict.keys (cls_fields ItemProperties) ∨
  exists e m, registered exts e m ∧ x ∈ Dict.keys (cls_fields m).
Proof.
  intros Hw Hcall.
  destruct (factory_result _ _ _ _ _ Hw Hcall) as (fields & id & Hok & _ & -> & _).
  cbn [fst]. rewrite composed_keys, (extension_fields_keys _ _ _ _ Hok).
  apply or_iff_compat_l. split; [|by right].
  intros [Hnil|?]; [|done]. by apply elem_of_nil in Hnil.
Qed.

(** A name no extension of the sequence defines is not among the fields
    the loop collects. *)
Lemma extension_fields_free exts fields x :
  (extension_fields exts []).2 = Ok fields →
  (∀ e m, registered exts e m → x ∉ Dict.keys (cls_fields m)) →
  Dict.get x fields = None.
Proof.
  intros Hok Hfree. apply DictFacts.get_None.
  rewrite (extension_fields_keys _ _ _ _ Hok).
  intros [Hnil|(e & m & Hr & Hx)]; [by apply elem_of_nil in Hnil|].
  by apply (Hfree e m).
Qed.

(** X3. A field of [ItemProperties] that no extension of the sequence
    names is in the composed schema as [ItemProperties] declares it. *)
Theorem base_field_kept w exts log res w' x :
  reachable w →
  _extension_model_factory exts w = (log, Ok res, w') →
  (∀ e m, registered exts e m → x ∉ Dict.keys (cls_fields m)) →
  Dict.get x (cls_fields res.1) = Dict.get x (cls_fields ItemProperties).
Proof.
  intros Hw Hcall Hfree.
  destruct (factory_result _ _ _ _ _ Hw Hcall) as (fields & id & Hok & Hnd & -> & _).
  cbn [fst]. rewrite composed_get by done.
  by rewrite (extension_fields_free _ _ _ Hok Hfree).
Qed.

(** X4. Composition fails at the first identifier the registry does not
    know: the exception names that identifier, the registry was asked for
    the identifiers before it and for it, never for one after it, and
    the world is as it was. *)
Theorem first_unregistered_reported w pre e post :
  reachable w →
  e ≠ "checksum" → Extensions_get e = None →
  (∀ e', e' ∈ pre → e' ≠ "checksum" → is_Some (Extensions_get e')) →
  _extension_model_factory (pre ++ e :: post) w =
  (lookups pre ++ [e], Raise (UnknownExtensionError e), w).
Proof.
  intros Hw Hne Hnone Hpre.
  pose proof (extension_fields_first_unknown pre e post [] Hne Hnone Hpre) as Hloop.
  rewrite (factory_raise _ w (UnknownExtensionError e) (reachable_inv _ Hw)).
  - by rewrite Hloop.
  - by rewrite Hloop.
Qed.

(** X5. A call that returns a schema either finds the sequence cached,
    and then asks the registry nothing and builds no class, or does not,
    and then asks the registry for each identifier but the reserved one,
    once and in order, and builds exactly one class, under the next free
    identity. *)
Theorem lookups_of_a_call w exts log res w' :
  _extension_model_factory exts w = (log, Ok res, w') →
  match cached exts w with
  | Some res' => res = res' ∧ log = [] ∧ next_cls w' = next_cls w
  | None =>
      log = lookups exts ∧ cls_id res.1 = next_cls w ∧ next_cls w' = S (next_cls w)
  end.
Proof.
  intros Hcall%factory_wrapper. unfold cached.
  wrapper_inv Hcall v Hg Hf; rewrite Hg; [done|].
  destruct (extension_model_cases exts (next_cls w)) as [(? & _ & Heq')|(fields & Hok & Heq')];
    rewrite Heq' in Hf; simplify_eq.
  split_and!; try done. by eapply extension_fields_lookups.
Qed.

End composition_laws.

Section composition_order.
Context `{Collaborators}.
Implicit Types (exts key : list string) (w : World) (res : Model * FieldInfo).

(** What the loop leaves under a name: what it started with when no
    extension of the sequence defines the name, and else the definition of
    one of the extensions that do. *)
Lemma extension_fields_get exts fields out x :
  registry_wf exts →
  (extension_fields exts fields).2 = Ok out →
  (Dict.get x out = Dict.get x fields ∧
   ∀ e m, registered exts e m → x ∉ Dict.keys (cls_fields m)) ∨
  (exists e m f, registered exts e m ∧ Dict.get x (cls_fields m) = Some f ∧
                 Dict.get x out = Some (decompose_field f)).
Proof.
  revert fields. induction exts as [|ext exts IH]; intros fields Hwf.
  - simpl. intros [= <-]. left. split; [done|]. by intros e m []%registered_nil.
  - assert (Hwf' : registry_wf exts).
    { intros e m Hr. apply (Hwf e m). apply registered_cons. by right. }
    destruct (extension_fields_head ext exts fields)
      as [(-> & Heq)|[(Hne & Hm & Heq)|(m0 & Hne & Hm & Heq)]]; rewrite Heq; simpl.
    + intros Hout. destruct (IH _ Hwf' Hout) as [(Hg & Hfree)|(e & m & f & Hr & Hf & Hg)].
      * left. split; [done|]. intros e m [(_ & ? & _)|Hr]%registered_cons; [done|].
        by apply (Hfree e m).
      * right. exists e, m, f. split_and!; try done. apply registered_cons. by right.
    + done.
    + intros Hout. destruct (IH _ Hwf' Hout) as [(Hg & Hfree)|(e & m & f & Hr & Hf & Hg)].
      * destruct (Dict.get x (cls_fields m0)) as [f|] eqn:Hx.
        -- right. exists ext, m0, f. split_and!; [apply registered_cons; by left | done |].
           rewrite Hg. apply DictFacts.get_update_Some.
           ++ rewrite keys_decompose_model. apply (Hwf ext m0).
              apply registered_cons. by left.
           ++ by rewrite get_decompose_model, Hx.
        -- left. split.
           ++ rewrite Hg. apply DictFacts.get_update_None.
              by rewrite get_decompose_model, Hx.
           ++ intros e m [(-> & _ & Hm')|Hr]%registered_cons; [|by apply (Hfree e m)].
              apply DictFacts.get_None. congruence.
      * right. exists e, m, f. split_and!; try done. apply registered_cons. by right.
Qed.

Lemma registered_perm exts exts' e m :
  exts ≡ₚ exts' → registered exts e m → registered exts' e m.
Proof. intros Hp (Hin & ? & ?). split_and!; try done. by rewrite <- Hp. Qed.

(** The loop succeeds on a sequence exactly when it succeeds on any
    rearrangement of it. *)
Lemma extension_fields_perm_Ok exts exts' fields out :
  exts ≡ₚ exts' → (extension_fields exts fields).2 = Ok out →
  exists out', (extension_fields exts' fields).2 = Ok out'.
Proof.
  intros Hp Hok. destruct (extension_fields exts' fields).2 as [out'|err] eqn:Hok'; [eauto|].
  destruct (extension_fields_raise_inv _ _ _ Hok') as (e & _ & Hin & Hne & Hnone).
  rewrite <- Hp in Hin.
  destruct (extension_fields_raise exts fields e Hin Hne Hnone) as (? & ? & _). congruence.
Qed.

(** X6. Without collisions the order of the sequence does not matter to
    the fields: when no two different identifiers of a sequence define a
    field of one name, any rearrangement of it composes as well, and the
    two schemas hold the same definition under every name. *)
Theorem order_irrelevant_without_collisions w1 w2 exts1 exts2 log1 res1 w1' :
  reachable w1 → reachable w2 →
  exts1 ≡ₚ exts2 → registry_wf exts1 → collision_free exts1 →
  _extension_model_factory exts1 w1 = (log1, Ok res1, w1') →
  exists log2 res2 w2',
    _extension_model_factory exts2 w2 = (log2, Ok res2, w2') ∧
    ∀ x, Dict.get x (cls_fields res2.1) = Dict.get x (cls_fields res1.1).
Proof.
  intros Hw1 Hw2 Hp Hwf Hfree Hcall1.
  destruct (factory_result _ _ _ _ _ Hw1 Hcall1) as (f1 & id1 & Hok1 & Hnd1 & -> & _).
  destruct (extension_fields_perm_Ok _ _ _ _ Hp Hok1) as (f2 & Hok2).
  destruct (factory_returns exts2 w2 f2 (reachable_inv _ Hw2) Hok2)
    as (log2 & id2 & w2' & Hcall2 & _).
  eexists _, _, _. split; [exact Hcall2|]. intros x. cbn [fst].
  assert (Hnd2 : NoDup (Dict.keys f2)).
  { eapply extension_fields_NoDup; [|exact Hok2]. apply NoDup_nil_2. }
  rewrite !composed_get by done.
  assert (Hwf2 : registry_wf exts2).
  { intros e m Hr. apply (Hwf e m). by apply (registered_perm exts2). }
  assert (Dict.get x f2 = Dict.get x f1) as ->; [|done].
  destruct (extension_fields_get _ _ _ x Hwf Hok1)
    as [(Hg1 & Hno1)|(e1 & m1 & g1 & Hr1 & Hx1 & Hg1)];
  destruct (extension_fields_get _ _ _ x Hwf2 Hok2)
    as [(Hg2 & Hno2)|(e2 & m2 & g2 & Hr2 & Hx2 & Hg2)].
  - congruence.
  - exfalso. apply (Hno1 e2 m2); [by apply (registered_perm exts2)|].
    apply DictFacts.get_is_Some. by rewrite Hx2.
  - exfalso. apply (Hno2 e1 m1); [by apply (registered_perm exts1)|].
    apply DictFacts.get_is_Some. by rewrite Hx1.
  - apply (registered_perm exts2 exts1) in Hr2; [|done].
    destruct (decide (e1 = e2)) as [->|Hne].
    + destruct Hr1 as (_ & _ & Hm1), Hr2 as (_ & _ & Hm2). congruence.
    + exfalso. apply (Hfree e1 e2 m1 m2 x Hr1 Hr2 Hne).
      * apply DictFacts.get_is_Some. by rewrite Hx1.
      * apply DictFacts.get_is_Some. by rewrite Hx2.
Qed.

(** X7. Memoisation is transparent: in every world the decorated function
    gives what its body would give when run afresh, the same exception or
    the same schema up to the identity of the class object. *)
Theorem memoisation_transparent w exts n :
  reachable w →
  same_outcome (_extension_model_factory exts w).1.2 (extension_model exts n).1.2.
Proof.
  intros Hw. pose proof (reachable_inv _ Hw) as Hinv.
  destruct (extension_model_cases exts n) as [(e & He & ->)|(fields & Hok & ->)]; cbn [fst snd].
  - by rewrite (factory_raise _ _ _ Hinv He).
  - destruct (factory_returns _ _ _ Hinv Hok) as (log & id & w' & -> & _). by cbn.
Qed.

End composition_order.

(** ** The cache across calls: identities and capacity *)

Section lru_more.
Context {K V S L : Type} `{EqDecision K}.
Variable user_function : K → S → list L * result V * S.

Lemma cache_get_unlink_ne (k key : K) (l : list (K * V)) :
  k ≠ key → cache_get k (unlink key l) = cache_get k l.
Proof.
  intros Hne. induction l as [|[k' v'] l IH]; [done|]. simpl.
  destruct (decide (key = k')) as [->|Hk].
  - by rewrite decide_False.
  - simpl. by rewrite IH.
Qed.

(** Below the size limit a call removes nothing. *)
Lemma wrapper_keeps_below key c s log r c' s' k v :
  lru_wf c → length (lru_links c) < maxsize →
  lru_cache_wrapper user_function key c s = (log, r, c', s') →
  cache_get k (lru_links c) = Some v →
  cache_get k (lru_links c') = Some v.
Proof.
  intros Hwf Hlen Hcall Hk. pose proof Hcall as Hcall'.
  pose proof Hwf as (Hnd & _ & Hfull).
  wrapper_inv Hcall res Hg Hf; simpl.
  - destruct (decide (k = key)) as [->|Hne].
    + assert (v = res) as -> by congruence.
      exact (wrapper_cached _ _ _ _ _ _ _ _ Hwf Hcall').
    + by rewrite cache_get_app, cache_get_unlink_ne, Hk.
  - done.
  - rewrite Hfull, bool_decide_eq_false_2 by lia. simpl.
    by rewrite cache_get_app, Hk.
Qed.

(** A call adds at most one link. *)
Lemma wrapper_length key c s log r c' s' :
  lru_cache_wrapper user_function key c s = (log, r, c', s') →
  length (lru_links c') ≤ Datatypes.S (length (lru_links c)).
Proof.
  intros Hcall. wrapper_inv Hcall res Hg Hf; simpl.
  - rewrite (Permutation_length (hit_links_perm _ _ _ Hg)). lia.
  - lia.
  - destruct (lru_full c); simpl; rewrite length_app; simpl; [|lia].
    destruct (lru_links c); simpl; lia.
Qed.
End lru_more.

Lemma NoDup_map_inj {A B : Type} (g : A → B) (l : list A) x y :
  NoDup (map g l) → x ∈ l → y ∈ l → g x = g y → x = y.
Proof.
  induction l as [|a l IH]; simpl; [by intros _ ?%elem_of_nil|].
  rewrite NoDup_cons. intros [Ha Hnd] [->|Hx]%elem_of_cons [->|Hy]%elem_of_cons Heq.
  - done.
  - exfalso. apply Ha. rewrite Heq. apply list_elem_of_In, in_map, list_elem_of_In, Hy.
  - exfalso. apply Ha. rewrite <- Heq. apply list_elem_of_In, in_map, list_elem_of_In, Hx.
  - by apply IH.
Qed.

Section worlds.
Context `{Collaborators}.
Implicit Types (exts key : list string) (w : World) (res : Model * FieldInfo).

(** The cache changes through [_extension_model_factory] alone. *)
Lemma exec_cache w c :
  factory_cache (exec w c) = factory_cache w ∨
  exists key, factory_cache (exec w c) = factory_cache (_extension_model_factory key w).2.
Proof.
  destruct c as [key|item]; simpl; [right; by exists key|].
  unfold item_factory.
  destruct (truthy _); [|by left].
  destruct (tuple_of _) as [key|e]; [|by left].
  right. exists key.
  by destruct (_extension_model_factory key w) as [[log [props|e]] w'].
Qed.

Lemma entry_id next kv : entry_sound next kv → 4 ≤ cls_id kv.2.1 < next.
Proof. intros (fields & id & _ & -> & ?). done. Qed.

Lemma factory_ids exts w log r w' :
  world_inv w → NoDup (cached_ids w) →
  _extension_model_factory exts w = (log, r, w') → NoDup (cached_ids w').
Proof.
  intros (Hwf & Hsound & Hn) Hnd Hcall%factory_wrapper.
  destruct w' as [n' c']. unfold cached_ids in *. simpl in Hcall |- *.
  wrapper_inv Hcall v Hg Hf; simpl.
  - change (NoDup ((λ kv : list string * (Model * FieldInfo), cls_id kv.2.1) <$>
                     (unlink exts (lru_links (factory_cache w)) ++ [(exts, v)]))).
    by rewrite (hit_links_perm _ _ _ Hg).
  - done.
  - destruct (extension_model_cases exts (next_cls w)) as [(? & _ & Heq')|(fields & _ & Heq')];
      rewrite Heq' in Hf; simplify_eq.
    assert (Hfresh : ∀ l, l ⊆ lru_links (factory_cache w) →
              next_cls w ∉ map (λ kv : list string * (Model * FieldInfo), cls_id kv.2.1) l).
    { intros l Hl Hin. apply list_elem_of_In, in_map_iff in Hin as (kv & Hid & Hkv).
      apply list_elem_of_In, Hl in Hkv. rewrite Forall_forall in Hsound.
      pose proof (entry_id _ _ (Hsound _ Hkv)). lia. }
    destruct (lru_full (factory_cache w)); simpl; rewrite map_app; simpl;
      apply NoDup_app; split_and!.
    + destruct (lru_links (factory_cache w)) as [|kv l]; simpl in *; [done|].
      by apply NoDup_cons in Hnd as [_ ?].
    + intros id Hin ->%list_elem_of_singleton. revert Hin. apply Hfresh.
      destruct (lru_links (factory_cache w)) as [|kv l]; simpl; [done|].
      intros x ?. by apply elem_of_cons; right.
    + apply NoDup_singleton.
    + done.
    + intros id Hin ->%list_elem_of_singleton. revert Hin. by apply Hfresh.
    + apply NoDup_singleton.
Qed.

Lemma exec_ids w c : world_inv w → NoDup (cached_ids w) → NoDup (cached_ids (exec w c)).
Proof.
  intros Hinv Hnd. unfold cached_ids.
  destruct (exec_cache w c) as [->|(key & ->)]; [done|].
  destruct (_extension_model_factory key w) as [[log r] w'] eqn:Hcall.
  by eapply factory_ids.
Qed.

Lemma reachable_ids w : reachable w → NoDup (cached_ids w).
Proof.
  intros [calls ->].
  assert (Hgen : ∀ w0, world_inv w0 → NoDup (cached_ids w0) → NoDup (cached_ids (run calls w0))).
  { induction calls as [|c calls IH]; intros w0 Hinv Hnd; [done|].
    simpl. apply IH; [by apply exec_inv | by apply exec_ids]. }
  apply Hgen; [apply init_inv | apply NoDup_nil_2].
Qed.

(** X8. The cache never holds one class object under two sequences: the
    classes cached for two different sequences have different
    identities, each handed out after import time. *)
Theorem cached_classes_distinct w key1 key2 res1 res2 :
  reachable w →
  cached key1 w = Some res1 → cached key2 w = Some res2 → key1 ≠ key2 →
  cls_id res1.1 ≠ cls_id res2.1 ∧ 4 ≤ cls_id res1.1 < next_cls w.
Proof.
  intros Hw H1%cache_get_elem H2%cache_get_elem Hne.
  destruct (reachable_inv _ Hw) as (_ & Hsound & _). rewrite Forall_forall in Hsound.
  split; [|exact (entry_id _ _ (Hsound _ H1))].
  intros Hid.
  pose proof (NoDup_map_inj (λ kv : list string * (Model * FieldInfo), cls_id kv.2.1)
                _ _ _ (reachable_ids _ Hw) H1 H2 Hid).
  congruence.
Qed.

Lemma exec_keeps_below w c key res :
  world_inv w → length (lru_links (factory_cache w)) < maxsize →
  cached key w = Some res → cached key (exec w c) = Some res.
Proof.
  intros (Hwf & _ & _) Hlen Hc. unfold cached.
  destruct (exec_cache w c) as [->|(key' & ->)]; [done|].
  destruct (_extension_model_factory key' w) as [[log r] w'] eqn:Hcall.
  apply factory_wrapper in Hcall. simpl.
  by eapply wrapper_keeps_below.
Qed.

Lemma exec_length w c :
  length (lru_links (factory_cache (exec w c))) ≤ S (length (lru_links (factory_cache w))).
Proof.
  destruct (exec_cache w c) as [->|(key' & ->)]; [lia|].
  destruct (_extension_model_factory key' w) as [[log r] w'] eqn:Hcall.
  apply factory_wrapper in Hcall. simpl.
  by eapply wrapper_length.
Qed.

Lemma run_keeps_below calls w key res :
  world_inv w → length (lru_links (factory_cache w)) + length calls ≤ maxsize →
  cached key w = Some res → cached key (run calls w) = Some res.
Proof.
  revert w. induction calls as [|c calls IH]; intros w Hinv Hlen Hc; [done|].
  simpl in Hlen |- *. apply IH.
  - by apply exec_inv.
  - pose proof (exec_length w c). lia.
  - apply exec_keeps_below; [done | lia | done].
Qed.

(** X9. Nothing is evicted before the cache is full: while the entries
    held and the calls made since add up to at most 128, every cached
    schema stays cached, whatever the calls ask for. *)
Theorem no_eviction_below_capacity w calls key res :
  reachable w →
  length (lru_links (factory_cache w)) + length calls ≤ maxsize →
  cached key w = Some res → cached key (run calls w) = Some res.
Proof. intros Hw. apply run_keeps_below. by apply reachable_inv. Qed.

End worlds.

(** *** When a link is pushed out *)

Section lru_eviction.
Context {K V S L : Type} `{Countable K}.
Variable user_function : K → S → list L * result V * S.
Implicit Types (l before after : list (K * V)) (c : lru_state K V).

Lemma elem_unlink_ne (k key : K) l :
  k ≠ key → k ∈ map fst l → k ∈ map fst (unlink key l).
Proof.
  intros Hne. induction l as [|[k0 v0] l IH]; simpl; [done|].
  destruct (decide (key = k0)) as [->|Hk].
  - intros [?|?]%elem_of_cons; [done|done].
  - simpl. intros [->|?]%elem_of_cons; apply elem_of_cons; auto.
Qed.

(** A call for another key that returns leaves its key newer than [key],
    beside those that were, unless it pushes [key] out; a call that
    raises changes nothing. *)
Lemma wrapper_newer key k' c s log r c' s' ks :
  lru_wf c → k' ≠ key →
  newer_than c key ks →
  lru_cache_wrapper user_function k' c s = (log, r, c', s') →
  match r with
  | Ok _ => cache_get key (lru_links c') = None ∨ newer_than c' key (k' :: ks)
  | Raise _ => c' = c
  end.
Proof.
  intros (Hnd & Hlen & Hfull) Hne (before & r0 & after & Hl & Hks) Hcall.
  unfold lru_keys in Hnd. rewrite Hl in Hnd.
  rewrite map_app in Hnd. simpl in Hnd.
  apply NoDup_app in Hnd as (Hndb & Hdis & [Hka Hnda]%NoDup_cons).
  assert (Happ : ∀ v x, x ∈ k' :: ks → x ∈ map fst (after ++ [(k', v)])).
  { intros v x [->|Hx]%elem_of_cons; rewrite map_app, elem_of_app; simpl.
    - right. by apply elem_of_cons; left.
    - left. by apply Hks. }
  wrapper_inv Hcall v Hg Hf; simpl.
  - (* hit *)
    right. rewrite Hl. destruct (decide (k' ∈ map fst before)) as [Hin|Hnin].
    + rewrite unlink_app_l by done.
      exists (unlink k' before), r0, (after ++ [(k', v)]).
      split; [simpl; by rewrite <- !app_assoc | apply Happ].
    + rewrite unlink_app_r by done. simpl. rewrite decide_False by done.
      exists before, r0, (unlink k' after ++ [(k', v)]).
      split; [simpl; by rewrite <- !app_assoc|].
      intros x Hx. rewrite map_app, elem_of_app. simpl.
      destruct (decide (x = k')) as [->|Hxk]; [right; by apply elem_of_cons; left|].
      left. apply elem_unlink_ne; [done|].
      apply elem_of_cons in Hx as [?|Hx]; [done|]. by apply Hks.
  - (* the function raised *)
    done.
  - (* a new link *)
    destruct (lru_full c) eqn:Hf'; simpl; rewrite Hl.
    + destruct before as [|b before]; simpl.
      * left. apply cache_get_None. rewrite map_app, not_elem_of_app. simpl.
        split; [done|]. by intros ->%list_elem_of_singleton.
      * right. exists before, r0, (after ++ [(k', v)]).
        split; [simpl; by rewrite <- !app_assoc | apply Happ].
    + right. exists before, r0, (after ++ [(k', v)]).
      split; [simpl; by rewrite <- !app_assoc | apply Happ].
Qed.

(** A cache cannot hold [key] and [maxsize] further keys. *)
Lemma newer_than_bound c key ks :
  lru_wf c → newer_than c key ks → size (list_to_set ks : gset K) < maxsize.
Proof.
  intros (Hnd & Hlen & _) (before & r0 & after & Hl & Hks).
  unfold lru_keys in Hnd. rewrite Hl in Hnd, Hlen.
  rewrite map_app in Hnd. simpl in Hnd.
  apply NoDup_app in Hnd as (_ & _ & [_ Hnda]%NoDup_cons).
  rewrite length_app in Hlen. simpl in Hlen.
  assert (size (list_to_set ks : gset K) ≤ length after); [|lia].
  rewrite <- (length_map fst after).
  rewrite <- (size_list_to_set (C := gset K) (map fst after)) by done.
  apply subseteq_size. intros x Hx%elem_of_list_to_set.
  apply elem_of_list_to_set. by apply Hks.
Qed.
End lru_eviction.

Section eviction.
Context `{Collaborators}.
Implicit Types (exts key : list string) (w : World) (res : Model * FieldInfo).

Lemma composes_true k : composes k = true ↔ exists fields, (extension_fields k []).2 = Ok fields.
Proof.
  unfold composes. destruct (extension_fields k []).2; split; eauto; try done.
  by intros [? ?].
Qed.

Lemma factory_newer key k w ks :
  world_inv w → k ≠ key → pushed w key ks →
  pushed (_extension_model_factory k w).2 key (if composes k then k :: ks else ks).
Proof.
  intros Hinv Hne Hst.
  destruct (_extension_model_factory k w) as [[log r] w'] eqn:Hcall. simpl.
  destruct (composes k) eqn:Hk.
  - apply composes_true in Hk as (fields & Hok).
    destruct (factory_returns _ _ _ Hinv Hok) as (log' & id & w'' & Hcall' & _).
    rewrite Hcall in Hcall'. injection Hcall' as -> -> ->.
    apply factory_wrapper in Hcall. destruct Hst as [Hnone|Hnew].
    + left. by eapply wrapper_other_key.
    + destruct Hinv as (Hwf & _ & _).
      exact (wrapper_newer extension_model key k _ _ _ _ _ _ ks Hwf Hne Hnew Hcall).
  - destruct (extension_fields k []).2 as [fields|e] eqn:Hloop.
    { unfold composes in Hk. by rewrite Hloop in Hk. }
    rewrite (factory_raise _ _ _ Hinv Hloop) in Hcall. by injection Hcall as _ _ <-.
Qed.

Lemma exec_newer key c w ks :
  world_inv w → requested_key c ≠ Some key → pushed w key ks →
  pushed (exec w c) key
    (match requested_key c with
     | Some k => if composes k then k :: ks else ks
     | None => ks
     end).
Proof.
  intros Hinv Hreq Hst. destruct c as [k|item]; simpl in *.
  - apply factory_newer; [done| |done]. congruence.
  - unfold declared_extensions in *. unfold item_factory.
    destruct (truthy _); [|done].
    destruct (tuple_of _) as [k|e]; [|done].
    assert (Hne : k ≠ key) by congruence.
    pose proof (factory_newer key k w ks Hinv Hne Hst) as Hstep.
    destruct (_extension_model_factory k w) as [[log [props|e]] w']; done.
Qed.

Lemma run_newer key calls :
  key ∉ omap requested_key calls →
  ∀ w ks, world_inv w → pushed w key ks →
    exists ks', pushed (run calls w) key ks' ∧
                ∀ x, x ∈ ks ∨ x ∈ composed_requests calls → x ∈ ks'.
Proof.
  unfold composed_requests.
  induction calls as [|c calls IH]; intros Hkey w ks Hinv Hst.
  - exists ks. split; [done|]. intros x [?|Hx]; [done|]. by apply elem_of_nil in Hx.
  - simpl in Hkey |- *.
    assert (Hc : requested_key c ≠ Some key).
    { intros Hc. rewrite Hc in Hkey. apply Hkey. by apply elem_of_cons; left. }
    assert (Hrest : key ∉ omap requested_key calls).
    { intros Hin. apply Hkey. destruct (requested_key c); [by apply elem_of_cons; right|done]. }
    pose proof (exec_newer key c w ks Hinv Hc Hst) as Hstep.
    destruct (IH Hrest _ _ (exec_inv _ c Hinv) Hstep) as (ks' & Hfin & Hsub).
    exists ks'. split; [done|]. intros x Hx. apply Hsub.
    destruct (requested_key c) as [k|]; [|tauto].
    destruct Hx as [Hx|Hx].
    + left. destruct (composes k); [by apply elem_of_cons; right|done].
    + destruct (composes k) eqn:Hk.
      * rewrite filter_cons_True in Hx by done.
        apply elem_of_cons in Hx as [->|Hx]; [left; by apply elem_of_cons; left | by right].
      * rewrite filter_cons_False in Hx by (by rewrite Hk). by right.
Qed.

(** X26. A cached schema is evicted once 128 distinct other sequences
    have been composed since its last use: after a call for a sequence
    has returned, calls that never ask for it but ask for at least 128
    distinct sequences the loop accepts leave it out of the cache.
    Requests that raise do not count. *)
Theorem cache_entry_evicted w key log res w1 calls :
  reachable w →
  _extension_model_factory key w = (log, Ok res, w1) →
  key ∉ omap requested_key calls →
  maxsize ≤ size (list_to_set (composed_requests calls) : gset (list string)) →
  cached key (run calls w1) = None.
Proof.
  intros Hinv%reachable_inv Hcall Hkey Hsize.
  pose proof (factory_inv _ _ _ _ _ Hinv Hcall) as Hinv1.
  pose proof Hcall as Hw%factory_wrapper.
  destruct (wrapper_newest _ _ _ _ _ _ _ _ Hw) as (l & Hl).
  destruct (run_newer key calls Hkey w1 [] Hinv1) as (ks' & [Hnone|Hnew] & Hsub).
  { right. exists l, res, []. split; [done|]. by intros x ?%elem_of_nil. }
  - done.
  - exfalso. destruct (run_inv calls _ Hinv1) as (Hwf & _ & _).
    pose proof (newer_than_bound _ _ _ Hwf Hnew) as Hlt.
    assert (size (list_to_set (composed_requests calls) : gset (list string)) ≤
            size (list_to_set ks' : gset (list string))); [|lia].
    apply subseteq_size. intros x Hx%elem_of_list_to_set.
    apply elem_of_list_to_set, Hsub. by right.
Qed.

End eviction.

(** ** Records: required and optional fields, nesting, extras *)

(** ** Plain data through a record and back *)

(** Induction on raw data, through the lists and mappings it nests. *)
Lemma json_nested_ind (P : json → Prop) :
  P JNull → (∀ b, P (JBool b)) → (∀ z, P (JInt z)) → (∀ s, P (JStr s)) →
  (∀ l, Forall P l → P (JList l)) →
  (∀ d, Forall (λ kv, P kv.2) d → P (JDict d)) →
  ∀ j, P j.
Proof.
  intros Hnull Hbool Hint Hstr Hlist Hdict.
  fix IH 1. intros [|b|z|s|l|d]; [done..| |].
  - apply Hlist. induction l as [|x l IHl]; constructor; [apply IH | exact IHl].
  - apply Hdict. induction d as [|[k x] d IHd]; constructor; [apply IH | exact IHd].
Qed.

(** A value kept as it came is exported as it came. *)
Lemma of_json_export by_alias exclude_unset j :
  get_value by_alias exclude_unset (of_json j) = j.
Proof.
  induction j as [| | | |l IH|d IH] using json_nested_ind; simpl; try done.
  - f_equal. induction IH as [|x l Hx _ IHl]; simpl; [done|]. by rewrite Hx, IHl.
  - f_equal. induction IH as [|[k x] d Hx _ IHd]; simpl in *; [done|]. by rewrite Hx, IHd.
Qed.

(** ** More on dictionaries *)

Lemma keys_set_in {V : Type} k (v : V) d :
  k ∈ Dict.keys d → Dict.keys (Dict.set k v d) = Dict.keys d.
Proof.
  induction d as [|[k' v'] d IH]; simpl; [by intros ?%elem_of_nil|].
  destruct (String.eqb_spec k k') as [->|Hne]; simpl; [done|].
  intros [?|Hin]%elem_of_cons; [done|]. by rewrite IH.
Qed.

Lemma keys_update_in {V : Type} (d other : dict V) :
  (∀ k, k ∈ Dict.keys other → k ∈ Dict.keys d) →
  Dict.keys (Dict.update d other) = Dict.keys d.
Proof.
  revert d. induction other as [|[k v] other IH]; intros d Hsub; [done|].
  rewrite DictFacts.update_cons.
  assert (Hk : k ∈ Dict.keys d) by (apply Hsub; simpl; by apply elem_of_cons; left).
  rewrite IH, keys_set_in; [done..|].
  intros k' Hk'. rewrite keys_set_in by done. apply Hsub. simpl. by apply elem_of_cons; right.
Qed.

(** Two dictionaries with the same keys in the same order and the same
    value under each key are one. *)
Lemma dict_ext {V : Type} (d1 d2 : dict V) :
  Dict.keys d1 = Dict.keys d2 → NoDup (Dict.keys d1) →
  (∀ k, Dict.get k d1 = Dict.get k d2) → d1 = d2.
Proof.
  revert d2. induction d1 as [|[k v] d1 IH]; intros [|[k' v'] d2]; simpl; try done.
  intros [= <- Hkeys] [Hk Hnd]%NoDup_cons Hget.
  pose proof (Hget k) as Hv. rewrite DictFacts.eqb_refl in Hv. injection Hv as <-.
  f_equal. apply IH; [done..|]. intros k0.
  destruct (decide (k0 = k)) as [->|Hne].
  - transitivity (@None V); [|symmetry]; apply DictFacts.get_None; [done|by rewrite <- Hkeys].
  - pose proof (Hget k0) as Hk0. by rewrite DictFacts.eqb_ne in Hk0.
Qed.

(** Writing a dictionary with the same keys over another leaves the one
    written. *)
Lemma update_same_keys {V : Type} (d other : dict V) :
  Dict.keys other = Dict.keys d → NoDup (Dict.keys d) → Dict.update d other = other.
Proof.
  intros Hkeys Hnd. apply dict_ext.
  - rewrite keys_update_in; [done|]. intros k. by rewrite Hkeys.
  - apply DictFacts.NoDup_update, Hnd.
  - intros k. destruct (Dict.get k other) as [v|] eqn:Hk.
    + apply DictFacts.get_update_Some; [by rewrite Hkeys | done].
    + rewrite DictFacts.get_update_None by done.
      apply DictFacts.get_None. rewrite <- Hkeys. by apply DictFacts.get_None.
Qed.

Lemma map_set {V W : Type} (g : string → V → W) k v (d : dict V) :
  map (λ nf, (nf.1, g nf.1 nf.2)) (Dict.set k v d) =
  Dict.set k (g k v) (map (λ nf, (nf.1, g nf.1 nf.2)) d).
Proof.
  induction d as [|[k' v'] d IH]; simpl; [done|].
  destruct (String.eqb k k'); simpl; [done|]. by rewrite IH.
Qed.

(** ** Decomposing a class and building it again *)

Lemma infer_decompose n f : canonical f → infer n (decompose_field f) = f.
Proof.
  unfold canonical. destruct f as [a t r d c]; simpl.
  unfold infer, decompose_field; simpl. destruct r; simpl; [|done].
  intros ->; done.
Qed.

Lemma infer_decompose_model m :
  Forall (λ nf, canonical nf.2) (cls_fields m) →
  map (λ nd, (nd.1, infer nd.1 nd.2)) (decompose_model m) = cls_fields m.
Proof.
  unfold decompose_model. induction 1 as [|[n f] l Hf _ IH]; simpl; [done|].
  by rewrite infer_decompose, IH.
Qed.

(** ** More on [validate_model] *)

Section validation_more.
Variable validate_type : PyType → json → option pyval.
Implicit Types (m : Model) (raw : dict json) (i : instance).

Local Abbreviation check_extra m :=
  (match cls_extra m with ExtraIgnore => false | _ => true end).

(** One required field that is absent rejects the document. *)
Lemma validate_model_missing m raw n f :
  Dict.get n (cls_fields m) = Some f → mf_required f = true →
  Dict.get (mf_alias f) raw = None →
  (mf_alias f, MissingError) ∈ errors (validate_model validate_type m raw).
Proof.
  intros Hf Hreq Hraw. apply DictFacts.get_Some_elem in Hf.
  apply list_elem_of_split in Hf as (l1 & l2 & Hl).
  unfold validate_model. rewrite Hl, fold_left_app.
  set (st := fold_left _ l1 _).
  change (fold_left ?s ((n, f) :: l2) st) with (fold_left s l2 (s st (n, f))).
  destruct (extra_errors_grow raw (cls_extra m)
              (fold_left (validate_step validate_type (check_extra m) raw) l2
                 (validate_step validate_type (check_extra m) raw st (n, f))))
    as (es2 & ->).
  destruct (fold_errors validate_type (check_extra m) raw l2
              (validate_step validate_type (check_extra m) raw st (n, f)))
    as (es1 & ->).
  destruct (step_cases validate_type (check_extra m) raw st (n, f)) as
    [(Hg & _ & Heq)|[(Hg & Hr & _)|[(? & e' & Hg & _)|(? & ? & Hg & _)]]];
    simpl in *; simplify_eq; [|congruence].
  rewrite Heq. simpl. rewrite !elem_of_app, list_elem_of_singleton. tauto.
Qed.

(** A document with a reported field raises. *)
Lemma construct_rejects m raw a e :
  (a, e) ∈ errors (validate_model validate_type m raw) →
  exists es, construct validate_type m raw = Raise (ValidationError es) ∧ (a, e) ∈ es.
Proof.
  intros Hin. eexists. split; [|exact Hin]. apply construct_Raise.
  intros Hnil. rewrite Hnil in Hin. by apply elem_of_nil in Hin.
Qed.

(** The loop leaves alone the names it has not come to. *)
Lemma fold_value_other ce raw l st n :
  n ∉ Dict.keys l →
  Dict.get n (values (fold_left (validate_step validate_type ce raw) l st)) =
  Dict.get n (values st).
Proof.
  revert st. induction l as [|nf l IH]; intros st; simpl; [done|].
  intros [Hne Hn]%not_elem_of_cons. rewrite IH by done.
  destruct (step_cases validate_type ce raw st nf) as
    [(_ & _ & ->)|[(_ & _ & ->)|[(? & ? & _ & _ & ->)|(? & ? & _ & _ & ->)]]];
    simpl; rewrite ?DictFacts.get_set_ne by congruence; done.
Qed.

(** The value a field that is not supplied ends up with: its default. *)
Lemma fold_default_get ce raw l st n f :
  NoDup (Dict.keys l) → (n, f) ∈ l →
  Dict.get (mf_alias f) raw = None →
  errors (fold_left (validate_step validate_type ce raw) l st) = [] →
  mf_required f = false ∧
  Dict.get n (values (fold_left (validate_step validate_type ce raw) l st)) =
  Some (of_json (mf_default f)).
Proof.
  revert st. induction l as [|[n0 f0] l IH]; intros st Hnd Hin Hraw Herr.
  - by apply elem_of_nil in Hin.
  - simpl in Hnd. apply NoDup_cons in Hnd as [Hn0 Hnd].
    apply elem_of_cons in Hin as [Heq|Hin]; [|by eapply IH].
    injection Heq as <- <-. simpl in Herr |- *.
    pose proof (fold_errors_nil _ _ _ _ _ Herr) as Herr0.
    rewrite fold_value_other by done.
    destruct (step_cases validate_type ce raw st (n, f)) as
      [(Hg & _ & Heq)|[(Hg & Hr & Heq)|[(? & e' & Hg & _)|(? & v_ & Hg & _)]]];
      simpl in *; simplify_eq.
    + rewrite Heq in Herr0. simpl in Herr0. by apply app_eq_nil in Herr0 as [_ ?].
    + split; [done|]. rewrite Heq. simpl. apply DictFacts.get_set_eq.
Qed.

(** The names the loop binds are field names. *)
Lemma fold_values_keys ce raw l st x :
  x ∈ Dict.keys (values (fold_left (validate_step validate_type ce raw) l st)) →
  x ∈ Dict.keys (values st) ∨ x ∈ Dict.keys l.
Proof.
  revert st. induction l as [|nf l IH]; intros st; simpl; [by left|].
  intros [Hx|Hx]%IH; [|right; by apply elem_of_cons; right].
  destruct (step_cases validate_type ce raw st nf) as
    [(_ & _ & Heq)|[(_ & _ & Heq)|[(? & ? & _ & _ & Heq)|(? & ? & _ & _ & Heq)]]];
    rewrite Heq in Hx; simpl in Hx; [by left| |by left|].
  all: apply DictFacts.keys_set in Hx as [->|?]; [right; by apply elem_of_cons; left | by left].
Qed.
End validation_more.

Section extras_more.
Variable input_data : dict json.

Local Abbreviation keep :=
  (λ vals f, match Dict.get f input_data with
             | Some x => Dict.set f (of_json x) vals
             | None => vals
             end).

(** A kept key holds what the document gives under it. *)
Lemma keep_get_in ks (vals : dict pyval) k v :
  k ∈ ks → Dict.get k input_data = Some v →
  Dict.get k (fold_left keep ks vals) = Some (of_json v).
Proof.
  intros Hin Hv. revert vals. induction ks as [|k0 ks IH]; intros vals;
    [by apply elem_of_nil in Hin|].
  simpl. destruct (decide (k ∈ ks)) as [Hk|Hk]; [by apply IH|].
  apply elem_of_cons in Hin as [<-|?]; [|done].
  rewrite keep_get by done. rewrite Hv. apply DictFacts.get_set_eq.
Qed.

Lemma keep_keys ks (vals : dict pyval) x :
  x ∈ Dict.keys (fold_left keep ks vals) → x ∈ Dict.keys vals ∨ x ∈ ks.
Proof.
  revert vals. induction ks as [|k0 ks IH]; intros vals; simpl; [by left|].
  intros [Hx|Hx]%IH; [|right; by apply elem_of_cons; right].
  destruct (Dict.get k0 input_data); [|by left].
  apply DictFacts.keys_set in Hx as [->|?]; [right; by apply elem_of_cons; left | by left].
Qed.

Lemma keep_keys_mono ks (vals : dict pyval) x :
  x ∈ Dict.keys vals → x ∈ Dict.keys (fold_left keep ks vals).
Proof.
  revert vals. induction ks as [|k0 ks IH]; intros vals; simpl; [done|].
  intros Hx. apply IH. destruct (Dict.get k0 input_data); [|done].
  apply DictFacts.keys_set. by right.
Qed.

Lemma extra_values_mono extra st x :
  x ∈ Dict.keys (values st) →
  x ∈ Dict.keys (values (validate_extra extra input_data st)).
Proof. destruct extra; simpl; [done| |done]. apply keep_keys_mono. Qed.

(** The names the tail adds are keys of the document no field consumed,
    and only under [allow]. *)
Lemma extra_values_keys extra st x :
  x ∈ Dict.keys (values (validate_extra extra input_data st)) →
  x ∈ Dict.keys (values st) ∨
  (extra = ExtraAllow ∧ x ∈ Dict.keys input_data ∧ x ∉ names_used st).
Proof.
  destruct extra; simpl; [by left| |by left].
  intros [?|Hx]%keep_keys; [by left|]. apply extra_keys_elem in Hx. by right.
Qed.

Lemma extra_kept st k v :
  Dict.get k input_data = Some v → k ∉ names_used st →
  Dict.get k (values (validate_extra ExtraAllow input_data st)) = Some (of_json v) ∧
  k ∈ fields_set (validate_extra ExtraAllow input_data st).
Proof.
  intros Hv Hk. simpl.
  assert (Hin : k ∈ extra_keys input_data (names_used st)).
  { apply extra_keys_elem. split; [|done]. apply DictFacts.get_is_Some. by rewrite Hv. }
  split; [by apply keep_get_in|]. apply elem_of_union. left. by apply elem_of_list_to_set.
Qed.
End extras_more.

Section instance_facts.
Variable validate_other : string → json → option pyval.
Implicit Types (m : Model) (raw : dict json) (i : instance).

Local Abbreviation vt := (validate_type validate_other).

Lemma aliases_elem m a :
  a ∈ aliases m ↔ exists n f, (n, f) ∈ cls_fields m ∧ mf_alias f = a.
Proof.
  unfold aliases. change (map ?g ?l) with (g <$> l). rewrite list_elem_of_fmap. split.
  - intros ([n f] & -> & Hin). by exists n, f.
  - intros (n & f & Hin & <-). by exists (n, f).
Qed.

(** The entry of a validated record for a field the document supplies
    under the field's own name. *)
Lemma supplied_value m raw i n f v :
  wf_model m → validate validate_other m raw = Ok i →
  Dict.get n (cls_fields m) = Some f → mf_alias f = n →
  Dict.get n raw = Some v →
  exists x, validate_field vt f v = inr x ∧
            Dict.get n (inst_dict i) = Some x ∧ n ∈ inst_fields_set i.
Proof.
  intros Hwf [Herr ->]%construct_Ok Hfld Halias Hraw.
  set (ce := match cls_extra m with ExtraIgnore => false | _ => true end).
  unfold validate_model in *. fold ce in Herr |- *.
  set (st1 := fold_left (validate_step vt ce raw) (cls_fields m)
                (mkValidation [] ∅ ∅ [])) in *.
  pose proof (extra_errors_nil _ _ _ Herr) as Herr1.
  pose proof (DictFacts.get_Some_elem _ _ _ Hfld) as Hin.
  rewrite <- Halias in Hraw.
  destruct (fold_value_get vt ce raw (cls_fields m) (mkValidation [] ∅ ∅ [])
              n f v Hwf Hin Hraw Herr1) as (x & Hx & Hget).
  fold st1 in Hget. exists x. split_and!; [done|..]; simpl.
  - rewrite <- Hget. destruct (cls_extra m) eqn:Hex; [done| |done].
    apply extra_values_get. left. apply fold_names_used. right.
    split_and!; [done | | by rewrite <- Halias, Hraw].
    rewrite <- Halias. apply list_elem_of_fmap. by exists (n, f).
  - apply extra_fields_set_mono, fold_fields_set. right.
    exists f. split; [done|]. by rewrite Hraw.
Qed.

(** The entry of a validated record for a field the document does not
    supply: the default, and not among the fields set. *)
Lemma absent_value m raw i n f :
  wf_model m → validate validate_other m raw = Ok i →
  Dict.get n (cls_fields m) = Some f → mf_alias f = n →
  Dict.get n raw = None →
  mf_required f = false ∧
  Dict.get n (inst_dict i) = Some (of_json (mf_default f)) ∧ n ∉ inst_fields_set i.
Proof.
  intros Hwf [Herr ->]%construct_Ok Hfld Halias Hraw.
  set (ce := match cls_extra m with ExtraIgnore => false | _ => true end).
  unfold validate_model in *. fold ce in Herr |- *.
  set (st1 := fold_left (validate_step vt ce raw) (cls_fields m)
                (mkValidation [] ∅ ∅ [])) in *.
  pose proof (extra_errors_nil _ _ _ Herr) as Herr1.
  pose proof (DictFacts.get_Some_elem _ _ _ Hfld) as Hin.
  pose proof Hraw as Hnone%DictFacts.get_None.
  rewrite <- Halias in Hraw.
  destruct (fold_default_get vt ce raw (cls_fields m) (mkValidation [] ∅ ∅ [])
              n f Hwf Hin Hraw Herr1) as (Hreq & Hget).
  fold st1 in Hget. split_and!; [done|..]; simpl.
  - rewrite <- Hget. apply extra_values_get. by right.
  - intros [Hset|[? _]]%extra_fields_set; [|done].
    apply fold_fields_set in Hset as [Hset|(f' & Hf' & Hsome)]; [set_solver|].
    apply (DictFacts.elem_get _ _ _ Hwf) in Hf'. simplify_eq.
    rewrite Hraw in Hsome. by destruct Hsome.
Qed.

(** What a record exports for a supplied field whose key no other entry
    is emitted under. *)
Lemma export_value m raw i n f v :
  wf_model m → validate validate_other m raw = Ok i →
  Dict.get n (cls_fields m) = Some f → mf_alias f = n →
  (∀ n' f', (n', f') ∈ cls_fields m → mf_alias f' = n → n' = n) →
  Dict.get n raw = Some v →
  exists x, validate_field vt f v = inr x ∧
            Dict.get n (to_dict i) = Some (get_value true true x).
Proof.
  intros Hwf Hval Hfld Halias Huniq Hraw.
  destruct (supplied_value _ _ _ _ _ _ Hwf Hval Hfld Halias Hraw) as (x & Hx & Hget & Hset).
  exists x. split; [done|].
  apply construct_Ok in Hval as [Herr ->]. simpl in Hget, Hset.
  apply (to_dict_get _ n x); simpl; [|done|done| |].
  - apply extra_values_NoDup, fold_values_NoDup. simpl. apply NoDup_nil_2.
  - unfold dict_key. by rewrite Hfld.
  - intros n' _. unfold dict_key.
    destruct (Dict.get n' (cls_fields m)) as [f'|] eqn:Hf'; [|done].
    intros Ha. eapply Huniq; [|exact Ha]. by apply DictFacts.get_Some_elem.
Qed.
End instance_facts.

Section records_more.
Context `{Collaborators}.
Implicit Types (m base : Model) (raw : dict json) (i : instance).

Local Abbreviation vt := (validate_type validate_other).

Lemma canonical_infer n fd : canonical (infer n fd).
Proof. unfold canonical, infer. simpl. by destruct (fi_default fd.2). Qed.

Lemma new_model_plain id name base defs :
  plain_class base → Forall (λ nd : string * FieldDef, fi_alias nd.2.2 = None) defs →
  plain_class (new_model id name base None defs).
Proof.
  intros [Hwf Hbase] Hdefs. split; [by apply new_model_wf|].
  apply Forall_forall. intros [n f] Hin. rewrite new_model_fields in Hin.
  apply elem_update in Hin as [Hin|Hin].
  - rewrite Forall_forall in Hbase. by apply (Hbase (n, f)).
  - apply list_elem_of_fmap in Hin as ([n' fd] & [= -> ->] & Hin).
    rewrite Forall_forall in Hdefs. pose proof (Hdefs _ Hin) as Ha. simpl in *.
    split; [|apply canonical_infer]. unfold infer. simpl. by rewrite Ha.
Qed.

Lemma record_plain m base : record_class m base → plain_class base → plain_class m.
Proof.
  intros [[-> ->]|[-> ->]] Hbase; apply new_model_plain; try done;
    repeat constructor.
Qed.

Lemma plain_alias m n f : plain_class m → (n, f) ∈ cls_fields m → mf_alias f = n.
Proof. intros [_ Hall] Hin. rewrite Forall_forall in Hall. by apply (Hall (n, f)). Qed.

Lemma plain_get m n f : plain_class m → Dict.get n (cls_fields m) = Some f → mf_alias f = n.
Proof. intros Hp Hg. eapply plain_alias; [done|]. by apply DictFacts.get_Some_elem. Qed.

Lemma plain_unique m n n' f' :
  plain_class m → (n', f') ∈ cls_fields m → mf_alias f' = n → n' = n.
Proof. intros Hp Hin <-. symmetry. by eapply plain_alias. Qed.

(** The fields the record classes declare, as the metaclass builds
    them. *)
Lemma Item_field k fd :
  Dict.get k
    [ ("id", (TStr, annotation_only));
      ("stac_version", (TStr, Field (Value (JStr STAC_VERSION)) true None));
      ("properties", (TModel ItemProperties, annotation_only));
      ("assets", (TOther "Dict[str, Asset]", annotation_only));
      ("links", (TList (TOther "Link"), annotation_only));
      ("bbox", (TOther "BBox", annotation_only));
      ("stac_extensions",
        (TOptional (TList (TOther "Union[str, ExtensionTypes]")), annotation_only));
      ("collection", (TOptional TStr, annotation_only)) ] = Some fd →
  Dict.get k (cls_fields Item) = Some (infer k fd).
Proof. intros Hk. unfold Item. apply new_model_get; [|done]. apply NoDup_keys_decide. reflexivity. Qed.

Lemma ItemCollection_field k fd :
  Dict.get k
    [ ("stac_version", (TStr, Field (Value (JStr STAC_VERSION)) true None));
      ("features", (TList (TModel Item), annotation_only));
      ("stac_extensions", (TOptional (TList (TOther "ExtensionTypes")), annotation_only));
      ("links", (TList (TOther "Union[PaginationLink, Link]"), annotation_only));
      ("context", (TOptional (TOther "ContextExtension"), annotation_only)) ] = Some fd →
  Dict.get k (cls_fields ItemCollection) = Some (infer k fd).
Proof.
  intros Hk. unfold ItemCollection. apply new_model_get; [|done].
  apply NoDup_keys_decide. reflexivity.
Qed.

Lemma required_key_field m k :
  required_key m k →
  exists f, Dict.get k (cls_fields m) = Some f ∧ mf_alias f = k ∧
            mf_required f = true ∧ allow_none f = false.
Proof.
  intros [[-> ->]|[[-> Hk]|[-> Hk]]].
  - eexists. split; [reflexivity|done].
  - repeat (apply elem_of_cons in Hk as [-> | Hk];
            [eexists; split; [by apply Item_field|done]|]).
    by apply elem_of_nil in Hk.
  - repeat (apply elem_of_cons in Hk as [-> | Hk];
            [eexists; split; [by apply ItemCollection_field|done]|]).
    by apply elem_of_nil in Hk.
Qed.

Lemma optional_key_field m k :
  optional_key m k →
  exists f, Dict.get k (cls_fields m) = Some f ∧ mf_alias f = k ∧
            mf_required f = false ∧ mf_default f = JNull ∧ mf_const f = false ∧
            is_optional (mf_type f) = true.
Proof.
  intros [[-> Hk]|[-> Hk]].
  - repeat (apply elem_of_cons in Hk as [-> | Hk];
            [eexists; split; [by apply Item_field|done]|]).
    by apply elem_of_nil in Hk.
  - repeat (apply elem_of_cons in Hk as [-> | Hk];
            [eexists; split; [by apply ItemCollection_field|done]|]).
    by apply elem_of_nil in Hk.
Qed.

(** X10. The fields a class declares without a default must be there and
    must not be [None]: a document that leaves one out is rejected with
    a report that the field is missing, and a document that gives [None]
    for one with a report that [None] is not allowed. *)
Theorem required_field_enforced m k raw :
  required_key m k →
  (Dict.get k raw = None →
   exists es, validate validate_other m raw = Raise (ValidationError es) ∧
              (k, MissingError) ∈ es) ∧
  (Dict.get k raw = Some JNull →
   exists es, validate validate_other m raw = Raise (ValidationError es) ∧
              (k, NoneIsNotAllowedError) ∈ es).
Proof.
  intros (f & Hf & Ha & Hreq & Hnone)%required_key_field. split; intros Hraw.
  - apply construct_rejects. rewrite <- Ha.
    eapply validate_model_missing; [exact Hf | done | by rewrite Ha].
  - apply construct_rejects. rewrite <- Ha.
    eapply validate_model_rejects; [exact Hf | by rewrite Ha |].
    unfold validate_field. by rewrite Hnone.
Qed.

(** X11. One feature that is no valid item makes the whole collection
    invalid: the collection is rejected with a report on [features]. *)
Theorem collection_rejects_invalid_feature raw l d :
  Dict.get "features" raw = Some (JList l) →
  JDict d ∈ l →
  (∀ i, validate validate_other Item d ≠ Ok i) →
  exists es, validate validate_other ItemCollection raw = Raise (ValidationError es) ∧
             ("features", InvalidError) ∈ es.
Proof.
  intros Hraw Hin Hbad. apply construct_rejects.
  pose proof (ItemCollection_field "features" _ eq_refl) as Hf.
  apply (validate_model_rejects vt ItemCollection raw _ _ (JList l) InvalidError Hf Hraw).
  unfold validate_field. simpl.
  match goal with |- context [mapM ?g l] => assert (mapM g l = None) as -> end; [|done].
  apply mapM_None, Exists_exists. exists (JDict d). split; [done|].
  change (construct vt Item d) with (validate validate_other Item d).
  destruct (validate validate_other Item d) as [i|e] eqn:Hv; [|done]. by destruct (Hbad i).
Qed.

End records_more.

Section records_export.
Context `{Collaborators}.
Implicit Types (m base : Model) (raw : dict json) (i : instance).

Local Abbreviation vt := (validate_type validate_other).

Lemma Item_plain : plain_class Feature → plain_class Item.
Proof. apply record_plain. by left. Qed.

Lemma ItemCollection_plain : plain_class FeatureCollection → plain_class ItemCollection.
Proof. apply record_plain. by right. Qed.

(** The validated items behind a list of raw features. *)
Lemma features_validated ds xs :
  mapM (vt (TModel Item)) (map JDict ds) = Some xs →
  exists items,
    Forall2 (λ d it, validate validate_other Item d = Ok it) ds items ∧
    xs = map inst_val items.
Proof.
  revert xs. induction ds as [|d ds IH]; intros xs Hxs.
  - injection Hxs as <-. by exists [].
  - apply mapM_Some in Hxs. apply Forall2_cons_inv_l in Hxs as (x & xs' & Hx & Hxs & ->).
    apply mapM_Some in Hxs. destruct (IH _ Hxs) as (items & Hall & ->).
    simpl in Hx. change (construct vt Item d) with (validate validate_other Item d) in Hx.
    destruct (validate validate_other Item d) as [it|e] eqn:Hv; [|done].
    injection Hx as <-. exists (it :: items). split; [by constructor|done].
Qed.

(** What the field of a nested schema accepts: a mapping the schema
    validates, as the record it validates to. *)
Lemma properties_field_validate m p x :
  validate_field vt (properties_field m) (JDict p) = inr x →
  exists pi, validate validate_other m p = Ok pi ∧ x = inst_val pi.
Proof.
  unfold validate_field, properties_field, validate, constant_validator.
  cbn [mf_type mf_const validate_type andb].
  destruct (construct vt m p) as [pi|e]; [|done].
  intros [= <-]. by exists pi.
Qed.

(** X12. The properties of a validated item are exported by the rules
    of the item itself: what [to_dict] gives under [properties] is the
    [to_dict] of the record the properties object validated to, under
    aliases and without the fields that were not supplied. *)
Theorem item_properties_exported raw i p :
  plain_class Feature →
  validate validate_other Item raw = Ok i →
  Dict.get "properties" raw = Some (JDict p) →
  exists pi,
    validate validate_other ItemProperties p = Ok pi ∧
    Dict.get "properties" (to_dict i) = Some (JDict (to_dict pi)).
Proof.
  intros Hplain%Item_plain Hval Hraw.
  destruct (export_value validate_other Item raw i "properties" _ (JDict p)
              (proj1 Hplain) Hval Item_properties eq_refl
              (λ n' f', plain_unique Item "properties" n' f' Hplain) Hraw)
    as (x & Hx & Hget).
  apply properties_field_validate in Hx as (pi & Hpi & ->). by exists pi.
Qed.

(** X13. The features of a validated collection are exported one by
    one, in order, each as the [to_dict] of the item it validated to. *)
Theorem collection_features_exported raw c ds :
  plain_class FeatureCollection →
  validate validate_other ItemCollection raw = Ok c →
  Dict.get "features" raw = Some (JList (map JDict ds)) →
  exists items,
    Forall2 (λ d it, validate validate_other Item d = Ok it) ds items ∧
    Dict.get "features" (to_dict c) =
    Some (JList (map (λ it, JDict (to_dict it)) items)).
Proof.
  intros Hplain%ItemCollection_plain Hval Hraw.
  destruct (export_value validate_other ItemCollection raw c "features" _ _
              (proj1 Hplain) Hval (ItemCollection_field "features" _ eq_refl) eq_refl
              (λ n' f', plain_unique ItemCollection "features" n' f' Hplain) Hraw)
    as (x & Hx & Hget).
  unfold validate_field in Hx. simpl in Hx.
  match type of Hx with context [mapM ?g ?l] =>
    change (mapM g l) with (mapM (vt (TModel Item)) (map JDict ds)) in Hx;
    destruct (mapM (vt (TModel Item)) (map JDict ds)) as [xs|] eqn:Hxs; [|done]
  end.
  destruct (features_validated _ _ Hxs) as (items & Hall & ->).
  injection Hx as <-. exists items. split; [done|].
  rewrite Hget. simpl. do 2 f_equal. by rewrite map_map.
Qed.

(** X14. The identifier of an item is exported as text: a string as it
    was given, a number as its decimal text. *)
Theorem id_exported_as_text raw i v :
  plain_class Feature →
  validate validate_other Item raw = Ok i →
  Dict.get "id" raw = Some v →
  exists s,
    str_validator v = Some (PStr s) ∧ v ≠ JNull ∧
    Dict.get "id" (to_dict i) = Some (JStr s).
Proof.
  intros Hplain%Item_plain Hval Hraw.
  destruct (export_value validate_other Item raw i "id" _ v
              (proj1 Hplain) Hval (Item_field "id" _ eq_refl) eq_refl
              (λ n' f', plain_unique Item "id" n' f' Hplain) Hraw)
    as (x & Hx & Hget).
  unfold validate_field in Hx.
  destruct v as [|b|z|s|l|d]; simpl in Hx; try done; injection Hx as <-; eauto.
Qed.

(** X15. An [Optional] field without a default holds [None] when the
    document leaves it out and when the document gives [None]; the
    export tells the two apart, leaving out the field in the first case
    and giving [None] in the second. *)
Theorem optional_field_none m base k raw i :
  record_class m base → plain_class base → optional_key m k →
  validate validate_other m raw = Ok i →
  (Dict.get k raw = None →
   Dict.get k (inst_dict i) = Some PNone ∧ Dict.get k (to_dict i) = None) ∧
  (Dict.get k raw = Some JNull →
   Dict.get k (inst_dict i) = Some PNone ∧ Dict.get k (to_dict i) = Some JNull).
Proof.
  intros Hrec Hbase (f & Hf & Ha & Hreq & Hdef & Hconst & Hopt)%optional_key_field Hval.
  pose proof (record_plain _ _ Hrec Hbase) as Hplain.
  split; intros Hraw.
  - destruct (absent_value validate_other m raw i k f (proj1 Hplain) Hval Hf Ha Hraw)
      as (_ & Hget & Hset).
    rewrite Hdef in Hget. split; [done|].
    apply DictFacts.get_None. intros (n & Hn & Hn' & Hk)%to_dict_keys.
    apply construct_Ok in Hval as [_ ->]. simpl in *.
    assert (n = k) as ->; [|done].
    unfold dict_key in Hk. destruct (Dict.get n (cls_fields m)) as [f'|] eqn:Hf'; [|done].
    symmetry. rewrite <- Hk. by eapply plain_get.
  - destruct (supplied_value validate_other m raw i k f JNull (proj1 Hplain) Hval Hf Ha Hraw)
      as (x & Hx & Hget & Hset).
    destruct (export_value validate_other m raw i k f JNull (proj1 Hplain) Hval Hf Ha
                (λ n' f', plain_unique m k n' f' Hplain) Hraw) as (x' & Hx' & Hexp).
    assert (x' = x) as -> by congruence.
    unfold validate_field, allow_none, constant_validator in Hx.
    rewrite Hopt, Hconst in Hx. simpl in Hx. injection Hx as <-. done.
Qed.

End records_export.

Section records_keys.
Context `{Collaborators}.
Implicit Types (m base : Model) (raw : dict json) (i : instance).

Local Abbreviation vt := (validate_type validate_other).

Lemma record_extra m base : record_class m base → cls_extra m = cls_extra base.
Proof. by intros [[-> ->]|[-> ->]]. Qed.

(** No key is consumed but an alias. *)
Lemma names_used_aliases m ce raw k :
  k ∈ names_used (fold_left (validate_step vt ce raw) (cls_fields m)
                    (mkValidation [] ∅ ∅ [])) →
  k ∈ aliases m.
Proof.
  intros [Hk|(_ & Hk & _)]%fold_names_used; [set_solver|done].
Qed.

(** X16. The keys of an export are the keys of the document that the
    class declares, and with them every other key of the document when
    the collaborator class keeps extras: the export invents no key and
    drops no declared key that was supplied. *)
Theorem export_keys_are_supplied m base raw i k :
  record_class m base → plain_class base →
  validate validate_other m raw = Ok i →
  k ∈ Dict.keys (to_dict i) ↔
  k ∈ Dict.keys raw ∧ (k ∈ aliases m ∨ cls_extra base = ExtraAllow).
Proof.
  intros Hrec Hbase Hval.
  pose proof (record_plain _ _ Hrec Hbase) as Hplain.
  pose proof (record_extra _ _ Hrec) as Hextra.
  assert (Hkey : ∀ n, dict_key true m n = n).
  { intros n. unfold dict_key.
    destruct (Dict.get n (cls_fields m)) as [f|] eqn:Hf; [|done]. by eapply plain_get. }
  split.
  - intros (n & Hn & Hset & Hk)%to_dict_keys.
    apply construct_Ok in Hval as [Herr ->].
    cbn [inst_cls inst_dict inst_fields_set] in Hn, Hset, Hk.
    rewrite Hkey in Hk. subst n. unfold validate_model in Hn, Hset.
    apply extra_values_keys in Hn as [Hn|(Hallow & Hraw & _)].
    + apply fold_values_keys in Hn as [Hn|Hn]; [by apply elem_of_nil in Hn|].
      apply DictFacts.get_is_Some in Hn as [f Hf].
      pose proof (plain_get _ _ _ Hplain Hf) as Ha.
      assert (Hal : k ∈ aliases m).
      { apply aliases_elem. exists k, f. split; [by apply DictFacts.get_Some_elem|done]. }
      split; [|by left].
      apply extra_fields_set in Hset as [Hset|[? _]]; [|done].
      apply fold_fields_set in Hset as [Hset|(f' & Hf' & Hsome)]; [set_solver|].
      rewrite (plain_alias _ _ _ Hplain Hf') in Hsome. by apply DictFacts.get_is_Some.
    + split; [done|]. right. congruence.
  - intros [Hraw Hwhy].
    pose proof Hraw as [v Hv]%DictFacts.get_is_Some.
    destruct (decide (k ∈ aliases m)) as [Hal|Hal].
    + apply aliases_elem in Hal as (n & f & Hf & Ha).
      assert (n = k) as -> by (by eapply plain_unique).
      apply (DictFacts.elem_get _ _ _ (proj1 Hplain)) in Hf.
      destruct (supplied_value validate_other m raw i k f v (proj1 Hplain) Hval Hf Ha Hv)
        as (x & _ & Hget & Hset).
      apply to_dict_keys. exists k. split_and!; [|done|].
      * apply DictFacts.get_is_Some. by rewrite Hget.
      * apply construct_Ok in Hval as [_ ->]. simpl. apply Hkey.
    + destruct Hwhy as [?|Hallow]; [done|].
      apply construct_Ok in Hval as [Herr ->].
      apply to_dict_keys. simpl. unfold validate_model. rewrite Hextra, Hallow.
      destruct (extra_kept raw
                  (fold_left (validate_step vt true raw) (cls_fields m)
                     (mkValidation [] ∅ ∅ [])) k v Hv) as [Hget Hset].
      { intros Hused. by apply Hal, (names_used_aliases m true raw). }
      exists k. split_and!; [|done|apply Hkey].
      apply DictFacts.get_is_Some. by rewrite Hget.
Qed.

Lemma ItemProperties_wf : wf_model ItemProperties.
Proof. apply NoDup_keys_decide. reflexivity. Qed.

(** X17. A properties object keeps the keys its schema does not
    declare: such a key is exported under its own name with the value
    the document gave it, whatever that value holds. *)
Theorem undeclared_property_exported w exts log res w' m raw i k v :
  reachable w →
  _extension_model_factory exts w = (log, Ok res, w') →
  m = ItemProperties ∨ m = res.1 →
  validate validate_other m raw = Ok i →
  Dict.get k raw = Some v →
  k ∉ aliases m → k ∉ Dict.keys (cls_fields m) →
  Dict.get k (to_dict i) = Some v.
Proof.
  intros Hw Hcall Hm Hval Hv Hal Hname.
  assert (Hwf : wf_model m ∧ cls_extra m = ExtraAllow).
  { destruct Hm as [->| ->]; [split; [apply ItemProperties_wf|done]|].
    destruct (factory_result _ _ _ _ _ Hw Hcall) as (fields & id & _ & _ & -> & _).
    split; [apply new_model_wf, ItemProperties_wf|done]. }
  destruct Hwf as [Hwf Hallow].
  apply construct_Ok in Hval as [Herr ->].
  unfold validate_model in *. rewrite Hallow in *.
  set (st1 := fold_left (validate_step vt true raw) (cls_fields m)
                (mkValidation [] ∅ ∅ [])) in *.
  destruct (extra_kept raw st1 k v Hv) as [Hget Hset].
  { intros Hused. by apply Hal, (names_used_aliases m true raw). }
  rewrite <- (of_json_export true true v).
  apply (to_dict_get _ k (of_json v)); cbn [inst_cls inst_dict inst_fields_set];
    [|done|done| |].
  - apply extra_values_NoDup, fold_values_NoDup. simpl. apply NoDup_nil_2.
  - unfold dict_key. by apply DictFacts.get_None in Hname as ->.
  - intros n' _. unfold dict_key.
    destruct (Dict.get n' (cls_fields m)) as [f'|] eqn:Hf'; [|done].
    intros Ha. exfalso. apply Hal, aliases_elem. exists n', f'.
    split; [by apply DictFacts.get_Some_elem|done].
Qed.

End records_keys.

(** ** The classes of [item_factory] *)

Section item_factory_more.
Context `{Collaborators}.
Implicit Types (exts key : list string) (w : World) (res : Model * FieldInfo).

Local Abbreviation vt := (validate_type validate_other).

(** A call that raises leaves the world as it was. *)
Lemma factory_raise_world exts w log e w' :
  _extension_model_factory exts w = (log, Raise e, w') → w' = w.
Proof.
  intros Hcall%factory_wrapper. destruct w as [n c], w' as [n' c']. simpl in Hcall.
  wrapper_inv Hcall v Hg Hf.
  destruct (extension_model_cases exts n) as [(? & _ & Heq')|(? & _ & Heq')];
    rewrite Heq' in Hf; by simplify_eq.
Qed.

(** X18. A call of [item_factory] that raises leaves no trace: no class
    was built and the cache is as it was. *)
Theorem item_factory_failure_no_trace item w log e w' :
  item_factory item w = (log, Raise e, w') → w' = w.
Proof.
  unfold item_factory.
  destruct (truthy _); [|done].
  destruct (tuple_of _) as [key|e0]; [|by intros [= _ _ <-]].
  destruct (_extension_model_factory key w) as [[log0 [props|e0]] w0] eqn:Hcall; [done|].
  intros [= _ _ <-]. by eapply factory_raise_world.
Qed.

(** X19. For an item that lists its extensions, [item_factory] raises
    exactly when the list names an identifier, other than the reserved
    one, that the registry does not know; what it raises is the
    registry's exception for such an identifier. *)
Theorem item_factory_fails_iff_unregistered item w exts :
  reachable w →
  declared_extensions item = JList (map JStr exts) →
  (exists log e w', item_factory item w = (log, Raise e, w')) ↔
  (exists x, x ∈ exts ∧ x ≠ "checksum" ∧ Extensions_get x = None).
Proof.
  intros Hw Hdecl. pose proof (reachable_inv _ Hw) as Hinv.
  unfold declared_extensions in Hdecl.
  destruct exts as [|x0 exts].
  { rewrite item_factory_base by (by rewrite Hdecl). split.
    - by intros (? & ? & ? & ?).
    - intros (x & Hx & _). by apply elem_of_nil in Hx. }
  rewrite (item_factory_extended item w (x0 :: exts));
    [|rewrite Hdecl; by apply truthy_list | rewrite Hdecl; by apply tuple_of_list].
  split.
  - intros (log & e & w' & Hcall).
    destruct (_extension_model_factory (x0 :: exts) w) as [[log0 [props|e0]] w0] eqn:Hf;
      [done|]. injection Hcall as -> -> ->.
    destruct (extension_fields (x0 :: exts) []).2 as [fields|err] eqn:Hloop.
    + destruct (factory_returns _ _ _ Hinv Hloop) as (? & ? & ? & Hok & _). congruence.
    + destruct (extension_fields_raise_inv _ _ _ Hloop) as (x & _ & ? & ? & ?). by exists x.
  - intros (x & Hin & Hne & Hnone).
    destruct (extension_fields_raise _ [] _ Hin Hne Hnone) as (x' & Hloop & _).
    rewrite (factory_raise _ _ _ Hinv Hloop). eauto.
Qed.

Lemma Item_canonical : plain_class Feature → Forall (λ nf, canonical nf.2) (cls_fields Item).
Proof.
  intros [_ Hall]%Item_plain. eapply Forall_impl; [exact Hall|]. by intros nf [_ ?].
Qed.

(** The class [item_factory] builds over [Item] when it puts a field
    definition in the place of [properties]. *)
Lemma custom_item_fields id fd :
  plain_class Feature →
  cls_fields (new_model id "CustomStacItem" Item None
                (Dict.set "properties" fd (decompose_model Item))) =
  Dict.set "properties" (infer "properties" fd) (cls_fields Item).
Proof.
  intros Hplain. pose proof (Item_plain Hplain) as [Hwf _].
  rewrite new_model_fields, (map_set infer), infer_decompose_model by by apply Item_canonical.
  apply update_same_keys; [|done].
  apply keys_set_in, DictFacts.get_is_Some. by rewrite Item_properties.
Qed.

Lemma base_item_fields id :
  plain_class Feature →
  cls_fields (new_model id "CustomStacItem" Item None (decompose_model Item)) =
  cls_fields Item.
Proof.
  intros Hplain. pose proof (Item_plain Hplain) as [Hwf _].
  rewrite new_model_fields, infer_decompose_model by by apply Item_canonical.
  by apply update_same_keys.
Qed.

(** What [item_factory] builds: a class over [Item] from the fields of
    [Item], with or without a field definition in the place of
    [properties]. *)
Lemma item_factory_cases item w log cls w' :
  item_factory item w = (log, Ok cls, w') →
  exists id,
    cls = new_model id "CustomStacItem" Item None (decompose_model Item) ∨
    exists fd, cls = new_model id "CustomStacItem" Item None
                       (Dict.set "properties" fd (decompose_model Item)).
Proof.
  unfold item_factory, create_model. cbn [fst snd].
  destruct (truthy _).
  - destruct (tuple_of _) as [key|e0]; [|done].
    destruct (_extension_model_factory key w) as [[log0 [props|e0]] w0]; [|done].
    intros [= _ <- _]. eexists. right. by eexists.
  - intros [= _ <- _]. eexists. by left.
Qed.

(** What [infer] makes of a decomposed field: the alias, the required
    flag, the [const] flag and the default of a field that is not
    required are those of the field. *)
Lemma infer_decompose_contract n f :
  mf_alias (infer n (decompose_field f)) = mf_alias f ∧
  mf_required (infer n (decompose_field f)) = mf_required f ∧
  mf_const (infer n (decompose_field f)) = mf_const f ∧
  (mf_required f = false → mf_default (infer n (decompose_field f)) = mf_default f).
Proof. destruct f as [a t [] d c]; unfold infer, decompose_field; simpl; done. Qed.

(** X20. The class [item_factory] returns has the [Config] of [Item]
    and the field names of [Item] in the same order, and every field
    but [properties] keeps its alias, its required flag, its [const]
    flag and, when it is not required, its default. *)
Theorem item_factory_keeps_field_contracts item w log cls w' :
  wf_model Feature →
  item_factory item w = (log, Ok cls, w') →
  cls_name cls = "CustomStacItem" ∧
  cls_extra cls = cls_extra Item ∧
  Dict.keys (cls_fields cls) = Dict.keys (cls_fields Item) ∧
  ∀ x f, x ≠ "properties" → Dict.get x (cls_fields Item) = Some f →
    exists f', Dict.get x (cls_fields cls) = Some f' ∧
               mf_alias f' = mf_alias f ∧ mf_required f' = mf_required f ∧
               mf_const f' = mf_const f ∧
               (mf_required f = false → mf_default f' = mf_default f).
Proof.
  intros Hwf Hcall.
  assert (HwfI : wf_model Item) by (by apply new_model_wf).
  assert (Hprop : "properties" ∈ Dict.keys (decompose_model Item)).
  { rewrite keys_decompose_model. apply DictFacts.get_is_Some. by rewrite Item_properties. }
  assert (Hdefs : exists id defs,
            cls = new_model id "CustomStacItem" Item None defs ∧
            Dict.keys defs = Dict.keys (cls_fields Item) ∧
            ∀ x, x ≠ "properties" → Dict.get x defs = Dict.get x (decompose_model Item)).
  { apply item_factory_cases in Hcall as (id & [->|(fd & ->)]).
    - exists id, (decompose_model Item). split_and!; [done| |done].
      apply keys_decompose_model.
    - exists id, (Dict.set "properties" fd (decompose_model Item)). split_and!; [done|..].
      + rewrite keys_set_in by done. apply keys_decompose_model.
      + intros x Hx. by apply DictFacts.get_set_ne. }
  destruct Hdefs as (id & defs & -> & Hkeys & Hget). split_and!; [done|done|..].
  - rewrite new_model_fields. apply keys_update_in.
    intros k. by rewrite (DictFacts.keys_map infer), Hkeys.
  - intros x f Hx Hf. exists (infer x (decompose_field f)).
    split; [|apply infer_decompose_contract].
    rewrite composed_get by (by rewrite Hkeys).
    by rewrite Hget, get_decompose_model, Hf.
Qed.

(** X21. The class [item_factory] returns for an item enforces the
    fields of the item's extensions: when an extension of the list
    declares a required field, and no later extension of the list
    redefines it, a document whose properties object lacks the field is
    rejected with a report on [properties]. *)
Theorem factory_class_enforces_extension_field item w pre e post mext x f log cls w' raw p :
  reachable w → wf_model Feature →
  declared_extensions item = JList (map JStr (pre ++ e :: post)) →
  e ≠ "checksum" → Extensions_get e = Some mext → wf_model mext →
  Dict.get x (cls_fields mext) = Some f → mf_required f = true →
  (∀ e' m', e' ∈ post → e' ≠ "checksum" → Extensions_get e' = Some m' →
            Dict.get x (cls_fields m') = None) →
  item_factory item w = (log, Ok cls, w') →
  Dict.get "properties" raw = Some (JDict p) →
  Dict.get (mf_alias f) p = None →
  exists es, validate validate_other cls raw = Raise (ValidationError es) ∧
             ("properties", InvalidError) ∈ es.
Proof.
  intros Hw HwfF Hdecl Hne Hm Hwf Hx Hreq Hpost Hcall Hraw Hp.
  unfold declared_extensions in Hdecl.
  rewrite (item_factory_extended item w (pre ++ e :: post)) in Hcall;
    [|rewrite Hdecl; apply truthy_list; by destruct pre
     |rewrite Hdecl; by apply tuple_of_list].
  destruct (_extension_model_factory (pre ++ e :: post) w) as [[log0 [props|e0]] w0] eqn:Hf;
    [|done].
  injection Hcall as -> <- <-.
  pose proof (last_extension_wins _ _ _ _ _ _ _ _ _ _ Hw Hne Hm Hwf Hx Hpost Hf) as Hfield.
  destruct (factory_result _ _ _ _ _ Hw Hf) as (fields & id & _ & _ & Hprops & _).
  destruct props as [pm pfi]. injection Hprops as Hpm ->. cbn [fst snd] in *.
  pose proof (custom_item_properties (next_cls w0) (TModel pm, Field Ellipsis false None)
                HwfF) as Hpf.
  apply construct_rejects.
  apply (validate_model_rejects vt _ raw _ _ (JDict p) InvalidError Hpf Hraw).
  unfold validate_field, infer. cbn [fst snd mf_type validate_type].
  destruct (construct vt pm p) as [pi|err] eqn:Hpi; [|done].
  exfalso. apply construct_Ok in Hpi as [Herr _].
  pose proof (validate_model_missing vt pm p x _ Hfield) as Hmiss.
  rewrite Herr in Hmiss. eapply elem_of_nil, Hmiss.
  - simpl. by rewrite Hreq.
  - exact Hp.
Qed.

End item_factory_more.

Section factory_classes.
Context `{Collaborators}.
Implicit Types (exts key : list string) (w : World) (res : Model * FieldInfo).

Local Abbreviation vt := (validate_type validate_other).

(** X23. Every class [item_factory] returns keeps the version constant
    of [Item]: a document whose [stac_version] is anything but the
    constant is rejected with a report on the field. *)
Theorem factory_class_keeps_version item w log cls w' raw v :
  plain_class Feature →
  item_factory item w = (log, Ok cls, w') →
  dotted STAC_VERSION →
  Dict.get "stac_version" raw = Some v → v ≠ JStr STAC_VERSION →
  exists es e,
    validate validate_other cls raw = Raise (ValidationError es) ∧
    ("stac_version", e) ∈ es.
Proof.
  intros Hplain Hcall Hdot Hraw Hne.
  assert (Hf : Dict.get "stac_version" (cls_fields cls) =
               Some (version_field STAC_VERSION)).
  { apply item_factory_cases in Hcall as (id & [->|(fd & ->)]).
    - rewrite base_item_fields by done. apply Item_version.
    - rewrite custom_item_fields, DictFacts.get_set_ne by done. apply Item_version. }
  destruct (version_field_rejects validate_other STAC_VERSION v Hdot Hne) as (e & He).
  pose proof (validate_model_rejects vt cls raw _ _ v e Hf Hraw He) as Hin.
  destruct (construct_rejects vt cls raw _ _ Hin) as (es & Hes & Hin').
  by exists es, e.
Qed.

(** X24. A composed schema still demands what [ItemProperties] demands:
    unless an extension of the sequence defines a field [datetime] of
    its own, a properties object without [datetime] is rejected with a
    report that the field is missing. *)
Theorem composed_schema_requires_datetime w exts log res w' raw :
  reachable w →
  _extension_model_factory exts w = (log, Ok res, w') →
  (∀ e m, registered exts e m → "datetime" ∉ Dict.keys (cls_fields m)) →
  Dict.get "datetime" raw = None →
  exists es, validate validate_other res.1 raw = Raise (ValidationError es) ∧
             ("datetime", MissingError) ∈ es.
Proof.
  intros Hw Hcall Hfree Hraw.
  destruct (factory_result _ _ _ _ _ Hw Hcall) as (fields & id & Hok & Hnd & -> & _).
  cbn [fst].
  assert (Hf : Dict.get "datetime"
                 (cls_fields (new_model id "CustomItemProperties" ItemProperties None fields)) =
               Dict.get "datetime" (cls_fields ItemProperties)).
  { rewrite composed_get by done. by rewrite (extension_fields_free _ _ _ Hok Hfree). }
  apply construct_rejects.
  exact (validate_model_missing vt _ raw "datetime" _ Hf eq_refl Hraw).
Qed.

End factory_classes.

Section alias_export.
Variable validate_other : string → json → option pyval.
Implicit Types (m : Model) (raw : dict json) (i : instance).

Local Abbreviation vt := (validate_type validate_other).

(** The entry of a validated record for a field the document supplies
    under the field's alias. *)
Lemma supplied_value_alias m raw i n f v :
  wf_model m → validate validate_other m raw = Ok i →
  Dict.get n (cls_fields m) = Some f →
  Dict.get (mf_alias f) raw = Some v →
  n = mf_alias f ∨ n ∉ Dict.keys raw →
  exists x, validate_field vt f v = inr x ∧
            Dict.get n (inst_dict i) = Some x ∧ n ∈ inst_fields_set i.
Proof.
  intros Hwf [Herr ->]%construct_Ok Hfld Hraw Hn.
  set (ce := match cls_extra m with ExtraIgnore => false | _ => true end).
  unfold validate_model in *. fold ce in Herr |- *.
  set (st1 := fold_left (validate_step vt ce raw) (cls_fields m)
                (mkValidation [] ∅ ∅ [])) in *.
  pose proof (extra_errors_nil _ _ _ Herr) as Herr1.
  pose proof (DictFacts.get_Some_elem _ _ _ Hfld) as Hin.
  destruct (fold_value_get vt ce raw (cls_fields m) (mkValidation [] ∅ ∅ [])
              n f v Hwf Hin Hraw Herr1) as (x & Hx & Hget).
  fold st1 in Hget. exists x. split_and!; [done|..]; simpl.
  - rewrite <- Hget. destruct (cls_extra m) eqn:Hex; [done| |done].
    apply extra_values_get. destruct Hn as [->|Hn]; [left|by right].
    apply fold_names_used. right.
    split_and!; [done | | by rewrite Hraw].
    apply list_elem_of_fmap. by exists (mf_alias f, f).
  - apply extra_fields_set_mono, fold_fields_set. right.
    exists f. split; [done|]. by rewrite Hraw.
Qed.

(** X25. A supplied field is exported under its alias, with the value
    it validated to: for a field whose alias no other field shares, and
    whose name the document does not use for a key of its own, the
    export holds under the alias what the validators made of the
    supplied value. *)
Theorem field_exported_under_alias m raw i n f v :
  wf_model m → validate validate_other m raw = Ok i →
  Dict.get n (cls_fields m) = Some f →
  Dict.get (mf_alias f) raw = Some v →
  (∀ n' f', (n', f') ∈ cls_fields m → mf_alias f' = mf_alias f → n' = n) →
  n = mf_alias f ∨ n ∉ Dict.keys raw →
  exists x, validate_field vt f v = inr x ∧
            Dict.get (mf_alias f) (to_dict i) = Some (get_value true true x).
Proof.
  intros Hwf Hval Hfld Hraw Huniq Hn.
  destruct (supplied_value_alias _ _ _ _ _ _ Hwf Hval Hfld Hraw Hn) as (x & Hx & Hget & Hset).
  exists x. split; [done|].
  apply construct_Ok in Hval as [Herr ->].
  cbn [inst_cls inst_dict inst_fields_set] in Hget, Hset.
  apply (to_dict_get _ n x); cbn [inst_cls inst_dict inst_fields_set]; [|done|done| |].
  - apply extra_values_NoDup, fold_values_NoDup. simpl. apply NoDup_nil_2.
  - unfold dict_key. by rewrite Hfld.
  - intros n' Hn'. unfold dict_key.
    destruct (Dict.get n' (cls_fields m)) as [f'|] eqn:Hf'.
    + intros Ha. eapply Huniq; [|exact Ha]. by apply DictFacts.get_Some_elem.
    + intros ->. exfalso. unfold validate_model in Hn'.
      apply extra_values_keys in Hn' as [Hn'|(Hallow & _ & Hused)].
      * apply fold_values_keys in Hn' as [Hn'|Hn']; [by apply elem_of_nil in Hn'|].
        apply DictFacts.get_None in Hf'. done.
      * apply Hused. rewrite Hallow. apply fold_names_used. right.
        split_and!; [done | | by rewrite Hraw].
        apply list_elem_of_fmap. exists (n, f). split; [done|].
        by apply DictFacts.get_Some_elem.
Qed.
End alias_export.

(** ** The statements at the concrete collaborators *)

#[local] Existing Instance sample.

Lemma sample_Feature_wf : wf_model sample_Feature.
Proof. apply NoDup_keys_decide. reflexivity. Qed.

Lemma sample_Feature_base : base_without_version sample_Feature.
Proof. split; [apply sample_Feature_wf|]. repeat constructor; discriminate. Qed.

Lemma sample_version_dotted : dotted STAC_VERSION.
Proof. unfold dotted. simpl. apply elem_of_cons. right. apply elem_of_cons. by left. Qed.

Lemma extension_model_factory_memoized_witness :
  reachable init ∧
  exists log res w1,
    _extension_model_factory ["a"; "b"] init = (log, Ok res, w1) ∧
    (exists w2, _extension_model_factory ["a"; "b"] w1 = ([], Ok res, w2) ∧
                next_cls w2 = next_cls w1) ∧
    (∀ calls, exists log' res' w',
        _extension_model_factory ["a"; "b"] (run calls w1) = (log', Ok res', w') ∧
        same_schema res res').
Proof.
  split; [by exists []|].
  eexists _, _, _. split; [vm_compute; reflexivity|].
  eapply (extension_model_factory_memoized init ["a"; "b"]);
    [by exists [] | vm_compute; reflexivity].
Defined.

Lemma collision_last_write_wins_witness :
  exists log res w',
    _extension_model_factory ["a"; "b"; "checksum"] init = (log, Ok res, w') ∧
    Dict.get "x" (cls_fields res.1) =
    Some (infer "x" (decompose_field (mkModelField "b:x" (TOptional TStr) false JNull false))).
Proof.
  eexists _, _, _. split; [vm_compute; reflexivity|].
  eapply (proj1 collision_last_write_wins sample init ["a"] "b" ["checksum"] ext_b).
  - by exists [].
  - discriminate.
  - reflexivity.
  - apply NoDup_keys_decide. reflexivity.
  - reflexivity.
  - intros e' m' Hin Hne. apply list_elem_of_singleton in Hin. contradiction.
  - vm_compute; reflexivity.
Defined.

Lemma cache_evicts_oldest :
  let w1 := (_extension_model_factory ["checksum"] init).2 in
  let w2 := run (compose_calls checksum_keys) w1 in
  is_Some (cached ["checksum"] w1) ∧ cached ["checksum"] w2 = None.
Proof.
  split; [eexists; vm_compute; reflexivity | vm_compute; reflexivity].
Qed.

Lemma cache_entry_survives_witness :
  reachable init ∧
  exists log res w1,
    _extension_model_factory ["checksum"] init = (log, Ok res, w1) ∧
    cached ["checksum"]
      (run [CallExtensionModelFactory ["a"]; CallItemFactory extended_item;
            CallExtensionModelFactory ["b"]] w1) = Some res ∧
    length (lru_links (factory_cache
      (run [CallExtensionModelFactory ["a"]; CallItemFactory extended_item;
            CallExtensionModelFactory ["b"]] w1))) ≤ maxsize.
Proof.
  split; [by exists []|].
  eexists _, _, _. split; [vm_compute; reflexivity|].
  eapply (cache_entry_survives init ["checksum"]);
    [by exists [] | vm_compute; reflexivity | vm_compute; lia].
Defined.

Lemma version_omitted_when_unset :
  (exists i, validate validate_other Item minimal_item = Ok i ∧
             Dict.get "stac_version" minimal_item = None ∧
             Dict.get "stac_version" (to_dict i) = None) ∧
  (exists c, validate validate_other ItemCollection minimal_collection = Ok c ∧
             Dict.get "stac_version" minimal_collection = None ∧
             Dict.get "stac_version" (to_dict c) = None).
Proof.
  split; eexists; (split; [vm_compute; reflexivity|]); split; vm_compute; reflexivity.
Qed.

Lemma version_emitted_when_supplied_witness :
  exists i, validate validate_other Item versioned_item = Ok i ∧
            Dict.get "stac_version" (to_dict i) = Some (JStr "0.9.0").
Proof.
  eexists. split; [vm_compute; reflexivity|].
  refine (version_emitted_when_supplied Item Feature versioned_item _
            (or_introl (conj eq_refl eq_refl)) sample_Feature_base _).
  vm_compute; reflexivity.
Defined.

Lemma checksum_is_noop_witness :
  reachable init ∧
  same_outcome
    (_extension_model_factory ["a"; "checksum"] init).1.2
    (_extension_model_factory ["a"] init).1.2 ∧
  "checksum" ∉ (_extension_model_factory ["a"; "checksum"] init).1.1.
Proof.
  split; [by exists []|].
  apply (checksum_is_noop init ["a"; "checksum"]). by exists [].
Defined.

Lemma unknown_extension_raises_witness :
  reachable init ∧ Extensions_get "not-a-real-extension" = None ∧
  exists log e',
    _extension_model_factory ["a"; "not-a-real-extension"] init =
    (log, Raise (UnknownExtensionError e'), init) ∧
    e' ∈ ["a"; "not-a-real-extension"] ∧ Extensions_get e' = None ∧
    ∀ exts', _extension_model_factory exts'
               (_extension_model_factory ["a"; "not-a-real-extension"] init).2 =
             _extension_model_factory exts' init.
Proof.
  split; [by exists []|]. split; [reflexivity|].
  apply (unknown_extension_raises init ["a"; "not-a-real-extension"] "not-a-real-extension").
  - by exists [].
  - apply elem_of_cons. right. apply elem_of_cons. by left.
  - discriminate.
  - reflexivity.
Defined.

Lemma stac_version_mismatch_rejected_witness :
  dotted STAC_VERSION ∧
  Dict.get "stac_version" mismatched_item = Some (JStr "1.0.0") ∧
  exists es e,
    validate validate_other Item mismatched_item = Raise (ValidationError es) ∧
    ("stac_version", e) ∈ es.
Proof.
  split; [apply sample_version_dotted|]. split; [reflexivity|].
  apply (stac_version_mismatch_rejected Item mismatched_item (JStr "1.0.0"));
    [by left | apply sample_version_dotted | reflexivity | discriminate].
Defined.


Lemma item_factory_properties_witness :
  reachable init ∧ wf_model Feature ∧
  exists log m fi w' cls,
    _extension_model_factory ["a"] init = (log, Ok (m, fi), w') ∧
    item_factory extended_item init =
    (log, Ok cls, mkWorld (S (next_cls w')) (factory_cache w')) ∧
    cls_id cls = next_cls w' ∧
    Dict.get "properties" (cls_fields cls) = Some (properties_field m) ∧
    m ≠ ItemProperties.
Proof.
  split; [by exists []|]. split; [apply sample_Feature_wf|].
  pose proof (proj1 (proj2 (item_factory_properties extended_item init
                              reachable_init sample_Feature_wf))
                ["a"] ltac:(discriminate) eq_refl) as Hext.
  destruct (_extension_model_factory ["a"] init) as [[log [[m fi]|e]] w'] eqn:Hcall;
    [|vm_compute in Hcall; discriminate].
  destruct Hext as (cls & ? & ? & ? & ?). by exists log, m, fi, w', cls.
Defined.

Lemma properties_accept_extra_keys_witness :
  reachable init ∧
  exists log res w' i,
    _extension_model_factory ["a"] init = (log, Ok res, w') ∧
    validate validate_other res.1 sample_properties = Ok i ∧
    cls_extra res.1 = ExtraAllow ∧
    exists i', validate validate_other res.1 sample_properties_extra = Ok i'.
Proof.
  split; [by exists []|].
  eexists _, _, _, _. split; [vm_compute; reflexivity|].
  split; [vm_compute; reflexivity|].
  eapply (properties_accept_extra_keys init ["a"] _ _ _ _ sample_properties);
    [by exists [] | vm_compute; reflexivity | by right | | vm_compute; reflexivity].
  intros a Ha. simpl in Ha.
  repeat (apply elem_of_cons in Ha as [-> | Ha]; [reflexivity|]).
  by apply elem_of_nil in Ha.
Defined.

(** ** The further statements at the concrete collaborators *)

Lemma sample_Feature_plain : plain_class sample_Feature.
Proof.
  split; [apply sample_Feature_wf|].
  repeat constructor; unfold canonical; simpl; discriminate.
Qed.

Lemma sample_FeatureCollection_plain : plain_class sample_FeatureCollection.
Proof.
  split; [apply NoDup_keys_decide; reflexivity|].
  repeat constructor; unfold canonical; simpl; discriminate.
Qed.

Lemma compose_reserved_only_witness :
  reachable init ∧ Forall (λ e, e = "checksum") ["checksum"; "checksum"] ∧
  exists res w',
    _extension_model_factory ["checksum"; "checksum"] init = ([], Ok res, w') ∧
    cls_fields res.1 = cls_fields ItemProperties ∧
    cls_extra res.1 = cls_extra ItemProperties ∧
    res.2 = Field Ellipsis false None.
Proof.
  split; [by exists []|]. split; [by repeat constructor|].
  apply compose_reserved_only; [by exists [] | by repeat constructor].
Defined.

Lemma composed_field_names_witness :
  reachable init ∧
  exists log res w',
    _extension_model_factory ["a"] init = (log, Ok res, w') ∧
    ("x" ∈ Dict.keys (cls_fields res.1) ↔
     "x" ∈ Dict.keys (cls_fields ItemProperties) ∨
     exists e m, registered ["a"] e m ∧ "x" ∈ Dict.keys (cls_fields m)).
Proof.
  split; [by exists []|].
  eexists _, _, _. split; [vm_compute; reflexivity|].
  eapply (composed_field_names init ["a"]); [by exists [] | vm_compute; reflexivity].
Defined.

Lemma base_field_kept_witness :
  reachable init ∧
  (∀ e m, registered ["a"] e m → "datetime" ∉ Dict.keys (cls_fields m)) ∧
  exists log res w',
    _extension_model_factory ["a"] init = (log, Ok res, w') ∧
    Dict.get "datetime" (cls_fields res.1) = Dict.get "datetime" (cls_fields ItemProperties).
Proof.
  assert (Hfree : ∀ e m, registered ["a"] e m → "datetime" ∉ Dict.keys (cls_fields m)).
  { intros e m (->%list_elem_of_singleton & _ & [= <-]).
    intros Hin%list_elem_of_singleton. discriminate. }
  split; [by exists []|]. split; [exact Hfree|].
  eexists _, _, _. split; [vm_compute; reflexivity|].
  eapply (base_field_kept init ["a"]); [by exists [] | vm_compute; reflexivity | exact Hfree].
Defined.

Lemma memoisation_transparent_witness :
  reachable init ∧
  same_outcome (_extension_model_factory ["a"; "b"] init).1.2
               (extension_model ["a"; "b"] 7).1.2.
Proof.
  split; [by exists []|]. apply memoisation_transparent. by exists [].
Defined.

Lemma cached_classes_distinct_witness :
  let w := run [CallExtensionModelFactory ["a"]; CallExtensionModelFactory ["b"]] init in
  reachable w ∧ ["a"] ≠ ["b"] ∧
  exists res1 res2,
    cached ["a"] w = Some res1 ∧ cached ["b"] w = Some res2 ∧
    cls_id res1.1 ≠ cls_id res2.1 ∧ 4 ≤ cls_id res1.1 < next_cls w.
Proof.
  intros w. split; [by eexists|]. split; [discriminate|].
  eexists _, _. split; [vm_compute; reflexivity|]. split; [vm_compute; reflexivity|].
  eapply (cached_classes_distinct w ["a"] ["b"]);
    [by eexists | vm_compute; reflexivity | vm_compute; reflexivity | discriminate].
Defined.

Lemma no_eviction_below_capacity_witness :
  let w := run [CallExtensionModelFactory ["a"]] init in
  let calls := [CallExtensionModelFactory ["b"]; CallItemFactory extended_item] in
  reachable w ∧
  length (lru_links (factory_cache w)) + length calls ≤ maxsize ∧
  exists res, cached ["a"] w = Some res ∧ cached ["a"] (run calls w) = Some res.
Proof.
  intros w calls. split; [by eexists|]. split; [vm_compute; lia|].
  eexists. split; [vm_compute; reflexivity|].
  apply (no_eviction_below_capacity w calls);
    [by eexists | vm_compute; lia | vm_compute; reflexivity].
Defined.

Lemma first_unregistered_reported_witness :
  reachable init ∧ Extensions_get "not-a-real-extension" = None ∧
  (∀ e', e' ∈ ["a"; "checksum"] → e' ≠ "checksum" → is_Some (Extensions_get e')) ∧
  _extension_model_factory (["a"; "checksum"] ++ "not-a-real-extension" :: ["b"]) init =
  (lookups ["a"; "checksum"] ++ ["not-a-real-extension"],
   Raise (UnknownExtensionError "not-a-real-extension"), init).
Proof.
  assert (Hpre : ∀ e', e' ∈ ["a"; "checksum"] → e' ≠ "checksum" →
                       is_Some (Extensions_get e')).
  { intros e' [->|[->|[]%elem_of_nil]%elem_of_cons]%elem_of_cons Hne; [by eexists|done]. }
  split; [by exists []|]. split; [reflexivity|]. split; [exact Hpre|].
  apply first_unregistered_reported; [by exists [] | discriminate | reflexivity | exact Hpre].
Defined.

Lemma lookups_of_a_call_witness :
  exists log res w',
    _extension_model_factory ["a"; "checksum"; "b"] init = (log, Ok res, w') ∧
    log = lookups ["a"; "checksum"; "b"] ∧
    cls_id res.1 = next_cls init ∧ next_cls w' = S (next_cls init).
Proof.
  eexists _, _, _. split; [vm_compute; reflexivity|].
  refine (lookups_of_a_call init ["a"; "checksum"; "b"] _ _ _ _).
  vm_compute; reflexivity.
Defined.

Lemma item_factory_failure_no_trace_witness :
  exists log e w',
    item_factory unknown_item init = (log, Raise e, w') ∧ w' = init.
Proof.
  eexists _, _, _. split; [vm_compute; reflexivity|].
  eapply (item_factory_failure_no_trace unknown_item init). vm_compute; reflexivity.
Defined.

Lemma item_factory_fails_iff_unregistered_witness :
  reachable init ∧
  declared_extensions unknown_item = JList (map JStr ["a"; "not-a-real-extension"]) ∧
  ((exists log e w', item_factory unknown_item init = (log, Raise e, w')) ↔
   (exists x, x ∈ ["a"; "not-a-real-extension"] ∧ x ≠ "checksum" ∧
              Extensions_get x = None)).
Proof.
  split; [by exists []|]. split; [reflexivity|].
  apply item_factory_fails_iff_unregistered; [by exists [] | reflexivity].
Defined.

Lemma item_factory_keeps_field_contracts_witness :
  wf_model Feature ∧
  exists log cls w',
    item_factory extended_item init = (log, Ok cls, w') ∧
    cls_name cls = "CustomStacItem" ∧
    cls_extra cls = cls_extra Item ∧
    Dict.keys (cls_fields cls) = Dict.keys (cls_fields Item) ∧
    ∀ x f, x ≠ "properties" → Dict.get x (cls_fields Item) = Some f →
      exists f', Dict.get x (cls_fields cls) = Some f' ∧
                 mf_alias f' = mf_alias f ∧ mf_required f' = mf_required f ∧
                 mf_const f' = mf_const f ∧
                 (mf_required f = false → mf_default f' = mf_default f).
Proof.
  split; [apply sample_Feature_wf|].
  eexists _, _, _. split; [vm_compute; reflexivity|].
  eapply (item_factory_keeps_field_contracts extended_item init);
    [apply sample_Feature_wf | vm_compute; reflexivity].
Defined.

Lemma factory_class_enforces_extension_field_witness :
  reachable init ∧ wf_model Feature ∧ wf_model ext_a ∧
  Dict.get "x" (cls_fields ext_a) = Some (mkModelField "a:x" TStr true JNull false) ∧
  Dict.get "a:x" [("datetime", JStr "2020-01-01T00:00:00Z")] = None ∧
  exists log cls w',
    item_factory extended_item init = (log, Ok cls, w') ∧
    exists es, validate validate_other cls minimal_item = Raise (ValidationError es) ∧
               ("properties", InvalidError) ∈ es.
Proof.
  split; [by exists []|]. split; [apply sample_Feature_wf|].
  split; [apply NoDup_keys_decide; reflexivity|]. split; [reflexivity|]. split; [reflexivity|].
  eexists _, _, _. split; [vm_compute; reflexivity|].
  eapply (factory_class_enforces_extension_field extended_item init [] "a" [] ext_a "x"
            (mkModelField "a:x" TStr true JNull false) _ _ _ minimal_item
            [("datetime", JStr "2020-01-01T00:00:00Z")]).
  - by exists [].
  - apply sample_Feature_wf.
  - reflexivity.
  - discriminate.
  - reflexivity.
  - apply NoDup_keys_decide. reflexivity.
  - reflexivity.
  - reflexivity.
  - intros e' m' Hin. by apply elem_of_nil in Hin.
  - vm_compute; reflexivity.
  - reflexivity.
  - reflexivity.
Defined.

Lemma required_field_enforced_witness :
  required_key Item "bbox" ∧ Dict.get "bbox" [("id", JStr "a")] = None ∧
  exists es, validate validate_other Item [("id", JStr "a")] = Raise (ValidationError es) ∧
             ("bbox", MissingError) ∈ es.
Proof.
  assert (Hreq : required_key Item "bbox").
  { right. left. split; [done|]. do 4 (apply elem_of_cons; right). apply elem_of_cons. by left. }
  split; [exact Hreq|]. split; [reflexivity|].
  apply (proj1 (required_field_enforced Item "bbox" [("id", JStr "a")] Hreq)). reflexivity.
Defined.

Lemma collection_rejects_invalid_feature_witness :
  Dict.get "features" bad_collection = Some (JList [JDict []]) ∧
  (∀ i, validate validate_other Item [] ≠ Ok i) ∧
  exists es, validate validate_other ItemCollection bad_collection =
             Raise (ValidationError es) ∧
             ("features", InvalidError) ∈ es.
Proof.
  assert (Hbad : ∀ i, validate validate_other Item [] ≠ Ok i).
  { intros i Hi. vm_compute in Hi. discriminate. }
  split; [reflexivity|]. split; [exact Hbad|].
  apply (collection_rejects_invalid_feature bad_collection [JDict []] []);
    [reflexivity | by apply elem_of_cons; left | exact Hbad].
Defined.

Lemma item_properties_exported_witness :
  plain_class Feature ∧
  exists i pi,
    validate validate_other Item minimal_item = Ok i ∧
    validate validate_other ItemProperties [("datetime", JStr "2020-01-01T00:00:00Z")] =
    Ok pi ∧
    Dict.get "properties" (to_dict i) = Some (JDict (to_dict pi)).
Proof.
  split; [apply sample_Feature_plain|].
  eexists _, _. split; [vm_compute; reflexivity|]. split; [vm_compute; reflexivity|].
  edestruct (@item_properties_exported sample minimal_item)
    as (pi & Hpi & Hexp);
    [apply sample_Feature_plain | vm_compute; reflexivity | reflexivity |].
  rewrite Hexp. vm_compute in Hpi. injection Hpi as <-. reflexivity.
Defined.

Lemma collection_features_exported_witness :
  plain_class FeatureCollection ∧
  exists c it,
    validate validate_other ItemCollection one_item_collection = Ok c ∧
    validate validate_other Item minimal_item = Ok it ∧
    Dict.get "features" (to_dict c) = Some (JList [JDict (to_dict it)]).
Proof.
  split; [apply sample_FeatureCollection_plain|].
  eexists _, _. split; [vm_compute; reflexivity|]. split; [vm_compute; reflexivity|].
  edestruct (@collection_features_exported sample one_item_collection)
    with (ds := [minimal_item]) as (items & Hall & Hexp);
    [apply sample_FeatureCollection_plain | vm_compute; reflexivity | reflexivity |].
  rewrite Hexp.
  apply Forall2_cons_inv_l in Hall as (it & its & Hit & ->%Forall2_nil_inv_l & ->).
  vm_compute in Hit. injection Hit as <-. reflexivity.
Defined.

Lemma id_exported_as_text_witness :
  plain_class Feature ∧ Dict.get "id" numbered_item = Some (JInt 7) ∧
  exists i s,
    validate validate_other Item numbered_item = Ok i ∧
    str_validator (JInt 7) = Some (PStr s) ∧ JInt 7 ≠ JNull ∧
    Dict.get "id" (to_dict i) = Some (JStr s).
Proof.
  split; [apply sample_Feature_plain|]. split; [reflexivity|].
  eexists.
  edestruct (@id_exported_as_text sample numbered_item) with (v := JInt 7)
    as (s & Hs & Hne & Hexp);
    [apply sample_Feature_plain | vm_compute; reflexivity | reflexivity |].
  exists s. split; [vm_compute; reflexivity|].
  split; [exact Hs|]. split; [exact Hne | exact Hexp].
Defined.

Lemma undeclared_property_exported_witness :
  reachable init ∧
  exists log res w' i,
    _extension_model_factory ["a"] init = (log, Ok res, w') ∧
    validate validate_other res.1 sample_properties_extra = Ok i ∧
    ("unknown:key" ∉ aliases res.1) ∧ ("unknown:key" ∉ Dict.keys (cls_fields res.1)) ∧
    Dict.get "unknown:key" (to_dict i) = Some (JInt 1).
Proof.
  split; [by exists []|].
  eexists _, _, _, _. split; [vm_compute; reflexivity|].
  split; [vm_compute; reflexivity|].
  assert (Hnot : ∀ l : list string,
            bool_decide ("unknown:key" ∈ l) = false → "unknown:key" ∉ l).
  { intros l Hl. by apply bool_decide_eq_false in Hl. }
  split; [apply Hnot; vm_compute; reflexivity|].
  split; [apply Hnot; vm_compute; reflexivity|].
  eapply (undeclared_property_exported init ["a"] _ _ _ _ sample_properties_extra);
    [by exists [] | vm_compute; reflexivity | by right | vm_compute; reflexivity
    | reflexivity | apply Hnot; vm_compute; reflexivity
    | apply Hnot; vm_compute; reflexivity].
Defined.

Lemma export_keys_are_supplied_witness :
  plain_class Feature ∧
  exists i,
    validate validate_other Item minimal_item = Ok i ∧
    ("id" ∈ Dict.keys (to_dict i) ↔
     "id" ∈ Dict.keys minimal_item ∧ ("id" ∈ aliases Item ∨ cls_extra Feature = ExtraAllow)).
Proof.
  split; [apply sample_Feature_plain|].
  eexists. split; [vm_compute; reflexivity|].
  apply (export_keys_are_supplied Item Feature minimal_item);
    [by left | apply sample_Feature_plain | vm_compute; reflexivity].
Defined.

Lemma optional_field_none_witness :
  plain_class Feature ∧ optional_key Item "collection" ∧
  Dict.get "collection" orphan_item = Some JNull ∧
  exists i,
    validate validate_other Item orphan_item = Ok i ∧
    Dict.get "collection" (inst_dict i) = Some PNone ∧
    Dict.get "collection" (to_dict i) = Some JNull.
Proof.
  assert (Hopt : optional_key Item "collection").
  { left. split; [done|]. apply elem_of_cons. right. apply elem_of_cons. by left. }
  split; [apply sample_Feature_plain|]. split; [exact Hopt|]. split; [reflexivity|].
  eexists. split; [vm_compute; reflexivity|].
  apply (proj2 (@optional_field_none sample Item Feature "collection" orphan_item _
                  (or_introl (conj eq_refl eq_refl)) sample_Feature_plain Hopt
                  ltac:(vm_compute; reflexivity))).
  reflexivity.
Defined.

Section disjoint_sample.
#[local] Existing Instance sample_disjoint.

Lemma order_irrelevant_without_collisions_witness :
  reachable init ∧ ["a"; "c"] ≡ₚ ["c"; "a"] ∧
  registry_wf ["a"; "c"] ∧ collision_free ["a"; "c"] ∧
  exists log1 res1 w1' log2 res2 w2',
    _extension_model_factory ["a"; "c"] init = (log1, Ok res1, w1') ∧
    _extension_model_factory ["c"; "a"] init = (log2, Ok res2, w2') ∧
    ∀ x, Dict.get x (cls_fields res2.1) = Dict.get x (cls_fields res1.1).
Proof.
  assert (Hreg : ∀ e m, registered ["a"; "c"] e m →
                        (e = "a" ∧ m = ext_a) ∨ (e = "c" ∧ m = ext_c)).
  { intros e m ([->|[->|[]%elem_of_nil]%elem_of_cons]%elem_of_cons & _ & [= <-]);
      [by left | by right]. }
  assert (Hwf : registry_wf ["a"; "c"]).
  { intros e m [[-> ->]|[-> ->]]%Hreg; apply NoDup_keys_decide; reflexivity. }
  assert (Hfree : collision_free ["a"; "c"]).
  { intros e e' m m' x [[-> ->]|[-> ->]]%Hreg [[-> ->]|[-> ->]]%Hreg Hne; try done.
    - intros ->%list_elem_of_singleton Hin%list_elem_of_singleton. discriminate.
    - intros ->%list_elem_of_singleton Hin%list_elem_of_singleton. discriminate. }
  split; [by exists []|]. split; [apply perm_swap|]. split; [exact Hwf|]. split; [exact Hfree|].
  eexists _, _, _. 
  edestruct (order_irrelevant_without_collisions init init ["a"; "c"] ["c"; "a"])
    as (log2 & res2 & w2' & Hcall2 & Hsame);
    [by exists [] | by exists [] | apply perm_swap | exact Hwf | exact Hfree
    | vm_compute; reflexivity |].
  exists log2, res2, w2'. split; [reflexivity|]. split; [exact Hcall2 | exact Hsame].
Defined.
End disjoint_sample.

Lemma factory_class_keeps_version_witness :
  plain_class Feature ∧ dotted STAC_VERSION ∧
  Dict.get "stac_version" mismatched_item = Some (JStr "1.0.0") ∧
  exists log cls w',
    item_factory extended_item init = (log, Ok cls, w') ∧
    exists es e,
      validate validate_other cls mismatched_item = Raise (ValidationError es) ∧
      ("stac_version", e) ∈ es.
Proof.
  split; [apply sample_Feature_plain|]. split; [apply sample_version_dotted|].
  split; [reflexivity|].
  eexists _, _, _. split; [vm_compute; reflexivity|].
  eapply (factory_class_keeps_version extended_item init _ _ _ mismatched_item (JStr "1.0.0"));
    [apply sample_Feature_plain | vm_compute; reflexivity | apply sample_version_dotted
    | reflexivity | discriminate].
Defined.

Lemma composed_schema_requires_datetime_witness :
  reachable init ∧
  (∀ e m, registered ["a"] e m → "datetime" ∉ Dict.keys (cls_fields m)) ∧
  exists log res w',
    _extension_model_factory ["a"] init = (log, Ok res, w') ∧
    exists es, validate validate_other res.1 [("a:x", JStr "v")] =
               Raise (ValidationError es) ∧
               ("datetime", MissingError) ∈ es.
Proof.
  assert (Hfree : ∀ e m, registered ["a"] e m → "datetime" ∉ Dict.keys (cls_fields m)).
  { intros e m (->%list_elem_of_singleton & _ & [= <-]).
    intros Hin%list_elem_of_singleton. discriminate. }
  split; [by exists []|]. split; [exact Hfree|].
  eexists _, _, _. split; [vm_compute; reflexivity|].
  eapply (composed_schema_requires_datetime init ["a"]);
    [by exists [] | vm_compute; reflexivity | exact Hfree | reflexivity].
Defined.

Lemma field_exported_under_alias_witness :
  exists log res w' i x,
    _extension_model_factory ["a"] init = (log, Ok res, w') ∧
    validate validate_other res.1 sample_properties = Ok i ∧
    Dict.get "x" (cls_fields res.1) = Some (mkModelField "a:x" TStr true JNull false) ∧
    validate_field (validate_type validate_other)
      (mkModelField "a:x" TStr true JNull false) (JStr "v") = inr x ∧
    Dict.get "a:x" (to_dict i) = Some (get_value true true x).
Proof.
  eexists _, _, _, _.
  edestruct (field_exported_under_alias validate_other
               (new_model 4 "CustomItemProperties" ItemProperties None (decompose_model ext_a))
               sample_properties)
    with (n := "x") (f := mkModelField "a:x" TStr true JNull false) (v := JStr "v")
    as (x & Hx & Hexp).
  - apply NoDup_keys_decide. reflexivity.
  - vm_compute; reflexivity.
  - reflexivity.
  - reflexivity.
  - intros n' f' Hin Ha. vm_compute in Hin.
    repeat (apply elem_of_cons in Hin as [[= -> ->]|Hin]; [first [reflexivity|discriminate]|]).
    by apply elem_of_nil in Hin.
  - right. intros Hin. vm_compute in Hin.
    repeat (apply elem_of_cons in Hin as [Heq|Hin]; [discriminate|]).
    by apply elem_of_nil in Hin.
  - exists x. split; [vm_compute; reflexivity|]. split; [vm_compute; reflexivity|].
    split; [reflexivity|]. split; [exact Hx | exact Hexp].
Defined.

(** The 128 sequences of [checksum_keys] are distinct, differ from
    ["checksum"], and all compose. *)
Lemma requests_of_compose_calls keys : omap requested_key (compose_calls keys) = keys.
Proof.
  unfold compose_calls. induction keys as [|k keys IH]; [done|].
  simpl. f_equal. exact IH.
Qed.

Lemma checksum_keys_length k : k ∈ checksum_keys → 2 ≤ length k.
Proof.
  intros (n & -> & _)%list_elem_of_fmap. rewrite repeat_length. lia.
Qed.

Lemma checksum_keys_NoDup : NoDup checksum_keys.
Proof.
  apply (NoDup_fmap_2_strong (λ n, repeat "checksum" (2 + n))); [|apply NoDup_seq].
  intros n n' _ _ Heq. apply (f_equal length) in Heq. rewrite !repeat_length in Heq. lia.
Qed.

Lemma checksum_keys_compose : composed_requests (compose_calls checksum_keys) = checksum_keys.
Proof.
  unfold composed_requests. rewrite requests_of_compose_calls.
  assert (Hall : Forall (λ k, composes k = true) checksum_keys).
  { apply Forall_forall. intros k (n & -> & _)%list_elem_of_fmap.
    unfold composes. rewrite extension_fields_reserved; [done|].
    apply Forall_forall. intros e He%list_elem_of_In. by apply repeat_spec in He. }
  induction Hall as [|k l Hk _ IH]; [done|].
  rewrite filter_cons_True by done. by rewrite IH.
Qed.

Lemma cache_entry_evicted_witness :
  reachable init ∧
  (["checksum"] ∉ omap requested_key (compose_calls checksum_keys)) ∧
  maxsize ≤ size (list_to_set (composed_requests (compose_calls checksum_keys))
                  : gset (list string)) ∧
  exists log res w1,
    _extension_model_factory ["checksum"] init = (log, Ok res, w1) ∧
    cached ["checksum"] (run (compose_calls checksum_keys) w1) = None.
Proof.
  assert (Hkey : ["checksum"] ∉ omap requested_key (compose_calls checksum_keys)).
  { rewrite requests_of_compose_calls. intros Hin%checksum_keys_length. simpl in Hin. lia. }
  assert (Hsize : maxsize ≤ size (list_to_set (composed_requests (compose_calls checksum_keys))
                                  : gset (list string))).
  { rewrite checksum_keys_compose, size_list_to_set by apply checksum_keys_NoDup.
    unfold checksum_keys. rewrite length_map, length_seq. reflexivity. }
  split; [by exists []|]. split; [exact Hkey|]. split; [exact Hsize|].
  eexists _, _, _. split; [vm_compute; reflexivity|].
  eapply (cache_entry_evicted init ["checksum"]);
    [by exists [] | vm_compute; reflexivity | exact Hkey | exact Hsize].
Defined.
